(** * pj: a width-aware JSON pretty-printer (deoxxa/pj, [main.go])

    A shallow embedding of the layout functions of [main.go]
    ([formatIndent], [formatArray], [formatObject], [formatOneLine],
    [formatArrayOneLine], [formatObjectOneLine], [encodeJSON]) and the
    properties of the specification that concern them. *)

From Stdlib Require Import ZArith List Bool Ascii String Lia.
From Stdlib Require Import Permutation Sorted DecimalString.
Import ListNotations.

Open Scope string_scope.
Open Scope Z_scope.

#[local] Set Warnings "-register-all".

(** ** Go's [int]: 64-bit two's complement *)

Module GoInt.

Definition wrap (z : Z) : Z := (z + 2 ^ 63) mod 2 ^ 64 - 2 ^ 63.

Definition add (a b : Z) : Z := wrap (a + b).
Definition sub (a b : Z) : Z := wrap (a - b).
Definition mul (a b : Z) : Z := wrap (a * b).

(** [int(u)] for a [uint] [u]. *)
Definition of_uint (u : Z) : Z := wrap u.

(** What fits an [int]. *)
Definition in_range (z : Z) : Prop := - 2 ^ 63 <= z < 2 ^ 63.

End GoInt.

(** [len(s)] of a Go string or byte slice. *)
Definition len (s : string) : Z := Z.of_nat (String.length s).

(** ** Results: returned errors and panics *)

Inductive failure : Type :=
| CouldntEncode (ty : string)   (* fmt.Errorf("couldn't encode type %T", v) *)
| CantFormat (ty : string)      (* fmt.Errorf("can't format type %T", v) *)
| NegativeRepeat                (* panic of strings.Repeat on a negative count *)
| RepeatTooLong                 (* panic of strings.Repeat on a count that is
                                   more than the runtime can allocate *)
| WriteError (msg : string).    (* an error returned by the output sink *)

Inductive result (A : Type) : Type :=
| Ok (a : A)
| Err (e : failure).

Arguments Ok {A} a.
Arguments Err {A} e.

Definition bind {A B : Type} (r : result A) (k : A -> result B) : result B :=
  match r with
  | Ok a => k a
  | Err e => Err e
  end.

Notation "x <- r ;; k" := (bind r (fun x => k))
  (at level 61, r at next level, right associativity).

(** ** The value model

    What [json.Decoder.Decode] stores in an [interface{}]: [nil], [bool],
    [float64], [string], [[]interface{}] and [map[string]interface{}].
    [Other] stands for a value of any other dynamic type, named by its
    [%T]. *)

(** A finite [float64]: [(-1)^f_neg * f_mant * 2^f_exp].  The decoder
    never yields NaN or an infinity. *)
Record float64 : Type := Float64 {
  f_neg : bool;
  f_mant : Z;
  f_exp : Z
}.

(** An object lists the entries of a Go map.  A Go map has no order of
    its own: the order in which [range] visits the keys is given by the
    environment below. *)
Inductive value : Type :=
| Null
| Bool (b : bool)
| Number (f : float64)
| Str (s : string)
| Array (a : list value)
| Object (m : list (string * value))
| Other (ty : string).

(** ** What the program takes from outside: flags, the Go library, the
    runtime's map iteration order and its memory

    An environment is one run: one call of the formatter.  Go chooses
    the order of a [range] over a map afresh every time; the orders of
    a run are given here as they fall in that run, and a second call is
    a second run, whose orders are its own ([with_walk] below). *)

Class Env : Type := {
  (** flag [-indent], a [uint] *)
  indent : Z;
  (** flag [-sort_keys] *)
  sortKeys : bool;
  (** [json.Marshal] on a [string] *)
  marshal_string : string -> string;
  (** [json.Marshal] on a finite [float64] *)
  marshal_float : float64 -> string;
  (** [fmt.Sprintf("%.f", v)] on a [float64] *)
  sprintf_f : float64 -> string;
  (** the order in which [for k := range m] of [formatObject] visits the
      keys of a map with the given keys *)
  range_block : list string -> list string;
  (** the same for the [range] of [formatObjectOneLine] *)
  range_oneline : list string -> list string;
  (** the largest number of bytes that [strings.Repeat] gets from the
      runtime in this run: beyond it the allocation panics
      ([makeslice: len out of range]) or memory runs out *)
  repeat_max : Z
}.

(** [json.Marshal] on a [bool]. *)
Definition marshal_bool (b : bool) : string :=
  if b then "true" else "false".

(** ** Library functions with a fixed meaning *)

(** [strings.Repeat(" ", count)]: returns at once for the counts [0]
    and [1], panics on a negative count, and panics, or the run ends
    for lack of memory, on a count that is more than the runtime can
    allocate. *)
Fixpoint spaces (n : nat) : string :=
  match n with
  | O => ""
  | S n' => String " " (spaces n')
  end.

Definition Repeat_space {E : Env} (count : Z) : result string :=
  if count <? 0 then Err NegativeRepeat
  else if (1 <? count) && (repeat_max <? count) then Err RepeatTooLong
  else Ok (spaces (Z.to_nat count)).

(** [append(bits, x)]. *)
Definition append {A : Type} (bits : list A) (x : A) : list A :=
  (bits ++ [x])%list.

(** [strings.Join(bits, sep)]. *)
Definition Join (bits : list string) (sep : string) : string :=
  String.concat sep bits.

(** Byte-wise comparison of Go strings, [a <= b]. *)
Fixpoint string_leb (a b : string) : bool :=
  match a, b with
  | EmptyString, _ => true
  | String _ _, EmptyString => false
  | String x a', String y b' =>
      match N.compare (N_of_ascii x) (N_of_ascii y) with
      | Lt => true
      | Gt => false
      | Eq => string_leb a' b'
      end
  end.

(** [sort.Strings(keys)]: the keys in increasing byte-wise order. *)
Fixpoint insert_sorted (k : string) (l : list string) : list string :=
  match l with
  | [] => [k]
  | x :: l' => if string_leb k x then k :: l else x :: insert_sorted k l'
  end.

Fixpoint sort_Strings (keys : list string) : list string :=
  match keys with
  | [] => []
  | k :: keys' => insert_sorted k (sort_Strings keys')
  end.

(** [m[k]] on a list of entries. *)
Fixpoint lookup {A : Type} (k : string) (m : list (string * A)) : option A :=
  match m with
  | [] => None
  | (k', a) :: m' => if String.eqb k k' then Some a else lookup k m'
  end.

(** ** The one-line renderer *)

Section OneLine.

Context {E : Env}.

(** [formatArrayOneLine], over the recursive call [rec] to
    [formatOneLine]. *)
Definition formatArrayOneLine (rec : value -> result string)
    (a : list value) : result string :=
  (fix loop (a : list value) (bits : list string) : result string :=
     match a with
     | [] => Ok ("[" ++ Join bits ", " ++ "]")
     | v :: a' =>
         d <- rec v ;;
         loop a' (append bits d)
     end) a [].

(** The keys of [m] as the loop over [keys] sees them: in the order of
    the [range], sorted when [sortKeys] is set. *)
Definition keys_of (range : list string -> list string)
    {A : Type} (m : list (string * A)) : list string :=
  let keys := range (map fst m) in
  if sortKeys then sort_Strings keys else keys.

(** The loop of [formatObjectOneLine] over [keys].  [vals] gives, for
    each key, the outcome of [formatOneLine(m[k])]; a key that is not in
    the map reads [nil], which formats as [null]. *)
Fixpoint objectOneLine_loop
    (vals : list (string * result string))
    (keys : list string) (bits : list string) : result string :=
  match keys with
  | [] => Ok ("{" ++ Join bits ", " ++ "}")
  | k :: keys' =>
      let kp := marshal_string k in
      d <- match lookup k vals with Some r => r | None => Ok "null" end ;;
      objectOneLine_loop vals keys' (append bits (kp ++ ": " ++ d))
  end.

(** [formatObjectOneLine], over the recursive call [rec].  The call
    [formatOneLine(m[k])] of the loop is made here entry by entry, and
    the loop finds its outcome by the key, as the source finds [m[k]]:
    the calls have no effects, so that only the outcome of the keys that
    the loop reaches counts, in the order of the loop. *)
Definition formatObjectOneLine (rec : value -> result string)
    (m : list (string * value)) : result string :=
  let vals :=
    (fix each (m : list (string * value)) : list (string * result string) :=
       match m with
       | [] => []
       | (k, v) :: m' => (k, rec v) :: each m'
       end) m in
  objectOneLine_loop vals (keys_of range_oneline m) [].

(** [formatOneLine]. *)
Fixpoint formatOneLine (v : value) : result string :=
  match v with
  | Null => Ok "null"
  | Str s => Ok (marshal_string s)
  | Number f => Ok (marshal_float f)
  | Bool b => Ok (marshal_bool b)
  | Array a => formatArrayOneLine formatOneLine a
  | Object m => formatObjectOneLine formatOneLine m
  | Other ty => Err (CantFormat ty)
  end.

End OneLine.

(** ** The width-aware renderer *)

(** The line separator of [strings.Join(bits, "\n")]. *)
Definition nl : string := String (ascii_of_nat 10) "".

Section Block.

Context {E : Env}.

(** The width test of [formatIndent]:
    [level*int( *indent)+additional+len(d) <= width]. *)
Definition fits (width level additional : Z) (d : string) : bool :=
  GoInt.add (GoInt.add (GoInt.mul level (GoInt.of_uint indent)) additional)
            (len d) <=? width.

(** [formatArray], over the recursive call [rec] to [formatIndent].
    [j - 1] does not wrap around: [j] is a length. *)
Definition formatArray (rec : value -> Z -> Z -> Z -> result string)
    (a : list value) (width level : Z) : result string :=
  let j := Z.of_nat (List.length a) in
  (fix loop (a : list value) (i : Z) (bits : list string) : result string :=
     match a with
     | [] =>
         sp <- Repeat_space (GoInt.mul level (GoInt.of_uint indent)) ;;
         Ok (Join (append bits (sp ++ "]")) nl)
     | v :: a' =>
         d <- rec v width (GoInt.add level 1) 0 ;;
         let suffix := if i <? j - 1 then "," else "" in
         sp <- Repeat_space
                 (GoInt.mul (GoInt.add level 1) (GoInt.of_uint indent)) ;;
         loop a' (i + 1) (append bits (sp ++ d ++ suffix))
     end) a 0 ["["].

(** The loop of [formatObject] over [keys].  [vals] gives, for each key
    [k], the outcome of
    [formatIndent(m[k], width, level+1, len(kp)+2)]. *)
Fixpoint object_loop (vals : list (string * result string))
    (level j : Z) (keys : list string) (i : Z) (bits : list string)
    : result string :=
  match keys with
  | [] =>
      sp <- Repeat_space (GoInt.mul level (GoInt.of_uint indent)) ;;
      Ok (Join (append bits (sp ++ "}")) nl)
  | k :: keys' =>
      let kp := marshal_string k in
      d <- match lookup k vals with Some r => r | None => Ok "null" end ;;
      let suffix := if i <? j - 1 then "," else "" in
      sp <- Repeat_space
              (GoInt.mul (GoInt.add level 1) (GoInt.of_uint indent)) ;;
      object_loop vals level j keys' (i + 1)
        (append bits (sp ++ kp ++ ": " ++ d ++ suffix))
  end.

(** [formatObject], over the recursive call [rec] to [formatIndent],
    with the calls for the values made entry by entry as in
    [formatObjectOneLine].  The statement [i++] at the end of the loop
    body has no effect on the [range] index and is left out. *)
Definition formatObject (rec : value -> Z -> Z -> Z -> result string)
    (m : list (string * value)) (width level : Z) : result string :=
  let vals :=
    (fix each (m : list (string * value)) : list (string * result string) :=
       match m with
       | [] => []
       | (k, v) :: m' =>
           (k, rec v width (GoInt.add level 1)
                 (GoInt.add (len (marshal_string k)) 2)) :: each m'
       end) m in
  let j := Z.of_nat (List.length m) in
  object_loop vals level j (keys_of range_block m) 0 ["{"].

(** [formatIndent]. *)
Fixpoint formatIndent (v : value) (width level additional : Z) {struct v}
    : result string :=
  match v with
  | Null => Ok "null"
  | Str s => Ok (marshal_string s)
  | Bool b => Ok (marshal_bool b)
  | Number f => Ok (sprintf_f f)
  | Array a =>
      d <- formatOneLine (Array a) ;;
      if fits width level additional d then Ok d
      else formatArray formatIndent a width level
  | Object m =>
      d <- formatOneLine (Object m) ;;
      if fits width level additional d then Ok d
      else formatObject formatIndent m width level
  | Other ty => Err (CouldntEncode ty)
  end.

End Block.

(** ** Writing the result *)

(** An output sink.  [sink_write s p] is one call of [Write(p)] in state
    [s]: how many bytes of [p] the sink takes, the error it returns, if
    any, and its next state. *)
Record Sink : Type := {
  sink_state : Type;
  sink_write : sink_state -> string -> nat * option string * sink_state
}.

(** The bytes of [p] that a write taking [n] bytes delivers. *)
Definition taken (n : nat) (p : string) : string := substring 0 n p.

Section Encode.

Context {E : Env}.
Variable K : Sink.

(** The loop [for r > 0] of [encodeJSON].  The second component of the
    state is everything delivered to the sink so far.  [None]: the loop
    has not ended within [fuel] rounds. *)
Fixpoint write_loop (fuel : nat) (d : string) (r : Z)
    (s : sink_state K) (out : string)
    : option (result unit * sink_state K * string) :=
  if r >? 0 then
    match fuel with
    | O => None
    | S fuel' =>
        let '(n, err, s') := sink_write K s d in
        let out' := out ++ taken n d in
        match err with
        | Some msg => Some (Err (WriteError msg), s', out')
        | None => write_loop fuel' d (GoInt.sub r (Z.of_nat n)) s' out'
        end
    end
  else Some (Ok tt, s, out).

(** [encodeJSON]: the result, the last state of the sink and all that
    was delivered to it. *)
Definition encodeJSON (fuel : nat) (v : value) (width : Z)
    (s : sink_state K) : option (result unit * sink_state K * string) :=
  match formatIndent v width 0 0 with
  | Err e => Some (Err e, s, "")
  | Ok d => write_loop fuel d (len d) s ""
  end.

End Encode.

(** ** A model of the Go library functions the program calls *)

Module GoLib.

(** *** The runtime: the size of one allocation

    [maxAlloc] of Go's runtime on 64-bit Linux: [make] panics beyond
    it.  Below it memory is taken to suffice. *)
Definition maxAlloc : Z := 2 ^ 48.

Definition byte_of (c : ascii) : N := N_of_ascii c.

Definition dquote : string := String (ascii_of_nat 34) "".

(** *** [encoding/json]: strings *)

Definition hex_digit (n : N) : ascii :=
  ascii_of_N (if (n <? 10)%N then 48 + n else 87 + n)%N.

(** The escape of a byte below [utf8.RuneSelf] ([appendString] with
    [escapeHTML] set, as [json.Marshal] runs it). *)
Definition escape_ascii (c : ascii) : string :=
  let b := byte_of c in
  if (b =? 92)%N || (b =? 34)%N then String "\" (String c "")
  else if (b =? 8)%N then "\b"
  else if (b =? 12)%N then "\f"
  else if (b =? 10)%N then "\n"
  else if (b =? 13)%N then "\r"
  else if (b =? 9)%N then "\t"
  else if (b <? 32)%N || (b =? 60)%N || (b =? 62)%N || (b =? 38)%N then
    "\u00" ++ String (hex_digit (b / 16)) (String (hex_digit (b mod 16)) "")
  else String c "".

Definition between (lo hi : N) (c : ascii) : bool :=
  ((lo <=? byte_of c) && (byte_of c <=? hi))%N.

(** The size that [utf8.DecodeRuneInString] reports for the rune in front
    of [s]; [O] where it reports [RuneError] with size 1. *)
Definition utf8_size (s : string) : nat :=
  match s with
  | EmptyString => O
  | String c0 rest =>
      let b0 := byte_of c0 in
      if (b0 <? 128)%N then 1%nat
      else if (b0 <? 194)%N then O
      else if (b0 <? 224)%N then
        match rest with
        | String c1 _ => if between 128 191 c1 then 2%nat else O
        | _ => O
        end
      else if (b0 <? 240)%N then
        let lo := if (b0 =? 224)%N then 160%N else 128%N in
        let hi := if (b0 =? 237)%N then 159%N else 191%N in
        match rest with
        | String c1 (String c2 _) =>
            if between lo hi c1 && between 128 191 c2 then 3%nat else O
        | _ => O
        end
      else if (b0 <? 245)%N then
        let lo := if (b0 =? 240)%N then 144%N else 128%N in
        let hi := if (b0 =? 244)%N then 143%N else 191%N in
        match rest with
        | String c1 (String c2 (String c3 _)) =>
            if between lo hi c1 && between 128 191 c2 && between 128 191 c3
            then 4%nat else O
        | _ => O
        end
      else O
  end.

(** Whether [s] starts with U+2028 or U+2029 (E2 80 A8, E2 80 A9), and
    the last hex digit of the escape if so. *)
Definition line_separator (s : string) : option ascii :=
  match s with
  | String c0 (String c1 (String c2 _)) =>
      if ((byte_of c0 =? 226) && (byte_of c1 =? 128))%N then
        if (byte_of c2 =? 168)%N then Some "8"%char
        else if (byte_of c2 =? 169)%N then Some "9"%char
        else None
      else None
  | _ => None
  end.

(** The body of [appendString].  [skip] bytes in front of [s] belong to
    a rune that is already decoded; they are copied when [copy] is set
    and dropped otherwise. *)
Fixpoint escape_from (skip : nat) (copy : bool) (s : string) : string :=
  match s with
  | EmptyString => ""
  | String c rest =>
      match skip with
      | S k =>
          if copy then String c (escape_from k copy rest)
          else escape_from k copy rest
      | O =>
          if (byte_of c <? 128)%N then
            escape_ascii c ++ escape_from O true rest
          else
            match utf8_size s with
            | O => ("\" ++ "ufffd") ++ escape_from O true rest
            | S k =>
                match line_separator s with
                | Some h => "\u202" ++ String h (escape_from k false rest)
                | None => String c (escape_from k true rest)
                end
            end
      end
  end.

Definition marshal_string (s : string) : string :=
  dquote ++ escape_from O true s ++ dquote.

(** *** Decimal digits *)

Definition decimal (z : Z) : string :=
  DecimalString.NilZero.string_of_uint (N.to_uint (Z.to_N z)).

(** *** [fmt.Sprintf("%.f", v)]: the exact value rounded to an integer,
    ties to even, with the sign in front *)

Definition round_half_even (num den : Z) : Z :=
  let q := num / den in
  let r := num mod den in
  if 2 * r <? den then q
  else if den <? 2 * r then q + 1
  else if Z.even q then q else q + 1.

Definition sign_of (f : float64) : string :=
  if f_neg f then "-" else "".

Definition sprintf_f (f : float64) : string :=
  let n :=
    if 0 <=? f_exp f then f_mant f * 2 ^ f_exp f
    else round_half_even (f_mant f) (2 ^ (- f_exp f)) in
  sign_of f ++ decimal n.

(** *** [strconv]: a [float64] and its decimal forms *)

(** [num / den * 2^e] as a fraction. *)
Definition scale2 (num den e : Z) : Z * Z :=
  if 0 <=? e then (num * 2 ^ e, den) else (num, den * 2 ^ (- e)).

(** [num / den * 10^x] as a fraction. *)
Definition scale10 (num den x : Z) : Z * Z :=
  if 0 <=? x then (num * 10 ^ x, den) else (num, den * 10 ^ (- x)).

(** The largest [g] with [2^g <= num/den], for a positive fraction. *)
Definition floor_log2 (num den : Z) : Z :=
  let g := Z.log2 num - Z.log2 den in
  let '(n, d) := scale2 num den (- g) in
  if d <=? n then g else g - 1.

(** The [float64] nearest to the positive fraction [num/den], ties to
    even; [None] when it is out of range ([strconv.ParseFloat] reports
    [ErrRange]). *)
Definition nearest_float64 (neg : bool) (num den : Z) : option float64 :=
  if num =? 0 then Some (Float64 neg 0 (-1074))
  else
    let e := Z.max (floor_log2 num den - 52) (-1074) in
    let '(n, d) := scale2 num den (- e) in
    let m := round_half_even n d in
    let '(m, e) := if m =? 2 ^ 53 then (2 ^ 52, e + 1) else (m, e) in
    if 971 <? e then None else Some (Float64 neg m e).

(** The form in which [strconv] reads the bits of a [float64]: the
    mantissa is at least [2^52] unless the exponent is the least one. *)
Definition normalize (m e : Z) : Z * Z :=
  let shift := Z.min (52 - Z.log2 m) (e + 1074) in
  if 0 <? shift then (m * 2 ^ shift, e - shift) else (m, e).

(** The largest [x] with [10^x <= num/den], for a positive fraction. *)
Fixpoint floor_log10_from (fuel : nat) (num den x : Z) : Z :=
  match fuel with
  | O => x
  | S fuel' =>
      let '(n, d) := scale10 num den (- (x + 1)) in
      if d <=? n then floor_log10_from fuel' num den (x + 1) else x
  end.

Definition floor_log10 (num den : Z) : Z :=
  let g := floor_log2 num den in
  floor_log10_from 8 num den ((g * 30103) / 100000 - 1).

(** The shortest decimal [q * 10^x] that reads back as the float: [V],
    [U] and [L] are the numerators of the value and of the upper and the
    lower end of its rounding interval over the denominator [D]; the
    ends belong to the interval when [incl] is set.  At each position
    the value is rounded down and up; the nearer of the two that lie in
    the interval is taken. *)
Fixpoint shortest_from (fuel : nat) (V U L D : Z) (incl : bool) (x : Z)
    : Z * Z :=
  let '(wn, wd) := scale10 1 1 x in
  let q := (V * wd) / (D * wn) in
  let down := q * wn * D in
  let up := (q + 1) * wn * D in
  let okdown := if incl then L * wd <=? down else L * wd <? down in
  let okup := if incl then up <=? U * wd else up <? U * wd in
  let nearest :=
    if 2 * V * wd <? (2 * q + 1) * wn * D then q
    else if (2 * q + 1) * wn * D <? 2 * V * wd then q + 1
    else if Z.even q then q else q + 1 in
  match okdown, okup with
  | true, true => (nearest, x)
  | true, false => (q, x)
  | false, true => (q + 1, x)
  | false, false =>
      match fuel with
      | O => (q, x)
      | S fuel' => shortest_from fuel' V U L D incl (x - 1)
      end
  end.

Fixpoint strip_zeros (fuel : nat) (q x : Z) : Z * Z :=
  match fuel with
  | O => (q, x)
  | S fuel' =>
      if (q mod 10 =? 0) && negb (q =? 0) then strip_zeros fuel' (q / 10) (x + 1)
      else (q, x)
  end.

(** The digits of the shortest decimal of a float with a mantissa other
    than zero, and the position [dp] of the decimal point: the value
    reads [0.digits * 10^dp]. *)
Definition shortest (f : float64) : string * Z :=
  let '(m, e) := normalize (f_mant f) (f_exp f) in
  let boundary := (m =? 2 ^ 52) && (-1074 <? e) in
  let '(V, D) := scale2 (4 * m) 1 (e - 2) in
  let '(U, _) := scale2 (4 * m + 2) 1 (e - 2) in
  let '(L, _) := scale2 (if boundary then 4 * m - 1 else 4 * m - 2) 1 (e - 2) in
  let '(q, x) := shortest_from 1100 V U L D (Z.even m) (floor_log10 U D) in
  let '(q, x) := strip_zeros 400 q x in
  let ds := decimal q in
  (ds, len ds + x).

Fixpoint zeros (n : nat) : string :=
  match n with
  | O => ""
  | S n' => String "0" (zeros n')
  end.

(** [%f] with the shortest digits. *)
Definition fmtF (ds : string) (dp : Z) : string :=
  let nd := len ds in
  if dp <=? 0 then "0." ++ zeros (Z.to_nat (- dp)) ++ ds
  else if dp <? nd then
    substring 0 (Z.to_nat dp) ds ++ "." ++
    substring (Z.to_nat dp) (Z.to_nat (nd - dp)) ds
  else ds ++ zeros (Z.to_nat (dp - nd)).

(** [%e] with the shortest digits, after the clean-up of [e-09] to
    [e-9] that [encoding/json] applies. *)
Definition fmtE (ds : string) (dp : Z) : string :=
  let mantissa :=
    match ds with
    | String c EmptyString => String c ""
    | String c rest => String c ("." ++ rest)
    | EmptyString => "0"
    end in
  let x := dp - 1 in
  if x <? 0 then mantissa ++ "e-" ++ decimal (- x)
  else mantissa ++ "e+" ++ (if x <? 10 then "0" else "") ++ decimal x.

(** [json.Marshal] on a finite [float64]: [%f] unless the magnitude is
    below [1e-6] or at least [1e21]. *)
Definition marshal_float (f : float64) : string :=
  if f_mant f =? 0 then sign_of f ++ "0"
  else
    let '(V, D) := scale2 (f_mant f) 1 (f_exp f) in
    let small := V * 2 ^ 72 <? 4722366482869645 * D in
    let large := 10 ^ 21 * D <=? V in
    let '(ds, dp) := shortest f in
    sign_of f ++ (if small || large then fmtE ds dp else fmtF ds dp).

(** *** [strconv.ParseFloat] on the text of a JSON number *)

Definition is_digit (c : ascii) : bool :=
  ((48 <=? byte_of c) && (byte_of c <=? 57))%N.

(** The digits in front of [s]: their value after [acc], their number
    after [count], and what follows them. *)
Fixpoint read_digits (s : string) (acc count : Z) : Z * Z * string :=
  match s with
  | String c r =>
      if is_digit c
      then read_digits r (10 * acc + (Z.of_N (byte_of c) - 48)) (count + 1)
      else (acc, count, s)
  | EmptyString => (acc, count, s)
  end.

Definition is_char (c : ascii) (n : N) : bool := (byte_of c =? n)%N.

(** The exponent part of a number, if there is one. *)
Definition read_exponent (s : string) : option (Z * string) :=
  match s with
  | String c r =>
      if is_char c 101 || is_char c 69 then
        let '(neg, r) :=
          match r with
          | String g r' =>
              if is_char g 45 then (true, r')
              else if is_char g 43 then (false, r')
              else (false, r)
          | EmptyString => (false, r)
          end in
        let '(x, n, rest) := read_digits r 0 0 in
        if n =? 0 then None else Some (if neg then - x else x, rest)
      else Some (0, s)
  | EmptyString => Some (0, s)
  end.

Definition parse_float (t : string) : option float64 :=
  let '(neg, t) :=
    match t with
    | String c r => if is_char c 45 then (true, r) else (false, t)
    | EmptyString => (false, t)
    end in
  let '(ip, n, rest) := read_digits t 0 0 in
  let leading_zero :=
    match t with
    | String c _ => is_char c 48 && (1 <? n)
    | EmptyString => false
    end in
  if (n =? 0) || leading_zero then None
  else
    let frac :=
      match rest with
      | String c r =>
          if is_char c 46 then
            let '(m, k, rest') := read_digits r ip 0 in
            if k =? 0 then None else Some (m, k, rest')
          else Some (ip, 0, rest)
      | EmptyString => Some (ip, 0, rest)
      end in
    match frac with
    | None => None
    | Some (m, k, rest') =>
        match read_exponent rest' with
        | Some (x, EmptyString) =>
            let '(num, den) := scale10 m 1 (x - k) in
            nearest_float64 neg num den
        | _ => None
        end
    end.

(** *** [encoding/json]: reading a string literal *)

(** The UTF-8 encoding of a code point. *)
Definition utf8_encode (r : N) : string :=
  let b (n : N) := ascii_of_N n in
  (if r <? 128 then String (b r) ""
   else if r <? 2048 then
     String (b (192 + r / 64)) (String (b (128 + r mod 64)) "")
   else if r <? 65536 then
     String (b (224 + r / 4096))
       (String (b (128 + (r / 64) mod 64)) (String (b (128 + r mod 64)) ""))
   else
     String (b (240 + r / 262144))
       (String (b (128 + (r / 4096) mod 64))
          (String (b (128 + (r / 64) mod 64))
             (String (b (128 + r mod 64)) ""))))%N.

Definition replacement : string := utf8_encode 65533.

Definition hex_value (c : ascii) : option N :=
  let n := byte_of c in
  if ((48 <=? n) && (n <=? 57))%N then Some (n - 48)%N
  else if ((97 <=? n) && (n <=? 102))%N then Some (n - 87)%N
  else if ((65 <=? n) && (n <=? 70))%N then Some (n - 55)%N
  else None.

Definition hex4 (a b c d : ascii) : option N :=
  match hex_value a, hex_value b, hex_value c, hex_value d with
  | Some x, Some y, Some z, Some w => Some (((x * 16 + y) * 16 + z) * 16 + w)%N
  | _, _, _, _ => None
  end.

(** The character of a one-letter escape. *)
Definition simple_escape (e : ascii) : option ascii :=
  let n := byte_of e in
  if (n =? 34)%N || (n =? 92)%N || (n =? 47)%N then Some e
  else if (n =? 98)%N then Some (ascii_of_nat 8)
  else if (n =? 102)%N then Some (ascii_of_nat 12)
  else if (n =? 110)%N then Some (ascii_of_nat 10)
  else if (n =? 114)%N then Some (ascii_of_nat 13)
  else if (n =? 116)%N then Some (ascii_of_nat 9)
  else None.

Definition prepend (t : string) (r : option string) : option string :=
  match r with
  | Some s => Some (t ++ s)
  | None => None
  end.

(** The text between the quotes of a literal, read up to the closing
    quote.  [skip] bytes in front of [s] belong to a rune that has been
    checked already. *)
Fixpoint unquote_from (skip : nat) (s : string) : option string :=
  match s with
  | EmptyString => None
  | String c r =>
      match skip with
      | S k => prepend (String c "") (unquote_from k r)
      | O =>
          if is_char c 34 then
            match r with
            | EmptyString => Some ""
            | String _ _ => None
            end
          else if is_char c 92 then
            match r with
            | String e r1 =>
                if is_char e 117 then
                  match r1 with
                  | String h1 (String h2 (String h3 (String h4 r5))) =>
                      match hex4 h1 h2 h3 h4 with
                      | None => None
                      | Some hi =>
                          if ((55296 <=? hi) && (hi <? 56320))%N then
                            match r5 with
                            | String b1 (String b2 (String l1 (String l2
                                (String l3 (String l4 r11))))) =>
                                match
                                  (if is_char b1 92 && is_char b2 117
                                   then hex4 l1 l2 l3 l4 else None)
                                with
                                | Some lo =>
                                    if ((56320 <=? lo) && (lo <? 57344))%N then
                                      prepend
                                        (utf8_encode
                                           (65536 + (hi - 55296) * 1024
                                            + (lo - 56320)))
                                        (unquote_from O r11)
                                    else prepend replacement (unquote_from O r5)
                                | None => prepend replacement (unquote_from O r5)
                                end
                            | _ => prepend replacement (unquote_from O r5)
                            end
                          else if ((56320 <=? hi) && (hi <? 57344))%N then
                            prepend replacement (unquote_from O r5)
                          else prepend (utf8_encode hi) (unquote_from O r5)
                      end
                  | _ => None
                  end
                else
                  match simple_escape e with
                  | Some x => prepend (String x "") (unquote_from O r1)
                  | None => None
                  end
            | EmptyString => None
            end
          else if (byte_of c <? 32)%N then None
          else if (byte_of c <? 128)%N then
            prepend (String c "") (unquote_from O r)
          else
            match utf8_size s with
            | O => prepend replacement (unquote_from O r)
            | S k => prepend (String c "") (unquote_from k r)
            end
      end
  end.

(** [unquote] of [encoding/json] on a literal with its quotes. *)
Definition unquote (t : string) : option string :=
  match t with
  | String c r => if is_char c 34 then unquote_from O r else None
  | EmptyString => None
  end.

End GoLib.

(** ** The decoder

    [json.NewDecoder(input).Decode(&v)] on a well-formed document: the
    grammar is read here, the two conversions of tokens are taken from
    the library. *)

Class Decoder : Type := {
  (** [unquote] of [encoding/json] on a string literal with its quotes *)
  unquote : string -> option string;
  (** [strconv.ParseFloat(s, 64)] on the text of a number; [None] where
      it reports an error *)
  parse_float : string -> option float64
}.

Definition is_ws (c : ascii) : bool :=
  let n := N_of_ascii c in
  ((n =? 32) || (n =? 9) || (n =? 13) || (n =? 10))%N.

Fixpoint skip_ws (s : string) : string :=
  match s with
  | String c r => if is_ws c then skip_ws r else s
  | EmptyString => s
  end.

(** The rest of a string literal, from behind its opening quote to its
    closing quote, and what follows it. *)
Fixpoint scan_string (s : string) : option (string * string) :=
  match s with
  | EmptyString => None
  | String c r =>
      let n := N_of_ascii c in
      if (n =? 34)%N then Some (String c "", r)
      else if (n =? 92)%N then
        match r with
        | String e r' =>
            match scan_string r' with
            | Some (lit, rest) => Some (String c (String e lit), rest)
            | None => None
            end
        | EmptyString => None
        end
      else if (n <? 32)%N then None
      else
        match scan_string r with
        | Some (lit, rest) => Some (String c lit, rest)
        | None => None
        end
  end.

(** A character that the text of a number may hold. *)
Definition is_number_char (c : ascii) : bool :=
  let n := N_of_ascii c in
  (((48 <=? n) && (n <=? 57)) || (n =? 45) || (n =? 43) || (n =? 46)
   || (n =? 101) || (n =? 69))%N.

(** The text of a number in front of [s], and what follows it. *)
Fixpoint scan_number (s : string) : string * string :=
  match s with
  | String c r =>
      if is_number_char c
      then let '(t, rest) := scan_number r in (String c t, rest)
      else ("", s)
  | EmptyString => ("", s)
  end.

(** [s] without the prefix [p], if it starts with it. *)
Fixpoint expect (p s : string) : option string :=
  match p, s with
  | EmptyString, _ => Some s
  | String a p', String b s' => if Ascii.eqb a b then expect p' s' else None
  | String _ _, EmptyString => None
  end.

(** [m[k] = v] on a list of entries. *)
Fixpoint map_insert (k : string) (v : value) (m : list (string * value))
    : list (string * value) :=
  match m with
  | [] => [(k, v)]
  | (k', v') :: m' =>
      if String.eqb k k' then (k, v) :: m' else (k', v') :: map_insert k v m'
  end.

Section Decode.

Context {D : Decoder}.

(** The elements of an array behind the first, each read by [pv]. *)
Fixpoint parse_elements (fuel : nat)
    (pv : string -> option (value * string))
    (s : string) (acc : list value) : option (value * string) :=
  match fuel with
  | O => None
  | S fuel' =>
      match pv s with
      | None => None
      | Some (v, rest) =>
          match skip_ws rest with
          | String c r =>
              if (N_of_ascii c =? 44)%N
              then parse_elements fuel' pv r (append acc v)
              else if (N_of_ascii c =? 93)%N
              then Some (Array (append acc v), r)
              else None
          | EmptyString => None
          end
      end
  end.

(** The members of an object, each value read by [pv]. *)
Fixpoint parse_members (fuel : nat)
    (pv : string -> option (value * string))
    (s : string) (acc : list (string * value)) : option (value * string) :=
  match fuel with
  | O => None
  | S fuel' =>
      match skip_ws s with
      | String q r =>
          if (N_of_ascii q =? 34)%N then
            match scan_string r with
            | None => None
            | Some (lit, rest) =>
                match unquote (String q lit) with
                | None => None
                | Some k =>
                    match skip_ws rest with
                    | String c r1 =>
                        if (N_of_ascii c =? 58)%N then
                          match pv r1 with
                          | None => None
                          | Some (v, rest1) =>
                              match skip_ws rest1 with
                              | String c' r2 =>
                                  if (N_of_ascii c' =? 44)%N
                                  then parse_members fuel' pv r2
                                         (map_insert k v acc)
                                  else if (N_of_ascii c' =? 125)%N
                                  then Some (Object (map_insert k v acc), r2)
                                  else None
                              | EmptyString => None
                              end
                          end
                        else None
                    | EmptyString => None
                    end
                end
            end
          else None
      | EmptyString => None
      end
  end.

(** One value in front of [s], and what follows it. *)
Fixpoint parse_value (fuel : nat) (s : string) : option (value * string) :=
  match fuel with
  | O => None
  | S fuel' =>
      match skip_ws s with
      | EmptyString => None
      | String c r =>
          let n := N_of_ascii c in
          if (n =? 34)%N then
            match scan_string r with
            | None => None
            | Some (lit, rest) =>
                match unquote (String c lit) with
                | Some x => Some (Str x, rest)
                | None => None
                end
            end
          else if (n =? 91)%N then
            match skip_ws r with
            | String c' r' =>
                if (N_of_ascii c' =? 93)%N then Some (Array [], r')
                else parse_elements fuel' (parse_value fuel') r []
            | EmptyString => None
            end
          else if (n =? 123)%N then
            match skip_ws r with
            | String c' r' =>
                if (N_of_ascii c' =? 125)%N then Some (Object [], r')
                else parse_members fuel' (parse_value fuel') r []
            | EmptyString => None
            end
          else if (n =? 110)%N then
            option_map (fun rest => (Null, rest)) (expect "ull" r)
          else if (n =? 116)%N then
            option_map (fun rest => (Bool true, rest)) (expect "rue" r)
          else if (n =? 102)%N then
            option_map (fun rest => (Bool false, rest)) (expect "alse" r)
          else if (n =? 45)%N || ((48 <=? n) && (n <=? 57))%N then
            let '(t, rest) := scan_number (String c r) in
            match parse_float t with
            | Some f => Some (Number f, rest)
            | None => None
            end
          else None
      end
  end.

(** The value of a document, read within [fuel] steps. *)
Definition decode (fuel : nat) (s : string) : option value :=
  match parse_value fuel s with
  | Some (v, _) => Some v
  | None => None
  end.

End Decode.

(** The decoder over the library model. *)
Definition go_decoder : Decoder :=
  {| unquote := GoLib.unquote; parse_float := GoLib.parse_float |}.

(** ** The program over the Go library model *)

(** The environment of a run: the flags [-indent] and [-sort_keys], the
    Go library as modelled above, and the orders [rb] and [ro] in which
    the runtime walks maps in [formatObject] and [formatObjectOneLine]. *)
Definition go_env (indent_flag : Z) (sort_keys_flag : bool)
    (rb ro : list string -> list string) : Env :=
  {| indent := indent_flag;
     sortKeys := sort_keys_flag;
     marshal_string := GoLib.marshal_string;
     marshal_float := GoLib.marshal_float;
     sprintf_f := GoLib.sprintf_f;
     range_block := rb;
     range_oneline := ro;
     repeat_max := GoLib.maxAlloc |}.

(** A run that walks every map in the order of its entries. *)
Definition in_order (keys : list string) : list string := keys.

(** The flags at their defaults, maps walked in the order of their
    entries. *)
Definition default_env : Env := go_env 2 false in_order in_order.


(** A run in which the runtime walks every map from its last entry to
    its first. *)
Definition reversed_env : Env := go_env 2 false (@rev string) (@rev string).

(** A sink that takes at most [chunk] bytes at a time and reports no
    error. *)
Definition chunk_sink (chunk : nat) : Sink :=
  {| sink_state := unit;
     sink_write := fun _ p => (Nat.min chunk (String.length p), None, tt) |}.

(** A sink that takes every byte it is offered. *)
Definition full_sink : Sink :=
  {| sink_state := unit;
     sink_write := fun _ p => (String.length p, None, tt) |}.

(** The defaults with [-sort_keys] set. *)
Definition sorted_env : Env := go_env 2 true in_order in_order.

(** The number that the decimal [digits * 10^x] decodes to; zero where
    the decoder would reject it as out of range. *)
Definition num (digits x : Z) : value :=
  let '(n, d) := GoLib.scale10 (Z.abs digits) 1 x in
  match GoLib.nearest_float64 (digits <? 0) n d with
  | Some f => Number f
  | None => Number (Float64 false 0 (-1074))
  end.

(** ** Notions the properties are stated with *)

Definition newline : ascii := ascii_of_nat 10.

(** Whether a text has a line break in it. *)
Fixpoint has_nl (s : string) : bool :=
  match s with
  | EmptyString => false
  | String c s' => Ascii.eqb c newline || has_nl s'
  end.

(** The lines of a text. *)
Fixpoint lines (s : string) : list string :=
  match s with
  | EmptyString => [""]
  | String c s' =>
      if Ascii.eqb c newline then "" :: lines s'
      else
        match lines s' with
        | l :: ls => String c l :: ls
        | [] => [String c ""]
        end
  end.

(** A value of the closed variant set: no [Other] anywhere in it. *)
Fixpoint closed (v : value) : bool :=
  match v with
  | Other _ => false
  | Array a => forallb closed a
  | Object m => forallb (fun kv => let '(_, x) := kv in closed x) m
  | _ => true
  end.

(** The nesting depth of a value. *)
Fixpoint depth (v : value) : Z :=
  match v with
  | Array a => 1 + fold_right (fun x acc => Z.max (depth x) acc) 0 a
  | Object m =>
      1 + fold_right (fun kv acc => let '(_, x) := kv in Z.max (depth x) acc) 0 m
  | _ => 0
  end.

(** Whether a value is an array or an object. *)
Definition compound (v : value) : bool :=
  match v with
  | Array _ | Object _ => true
  | _ => false
  end.

(** Running a fallible function over a list, first failure wins. *)
Fixpoint mapM {A B : Type} (f : A -> result B) (l : list A) : result (list B) :=
  match l with
  | [] => Ok []
  | x :: l' =>
      y <- f x ;;
      ys <- mapM f l' ;;
      Ok (y :: ys)
  end.

(** The items of a block, each but the last with its comma. *)
Fixpoint with_commas (items : list string) : list string :=
  match items with
  | [] => []
  | [x] => [x]
  | x :: rest => (x ++ ",") :: with_commas rest
  end.

(** The block form of a compound value: what [formatIndent] turns to
    when the one-line form does not fit. *)
Definition block_form {E : Env} (v : value) (width level : Z) : result string :=
  match v with
  | Array a => formatArray formatIndent a width level
  | Object m => formatObject formatIndent m width level
  | _ => Err (CouldntEncode "")
  end.

(** The bracket that closes the block form of a compound value. *)
Definition closer (v : value) : string :=
  match v with
  | Object _ => "}"
  | _ => "]"
  end.

(** Whether a value is a scalar: [null], a boolean, a number or a
    string. *)
Definition scalar (v : value) : bool :=
  match v with
  | Null | Bool _ | Number _ | Str _ => true
  | _ => false
  end.

(** The text of a scalar as [formatIndent] writes it. *)
Definition scalar_text {E : Env} (v : value) : string :=
  match v with
  | Null => "null"
  | Bool b => marshal_bool b
  | Number f => sprintf_f f
  | Str s => marshal_string s
  | _ => ""
  end.

(** Nothing, or the comma behind an item that is not the last. *)
Definition comma_or_none (suf : string) : Prop := suf = "" \/ suf = ",".

(** Nothing, or the quoted key of an object entry with its separator. *)
Definition key_prefix {E : Env} (pre : string) : Prop :=
  pre = "" \/ exists k, pre = marshal_string k ++ ": ".

(** A line with nothing in it that the layout could break: behind its
    indentation a scalar, an opening bracket or a closing bracket. *)
Inductive unbreakable {E : Env} : string -> Prop :=
| unbreakable_scalar (n : nat) (pre : string) (v : value) (suf : string) :
    key_prefix pre -> scalar v = true -> comma_or_none suf ->
    unbreakable (spaces n ++ pre ++ scalar_text v ++ suf)
| unbreakable_open (n : nat) (pre b : string) :
    key_prefix pre -> b = "[" \/ b = "{" ->
    unbreakable (spaces n ++ pre ++ b)
| unbreakable_close (n : nat) (b suf : string) :
    b = "]" \/ b = "}" -> comma_or_none suf ->
    unbreakable (spaces n ++ b ++ suf).

(** A line within the width, the comma behind it not counted, or a line
    that cannot be broken. *)
Definition line_ok {E : Env} (width : Z) (l : string) : Prop :=
  (exists body suf, l = body ++ suf /\ comma_or_none suf /\ len body <= width)
  \/ unbreakable l.

(** The forms in which [formatIndent] renders a value at [level] behind
    [additional] characters: a scalar as its text; a compound value on
    one line within the width, or as a block between its brackets. *)
Inductive rendered {E : Env} (width level additional : Z) (v : value)
    (out : string) : Prop :=
| rendered_scalar :
    scalar v = true -> out = scalar_text v ->
    rendered width level additional v out
| rendered_one_line :
    compound v = true -> has_nl out = false ->
    level * indent + additional + len out <= width ->
    rendered width level additional v out
| rendered_block (opening : string) (mid : list string) :
    compound v = true ->
    lines out =
      (opening :: mid ++
       [(spaces (Z.to_nat (level * indent)) ++ closer v)%string])%list ->
    opening = "[" \/ opening = "{" ->
    Forall (line_ok width) mid ->
    rendered width level additional v out.

(** *** Reading back what was written *)

(** Whether the decoder reads the literal of [s] back as [s]: the
    literal starts with a quote, ends at its closing quote, and
    [unquote] gives [s]. *)
Definition string_round_trip {E : Env} {D : Decoder} (s : string) : bool :=
  match marshal_string s with
  | String q body =>
      (N_of_ascii q =? 34)%N
      && match scan_string body with
         | Some (lit, EmptyString) => String.eqb lit body
         | _ => false
         end
      && match unquote (marshal_string s) with
         | Some s' => String.eqb s' s
         | None => false
         end
  | EmptyString => false
  end.

Definition float64_eqb (f g : float64) : bool :=
  Bool.eqb (f_neg f) (f_neg g) && (f_mant f =? f_mant g) && (f_exp f =? f_exp g).

Fixpoint all_number_chars (t : string) : bool :=
  match t with
  | String c r => is_number_char c && all_number_chars r
  | EmptyString => true
  end.

(** Whether a text is the text of a number as the decoder scans it. *)
Definition number_text (t : string) : bool :=
  match t with
  | String c r =>
      let n := N_of_ascii c in
      ((n =? 45) || ((48 <=? n) && (n <=? 57)))%N && all_number_chars r
  | EmptyString => false
  end.

(** Whether both renderers write the number alike and the decoder reads
    it back. *)
Definition number_round_trip {E : Env} {D : Decoder} (f : float64) : bool :=
  String.eqb (sprintf_f f) (marshal_float f)
  && number_text (marshal_float f)
  && match parse_float (marshal_float f) with
     | Some g => float64_eqb g f
     | None => false
     end.

(** Whether every string, key and number of a value of the closed
    variant set is read back as it was written. *)
Fixpoint tokens_round_trip {E : Env} {D : Decoder} (v : value) : bool :=
  match v with
  | Null | Bool _ => true
  | Number f => number_round_trip f
  | Str s => string_round_trip s
  | Array a => forallb tokens_round_trip a
  | Object m =>
      forallb (fun kv => let '(k, x) := kv in
                         string_round_trip k && tokens_round_trip x) m
  | Other _ => false
  end.

Fixpoint distinct (l : list string) : bool :=
  match l with
  | [] => true
  | k :: l' => negb (existsb (String.eqb k) l') && distinct l'
  end.

(** Whether the entries of every object have distinct keys, as the
    entries of a Go map have. *)
Fixpoint maps_ok (v : value) : bool :=
  match v with
  | Array a => forallb maps_ok a
  | Object m =>
      distinct (map fst m)
      && forallb (fun kv => let '(_, x) := kv in maps_ok x) m
  | _ => true
  end.

(** The value with the entries of every object in the order of their
    keys: what the decoder makes of a document written with
    [sort_keys]. *)
Fixpoint sorted_value (v : value) : value :=
  match v with
  | Array a => Array (map sorted_value a)
  | Object m =>
      let m' :=
        (fix each (m : list (string * value)) : list (string * value) :=
           match m with
           | [] => []
           | (k, x) :: m' => (k, sorted_value x) :: each m'
           end) m in
      Object (map (fun k => (k, match lookup k m' with
                                | Some x => x
                                | None => Null
                                end))
                  (sort_Strings (map fst m)))
  | _ => v
  end.

(** The steps that the decoder needs for a value. *)
Fixpoint steps (v : value) : nat :=
  match v with
  | Array a =>
      S (List.length a + fold_right (fun x acc => Nat.max (steps x) acc) O a)
  | Object m =>
      S (List.length m +
         fold_right (fun kv acc => let '(_, x) := kv in Nat.max (steps x) acc)
                    O m)
  | _ => 1%nat
  end.

(** Where the text of a number ends: at the end of the text or in front
    of a character that no number holds. *)
Definition ends_number (rest : string) : Prop :=
  match rest with
  | String c _ => is_number_char c = false
  | EmptyString => True
  end.

(** The pieces of a sequence, a comma behind each but the last, and
    what closes the sequence. *)
Fixpoint commas (pieces : list string) (close : string) : string :=
  match pieces with
  | [] => close
  | [p] => p ++ close
  | p :: ps => p ++ "," ++ commas ps close
  end.

(** A text of white space only. *)
Fixpoint all_ws (w : string) : bool :=
  match w with
  | String c r => is_ws c && all_ws r
  | EmptyString => true
  end.

(** A text that starts with the first character of a value: not with
    white space and not with a closing bracket. *)
Definition starts_value (d : string) : Prop :=
  match d with
  | String c _ =>
      is_ws c = false /\ N_of_ascii c <> 93%N /\ N_of_ascii c <> 125%N
  | EmptyString => False
  end.

(** ** Induction over values *)

Section ValueInd.

Variable P : value -> Prop.
Hypothesis HNull : P Null.
Hypothesis HBool : forall b, P (Bool b).
Hypothesis HNumber : forall f, P (Number f).
Hypothesis HStr : forall s, P (Str s).
Hypothesis HArray : forall a, Forall P a -> P (Array a).
Hypothesis HObject : forall m, Forall (fun kv => P (snd kv)) m -> P (Object m).
Hypothesis HOther : forall ty, P (Other ty).

Fixpoint value_induction (v : value) : P v :=
  match v with
  | Null => HNull
  | Bool b => HBool b
  | Number f => HNumber f
  | Str s => HStr s
  | Array a =>
      HArray a
        ((fix all (a : list value) : Forall P a :=
            match a with
            | [] => Forall_nil _
            | x :: a' => Forall_cons x (value_induction x) (all a')
            end) a)
  | Object m =>
      HObject m
        ((fix all (m : list (string * value))
            : Forall (fun kv => P (snd kv)) m :=
            match m with
            | [] => Forall_nil _
            | (k, x) :: m' =>
                Forall_cons (k, x) (value_induction x) (all m')
            end) m)
  | Other ty => HOther ty
  end.

End ValueInd.

(** ** Notions the proofs are stated with *)

Section Items.

Context {E : Env}.

(** The entries of a map with each value sent through [f]. *)
Definition each_entry {B : Type} (f : string -> value -> B)
    (m : list (string * value)) : list (string * B) :=
  map (fun kv => (fst kv, f (fst kv) (snd kv))) m.

(** What [m[k]] formats to: the entry's outcome, or [null] for a key
    that is not there. *)
Definition entry_or_null (vals : list (string * result string)) (k : string)
    : result string :=
  match lookup k vals with
  | Some r => r
  | None => Ok "null"
  end.

(** One [key: value] piece of the one-line form. *)
Definition oneline_entry (vals : list (string * result string)) (k : string)
    : result string :=
  d <- entry_or_null vals k ;;
  Ok (marshal_string k ++ ": " ++ d).

(** One item of an array block: the element at [level+1] with no
    characters before it, behind its indentation. *)
Definition array_item (rec : value -> Z -> Z -> Z -> result string)
    (width level : Z) (v : value) : result string :=
  d <- rec v width (GoInt.add level 1) 0 ;;
  sp <- Repeat_space (GoInt.mul (GoInt.add level 1) (GoInt.of_uint indent)) ;;
  Ok (sp ++ d).

(** One item of an object block. *)
Definition object_item (vals : list (string * result string)) (level : Z)
    (k : string) : result string :=
  d <- entry_or_null vals k ;;
  sp <- Repeat_space (GoInt.mul (GoInt.add level 1) (GoInt.of_uint indent)) ;;
  Ok (sp ++ marshal_string k ++ ": " ++ d).

(** The last line of a block. *)
Definition closing (level : Z) (bracket : string) : result string :=
  sp <- Repeat_space (GoInt.mul level (GoInt.of_uint indent)) ;;
  Ok (sp ++ bracket).

(** The outcomes of the recursive calls of [formatObject], by key. *)
Definition block_vals (rec : value -> Z -> Z -> Z -> result string)
    (m : list (string * value)) (width level : Z)
    : list (string * result string) :=
  each_entry
    (fun k v => rec v width (GoInt.add level 1)
                  (GoInt.add (len (marshal_string k)) 2)) m.

End Items.

(** The next [k] bytes, as far as they are there, are no line breaks. *)
Fixpoint safe_prefix (k : nat) (s : string) : Prop :=
  match k, s with
  | S k', String c r => Ascii.eqb c newline = false /\ safe_prefix k' r
  | _, _ => True
  end.

(** A printable ASCII character that [json.Marshal] copies as it is. *)
Definition plain_char (c : ascii) : bool :=
  let n := N_of_ascii c in
  ((32 <=? n) && (n <? 127) && negb (n =? 34) && negb (n =? 92)
   && negb (n =? 60) && negb (n =? 62) && negb (n =? 38))%N.

Fixpoint plain (s : string) : bool :=
  match s with
  | String c r => plain_char c && plain r
  | EmptyString => true
  end.

(** The byte-wise order of keys. *)
Definition key_le (a b : string) : Prop := string_leb a b = true.

(** The entries of the sorted value of an object. *)
Definition sorted_entries (m : list (string * value)) : list (string * value) :=
  map (fun k => (k, match lookup k (map (fun kv => (fst kv, sorted_value (snd kv))) m)
                    with
                    | Some x => x
                    | None => Null
                    end))
      (sort_Strings (map fst m)).

(** Settles the comparisons of numbers in the goal. *)
Ltac decide_N_tests :=
  repeat match goal with
         | |- context [(?a =? ?b)%N] => destruct (N.eqb_spec a b); try lia
         | |- context [(?a <=? ?b)%N] => destruct (N.leb_spec a b); try lia
         | |- context [(?a <? ?b)%N] => destruct (N.ltb_spec a b); try lia
         end.

(** The parser [pv] reads the value [v] from the piece [p], whatever
    follows. *)
Definition reads (pv : string -> option (value * string))
    (v : value) (p : string) : Prop :=
  forall R, ends_number R -> pv (p ++ R) = Some (v, R).

(** The member parser reads the entry [kv] from the piece [p]. *)
Definition member_reads {D : Decoder}
    (pv : string -> option (value * string))
    (kv : string * value) (p : string) : Prop :=
  exists w q body d,
    p = w ++ String q body ++ ": " ++ d /\
    all_ws w = true /\ N_of_ascii q = 34%N /\
    scan_string body = Some (body, "") /\
    unquote (String q body) = Some (fst kv) /\
    reads pv (snd kv) (" " ++ d).

(** ** Notions of the further properties *)

(** The dynamic types of the unsupported values in a value. *)
Fixpoint others (v : value) : list string :=
  match v with
  | Other ty => [ty]
  | Array a => flat_map others a
  | Object m => flat_map (fun kv => let '(_, x) := kv in others x) m
  | _ => []
  end.

(** The run [E] with the runtime walking the maps in the orders [rb] and
    [ro] instead. *)
Definition with_walk (E : Env) (rb ro : list string -> list string) : Env :=
  {| indent := indent;
     sortKeys := sortKeys;
     marshal_string := marshal_string;
     marshal_float := marshal_float;
     sprintf_f := sprintf_f;
     range_block := rb;
     range_oneline := ro;
     repeat_max := repeat_max |}.

(** The panics of [strings.Repeat]. *)
Definition repeat_panic (e : failure) : Prop :=
  e = NegativeRepeat \/ e = RepeatTooLong.

(** [s] written [n] times in a row. *)
Fixpoint repeated (n : nat) (s : string) : string :=
  match n with
  | O => ""
  | S n' => s ++ repeated n' s
  end.

(** [s] without its first [n] bytes. *)
Fixpoint drop (n : nat) (s : string) : string :=
  match n, s with
  | S n', String _ r => drop n' r
  | _, _ => s
  end.

(** The file behind [-output]: its bytes and the offset of the next
    write. *)
Record file : Type := File {
  content : string;
  offset : nat
}.

(** [os.OpenFile(name, os.O_WRONLY|os.O_CREATE, 0644)] of [main]: a file
    that is not there is created empty, one that is there is opened as
    it is, neither cut to length zero ([O_TRUNC] is not set) nor written
    at its end ([O_APPEND] is not set). *)
Definition open_output (existing : option string) : file :=
  {| content := match existing with Some old => old | None => "" end;
     offset := O |}.

(** The bytes of a file after [p] was written at the offset [off]: a gap
    between the end of the file and the offset reads as zero bytes. *)
Fixpoint overwrite (off : nat) (p s : string) : string :=
  match off with
  | O => p ++ drop (String.length p) s
  | S off' =>
      match s with
      | String c r => String c (overwrite off' p r)
      | EmptyString => String zero (overwrite off' p "")
      end
  end.

(** [Write] on that file, as long as the writes succeed: all of [p] is
    written at the offset, which moves behind it. *)
Definition output_file : Sink :=
  {| sink_state := file;
     sink_write := fun f p =>
       (String.length p, None,
        {| content := overwrite (offset f) p (content f);
           offset := offset f + String.length p |}) |}.

(** Two values are the same document: the same scalar; arrays of the
    same documents in the same order; maps with the same keys and the
    same document under each key. *)
Inductive same_document : value -> value -> Prop :=
| same_scalar (v : value) :
    scalar v = true -> same_document v v
| same_array (a b : list value) :
    Forall2 same_document a b -> same_document (Array a) (Array b)
| same_object (m n : list (string * value)) :
    Permutation (map fst m) (map fst n) ->
    (forall k x, lookup k m = Some x ->
                 exists y, lookup k n = Some y /\ same_document x y) ->
    same_document (Object m) (Object n).

(** A line that starts with [n] spaces. *)
Definition indented (n : nat) (l : string) : Prop :=
  exists t, l = spaces n ++ t.

(** The bracket that opens the rendering of a compound value. *)
Definition opener (v : value) : string :=
  match v with
  | Object _ => "{"
  | _ => "["
  end.

(** The decoder reads [x'] from the text [i] written for an element of
    [a], behind white space. *)
Definition element_written {D : Decoder} (a : list value) (x' : value)
    (i : string) : Prop :=
  exists x w d,
    In x a /\ i = w ++ d /\ all_ws w = true /\ starts_value d /\
    forall f rest, (steps x <= f)%nat -> ends_number rest ->
                   parse_value f (d ++ rest) = Some (x', rest).

(** The decoder reads the entry [kv] from the text [i] written for an
    entry of [m], behind white space. *)
Definition member_written {D : Decoder} (m : list (string * value))
    (kv : string * value) (i : string) : Prop :=
  exists x w q body d,
    In (fst kv, x) m /\ i = w ++ String q body ++ ": " ++ d /\
    all_ws w = true /\ N_of_ascii q = 34%N /\
    scan_string body = Some (body, "") /\
    unquote (String q body) = Some (fst kv) /\
    forall f rest, (steps x <= f)%nat -> ends_number rest ->
                   parse_value f (d ++ rest) = Some (snd kv, rest).

(** A piece of text with white space in front of it. *)
Definition padded (i p : string) : Prop :=
  exists w, all_ws w = true /\ p = w ++ i.

(** ** Basic facts: integers, texts, lines *)

Lemma wrap_id (z : Z) : GoInt.in_range z -> GoInt.wrap z = z.
Proof.
  unfold GoInt.in_range, GoInt.wrap. intros H.
  rewrite Z.mod_small by lia. lia.
Qed.

Lemma of_uint_id (u : Z) : 0 <= u < 2 ^ 63 -> GoInt.of_uint u = u.
Proof.
  intros H. apply wrap_id. unfold GoInt.in_range. lia.
Qed.

Lemma len_nonneg (s : string) : 0 <= len s.
Proof. unfold len. lia. Qed.

Lemma length_app (a b : string) :
  String.length (a ++ b) = (String.length a + String.length b)%nat.
Proof.
  induction a as [|c a IH]; simpl; [reflexivity | now rewrite IH].
Qed.

Lemma len_app (a b : string) : len (a ++ b) = len a + len b.
Proof. unfold len. rewrite length_app. lia. Qed.

Lemma app_assoc_s (a b c : string) : (a ++ b) ++ c = a ++ b ++ c.
Proof.
  induction a as [|x a IH]; simpl; [reflexivity | now rewrite IH].
Qed.

Lemma app_empty_r (a : string) : a ++ "" = a.
Proof.
  induction a as [|x a IH]; simpl; [reflexivity | now rewrite IH].
Qed.

Lemma length_spaces (n : nat) : String.length (spaces n) = n.
Proof. induction n; simpl; congruence. Qed.

Lemma len_spaces (z : Z) : 0 <= z -> len (spaces (Z.to_nat z)) = z.
Proof. intros H. unfold len. rewrite length_spaces. lia. Qed.

Lemma has_nl_app (a b : string) : has_nl (a ++ b) = has_nl a || has_nl b.
Proof.
  induction a as [|c a IH]; simpl; [reflexivity|].
  rewrite IH. now rewrite orb_assoc.
Qed.

Lemma has_nl_spaces (n : nat) : has_nl (spaces n) = false.
Proof. induction n; simpl; auto. Qed.

Lemma has_nl_nl : has_nl nl = true.
Proof. reflexivity. Qed.

Lemma Join_cons2 (x y : string) (l : list string) (sep : string) :
  Join (x :: y :: l) sep = x ++ sep ++ Join (y :: l) sep.
Proof. reflexivity. Qed.

Lemma Join_app_last (l : list string) (x sep : string) :
  l <> [] -> Join (l ++ [x])%list sep = Join l sep ++ sep ++ x.
Proof.
  induction l as [|y l IH]; intros Hne; [congruence|].
  destruct l as [|z l].
  - simpl. reflexivity.
  - change ((y :: z :: l) ++ [x])%list with (y :: (z :: l) ++ [x])%list.
    change ((z :: l) ++ [x])%list with (z :: (l ++ [x]))%list.
    rewrite Join_cons2.
    change (z :: (l ++ [x]))%list with ((z :: l) ++ [x])%list.
    rewrite IH by discriminate.
    rewrite Join_cons2. now rewrite !app_assoc_s.
Qed.

(** A text joined with commas has a line break only if a piece has. *)
Lemma has_nl_Join_comma (l : list string) :
  has_nl (Join l ", ") = existsb has_nl l.
Proof.
  induction l as [|x l IH]; [reflexivity|].
  destruct l as [|y l].
  - simpl. now rewrite orb_false_r.
  - rewrite Join_cons2, !has_nl_app, IH. reflexivity.
Qed.

(** A block of two pieces or more has a line break. *)
Lemma has_nl_Join_nl (x y : string) (l : list string) :
  has_nl (Join (x :: y :: l) nl) = true.
Proof.
  rewrite Join_cons2, !has_nl_app, has_nl_nl.
  now rewrite orb_true_r.
Qed.

Lemma bind_Ok {A B : Type} (r : result A) (k : A -> result B) (b : B) :
  bind r k = Ok b -> exists a, r = Ok a /\ k a = Ok b.
Proof.
  destruct r as [a|e]; simpl; intros H; [eauto | discriminate].
Qed.

Lemma Ok_inj {A : Type} (a b : A) : Ok a = Ok b -> a = b.
Proof. now intros [= ->]. Qed.

Lemma lookup_map {A B : Type} (f : A -> B) (k : string)
    (m : list (string * A)) :
  lookup k (map (fun kv => (fst kv, f (snd kv))) m) = option_map f (lookup k m).
Proof.
  induction m as [|[k' a] m IH]; simpl; [reflexivity|].
  destruct (String.eqb k k'); [reflexivity | exact IH].
Qed.

(** ** [strings.Repeat] *)

Section RepeatFacts.

Context {E : Env}.

Lemma Repeat_space_inv (count : Z) (sp : string) :
  Repeat_space count = Ok sp -> sp = spaces (Z.to_nat count).
Proof.
  unfold Repeat_space. destruct (count <? 0); [discriminate|].
  destruct ((1 <? count) && (repeat_max <? count)); [discriminate|].
  now intros [= <-].
Qed.

Lemma Repeat_space_nonneg (count : Z) (sp : string) :
  Repeat_space count = Ok sp -> 0 <= count.
Proof.
  unfold Repeat_space. destruct (Z.ltb_spec count 0); [discriminate | lia].
Qed.

Lemma Repeat_space_Ok (count : Z) :
  0 <= count -> count <= repeat_max ->
  Repeat_space count = Ok (spaces (Z.to_nat count)).
Proof.
  intros H Hmax. unfold Repeat_space.
  destruct (Z.ltb_spec count 0); [lia|].
  destruct (Z.ltb_spec repeat_max count); [lia|].
  now rewrite andb_false_r.
Qed.

Lemma Repeat_space_zero : Repeat_space 0 = Ok "".
Proof. reflexivity. Qed.

Lemma Repeat_space_Err (count : Z) (e : failure) :
  Repeat_space count = Err e -> repeat_panic e.
Proof.
  unfold Repeat_space, repeat_panic. destruct (count <? 0).
  - intros [= <-]. now left.
  - destruct ((1 <? count) && (repeat_max <? count)); [|discriminate].
    intros [= <-]. now right.
Qed.


End RepeatFacts.

(** ** The loops of the source, as maps over their items *)

Section Loops.

Context {E : Env}.

Lemma formatArrayOneLine_eq (rec : value -> result string) (a : list value) :
  formatArrayOneLine rec a =
  (ds <- mapM rec a ;; Ok ("[" ++ Join ds ", " ++ "]")).
Proof.
  unfold formatArrayOneLine.
  enough (G : forall bits,
    (fix loop (a : list value) (bits : list string) : result string :=
       match a with
       | [] => Ok ("[" ++ Join bits ", " ++ "]")
       | v :: a' => d <- rec v ;; loop a' (append bits d)
       end) a bits =
    (ds <- mapM rec a ;; Ok ("[" ++ Join (bits ++ ds)%list ", " ++ "]"))).
  { rewrite G. reflexivity. }
  induction a as [|v a IH]; intros bits.
  - simpl. now rewrite app_nil_r.
  - simpl. destruct (rec v) as [d|e]; simpl; [|reflexivity].
    rewrite IH. unfold append.
    destruct (mapM rec a) as [ds|e]; simpl; [|reflexivity].
    now rewrite <- app_assoc.
Qed.

Lemma objectOneLine_loop_eq (vals : list (string * result string))
    (keys : list string) (bits : list string) :
  objectOneLine_loop vals keys bits =
  (ds <- mapM (oneline_entry vals) keys ;;
   Ok ("{" ++ Join (bits ++ ds)%list ", " ++ "}")).
Proof.
  revert bits. induction keys as [|k keys IH]; intros bits.
  - simpl. now rewrite app_nil_r.
  - simpl. unfold oneline_entry at 1, entry_or_null at 1.
    destruct (match lookup k vals with Some r => r | None => Ok "null" end)
      as [d|e]; simpl; [|reflexivity].
    rewrite IH. unfold append.
    destruct (mapM (oneline_entry vals) keys) as [ds|e]; simpl; [|reflexivity].
    now rewrite <- app_assoc.
Qed.

Lemma formatObjectOneLine_eq (rec : value -> result string)
    (m : list (string * value)) :
  formatObjectOneLine rec m =
  (ds <- mapM (oneline_entry (each_entry (fun _ v => rec v) m))
              (keys_of range_oneline m) ;;
   Ok ("{" ++ Join ds ", " ++ "}")).
Proof.
  unfold formatObjectOneLine.
  replace ((fix each (m0 : list (string * value))
              : list (string * result string) :=
              match m0 with
              | [] => []
              | (k, v) :: m' => (k, rec v) :: each m'
              end) m)
    with (each_entry (fun _ v => rec v) m).
  - now rewrite objectOneLine_loop_eq.
  - unfold each_entry. induction m as [|[k v] m IH]; simpl; congruence.
Qed.

Lemma with_commas_cons (x y : string) (l : list string) :
  with_commas (x :: y :: l) = (x ++ ",") :: with_commas (y :: l).
Proof. reflexivity. Qed.

Lemma mapM_length {A B : Type} (f : A -> result B) (l : list A) (ys : list B) :
  mapM f l = Ok ys -> List.length ys = List.length l.
Proof.
  revert ys. induction l as [|x l IH]; simpl; intros ys H.
  - injection H as <-. reflexivity.
  - destruct (f x) as [y|]; simpl in H; [|discriminate].
    destruct (mapM f l) as [ys'|]; simpl in H; [|discriminate].
    injection H as <-. simpl. now rewrite (IH ys').
Qed.

Lemma formatArray_eq (rec : value -> Z -> Z -> Z -> result string)
    (a : list value) (width level : Z) :
  formatArray rec a width level =
  (items <- mapM (array_item rec width level) a ;;
   last <- closing level "]" ;;
   Ok (Join ("[" :: with_commas items ++ [last])%list nl)).
Proof.
  unfold formatArray.
  set (j := Z.of_nat (List.length a)).
  enough (G : forall a' i bits,
    i + Z.of_nat (List.length a') = j -> 0 <= i ->
    (fix loop (a : list value) (i : Z) (bits : list string) : result string :=
       match a with
       | [] =>
           sp <- Repeat_space (GoInt.mul level (GoInt.of_uint indent)) ;;
           Ok (Join (append bits (sp ++ "]")) nl)
       | v :: a' =>
           d <- rec v width (GoInt.add level 1) 0 ;;
           let suffix := if i <? j - 1 then "," else "" in
           sp <- Repeat_space
                   (GoInt.mul (GoInt.add level 1) (GoInt.of_uint indent)) ;;
           loop a' (i + 1) (append bits (sp ++ d ++ suffix))
       end) a' i bits =
    (items <- mapM (array_item rec width level) a' ;;
     last <- closing level "]" ;;
     Ok (Join (bits ++ with_commas items ++ [last])%list nl))).
  { apply (G a 0 ["["]); lia. }
  induction a' as [|v a' IH]; intros i bits Hi Hi0.
  - simpl. unfold closing.
    destruct (Repeat_space (GoInt.mul level (GoInt.of_uint indent)));
      reflexivity.
  - cbn [mapM]. unfold array_item at 1.
    destruct (rec v width (GoInt.add level 1) 0) as [d|e]; simpl bind;
      [|reflexivity].
    destruct (Repeat_space (GoInt.mul (GoInt.add level 1) (GoInt.of_uint indent)))
      as [sp|e]; simpl bind; [|reflexivity].
    cbn [List.length] in Hi.
    rewrite IH by lia.
    destruct (mapM (array_item rec width level) a') as [items|e] eqn:Hm;
      simpl bind; [|reflexivity].
    destruct (closing level "]") as [last|e]; simpl bind; [|reflexivity].
    f_equal. f_equal. unfold append. rewrite <- app_assoc. f_equal.
    apply mapM_length in Hm.
    destruct items as [|y items].
    + destruct a'; [|discriminate]. simpl in Hi. cbv zeta.
      destruct (Z.ltb_spec i (j - 1)); [lia|].
      simpl. now rewrite app_empty_r.
    + destruct a' as [|v' a']; [discriminate|]. cbv zeta.
      cbn [List.length] in Hi.
      destruct (Z.ltb_spec i (j - 1)); [|lia].
      rewrite app_assoc_s. reflexivity.
Qed.

Lemma object_loop_eq (vals : list (string * result string))
    (level j : Z) (keys : list string) (i : Z) (bits : list string) :
  i + Z.of_nat (List.length keys) = j -> 0 <= i ->
  object_loop vals level j keys i bits =
  (items <- mapM (object_item vals level) keys ;;
   last <- closing level "}" ;;
   Ok (Join (bits ++ with_commas items ++ [last])%list nl)).
Proof.
  revert i bits. induction keys as [|k keys IH]; intros i bits Hi Hi0.
  - simpl. unfold closing.
    destruct (Repeat_space (GoInt.mul level (GoInt.of_uint indent)));
      reflexivity.
  - cbn [mapM object_loop]. unfold object_item at 1, entry_or_null at 1.
    destruct (match lookup k vals with Some r => r | None => Ok "null" end)
      as [d|e]; simpl bind; [|reflexivity].
    destruct (Repeat_space (GoInt.mul (GoInt.add level 1) (GoInt.of_uint indent)))
      as [sp|e]; simpl bind; [|reflexivity].
    cbn [List.length] in Hi.
    rewrite IH by lia.
    destruct (mapM (object_item vals level) keys) as [items|e] eqn:Hm;
      simpl bind; [|reflexivity].
    destruct (closing level "}") as [last|e]; simpl bind; [|reflexivity].
    f_equal. f_equal. unfold append. rewrite <- app_assoc. f_equal.
    apply mapM_length in Hm.
    destruct items as [|y items].
    + destruct keys; [|discriminate]. simpl in Hi.
      destruct (Z.ltb_spec i (j - 1)); [lia|].
      simpl. now rewrite app_empty_r.
    + destruct keys as [|k' keys]; [discriminate|].
      cbn [List.length] in Hi.
      destruct (Z.ltb_spec i (j - 1)); [|lia].
      simpl. now rewrite !app_assoc_s.
Qed.

Lemma formatObject_eq (rec : value -> Z -> Z -> Z -> result string)
    (m : list (string * value)) (width level : Z) :
  List.length (keys_of range_block m) = List.length m ->
  formatObject rec m width level =
  (items <- mapM (object_item (block_vals rec m width level) level)
                 (keys_of range_block m) ;;
   last <- closing level "}" ;;
   Ok (Join ("{" :: with_commas items ++ [last])%list nl)).
Proof.
  intros Hlen. unfold formatObject. cbv zeta.
  match goal with
  | |- object_loop ?vals _ _ _ _ _ = _ =>
      assert (Hv : vals = block_vals rec m width level)
  end.
  { clear Hlen. unfold block_vals, each_entry.
    induction m as [|[k v] m IH]; [reflexivity|].
    cbn [map fst snd]. rewrite <- IH. reflexivity. }
  rewrite Hv, object_loop_eq by lia. reflexivity.
Qed.

End Loops.

(** ** The one-line form *)

Section OneLineFacts.

Context {E : Env}.

Hypothesis marshal_string_one_line : forall s, has_nl (marshal_string s) = false.
Hypothesis marshal_float_one_line : forall f, has_nl (marshal_float f) = false.

Lemma mapM_Forall_no_nl {A : Type} (f : A -> result string) (l : list A)
    (ds : list string) :
  Forall (fun x => forall d, f x = Ok d -> has_nl d = false) l ->
  mapM f l = Ok ds -> existsb has_nl ds = false.
Proof.
  intros HF. revert ds. induction HF as [|x l Hx HF IH]; intros ds H.
  - simpl in H. injection H as <-. reflexivity.
  - simpl in H. apply bind_Ok in H as (d & Hd & H).
    apply bind_Ok in H as (ds' & Hds & H). injection H as <-.
    simpl. rewrite (Hx d Hd), (IH ds' Hds). reflexivity.
Qed.

(** The one-line form has no line break in it. *)
Lemma formatOneLine_one_line (v : value) (d : string) :
  formatOneLine v = Ok d -> has_nl d = false.
Proof.
  revert d.
  induction v as [ | b | f | s | a IHa | m IHm | ty ] using value_induction;
    intros d H; simpl in H.
  - injection H as <-. reflexivity.
  - injection H as <-. destruct b; reflexivity.
  - injection H as <-. apply marshal_float_one_line.
  - injection H as <-. apply marshal_string_one_line.
  - rewrite formatArrayOneLine_eq in H.
    apply bind_Ok in H as (ds & Hds & H). injection H as <-.
    simpl. rewrite has_nl_app, has_nl_Join_comma.
    rewrite (mapM_Forall_no_nl _ _ _ IHa Hds). reflexivity.
  - rewrite formatObjectOneLine_eq in H.
    apply bind_Ok in H as (ds & Hds & H). injection H as <-.
    simpl. rewrite has_nl_app, has_nl_Join_comma.
    erewrite mapM_Forall_no_nl; [reflexivity | | exact Hds].
    apply Forall_forall. intros k _ d Hd.
    unfold oneline_entry in Hd. apply bind_Ok in Hd as (d' & Hd' & Hd).
    injection Hd as <-.
    rewrite !has_nl_app, marshal_string_one_line. simpl.
    unfold entry_or_null, each_entry in Hd'. rewrite lookup_map in Hd'.
    destruct (lookup k m) as [x|] eqn:Hk; simpl in Hd'.
    + assert (Hin : In x (map snd m)).
      { clear -Hk. induction m as [|[k' y] m IH]; simpl in *; [discriminate|].
        destruct (String.eqb k k'); [injection Hk as ->; auto | auto]. }
      rewrite Forall_forall in IHm.
      apply in_map_iff in Hin as ([k' y] & <- & Hin).
      exact (IHm _ Hin d' Hd').
    + injection Hd' as <-. reflexivity.
  - discriminate.
Qed.

End OneLineFacts.

(** ** Lines of a text *)

Lemma lines_not_nil (s : string) : lines s <> [].
Proof.
  destruct s as [|c s]; simpl; [discriminate|].
  destruct (Ascii.eqb c newline); [discriminate|].
  destruct (lines s); discriminate.
Qed.

Lemma lines_one_line (s : string) : has_nl s = false -> lines s = [s].
Proof.
  induction s as [|c s IH]; simpl; intros H; [reflexivity|].
  apply orb_false_iff in H as [Hc Hs]. rewrite Hc, (IH Hs). reflexivity.
Qed.

Lemma lines_app_nl (a b : string) : lines (a ++ nl ++ b) = (lines a ++ lines b)%list.
Proof.
  induction a as [|c a IH]; [reflexivity|].
  change (String c a ++ nl ++ b) with (String c (a ++ nl ++ b)).
  cbn [lines]. rewrite IH.
  destruct (Ascii.eqb c newline); [reflexivity|].
  destruct (lines a) as [|l ls] eqn:Hl; [now apply lines_not_nil in Hl|].
  reflexivity.
Qed.

Lemma last_lines_app_nl (a b : string) :
  has_nl b = false -> last (lines (a ++ nl ++ b)) "" = b.
Proof.
  intros Hb. rewrite lines_app_nl, (lines_one_line b Hb).
  apply last_last.
Qed.

Lemma lines_app_l (a b : string) :
  has_nl a = false ->
  lines (a ++ b) =
  match lines b with
  | h :: t => (a ++ h) :: t
  | [] => [a]
  end.
Proof.
  induction a as [|c a IH]; intros H.
  - simpl. destruct (lines b) eqn:Hb; [now apply lines_not_nil in Hb|].
    reflexivity.
  - simpl in H. apply orb_false_iff in H as [Hc Ha].
    change (String c a ++ b) with (String c (a ++ b)).
    cbn [lines]. rewrite Hc, (IH Ha).
    destruct (lines b); reflexivity.
Qed.

Lemma lines_snoc (a b : string) (pre : list string) (x : string) :
  has_nl b = false ->
  lines a = (pre ++ [x])%list ->
  lines (a ++ b) = (pre ++ [(x ++ b)%string])%list.
Proof.
  intros Hb. revert pre x. induction a as [|c a IH]; intros pre x Ha.
  - simpl in Ha. destruct pre as [|y [|z pre]]; try discriminate.
    injection Ha as <-. simpl. now apply lines_one_line.
  - change (String c a ++ b) with (String c (a ++ b)).
    cbn [lines] in *.
    destruct (Ascii.eqb c newline).
    + destruct pre as [|y pre].
      * injection Ha as _ Ha. now apply lines_not_nil in Ha.
      * injection Ha as <- Ha. rewrite (IH _ _ Ha). reflexivity.
    + destruct (lines a) as [|l ls] eqn:Hl; [now apply lines_not_nil in Hl|].
      destruct pre as [|y pre].
      * injection Ha as <- ->. rewrite (IH [] l eq_refl). reflexivity.
      * injection Ha as <- ->. rewrite (IH (l :: pre) x eq_refl). reflexivity.
Qed.

Lemma lines_Join (x : string) (l : list string) :
  lines (Join (x :: l) nl) = List.concat (map lines (x :: l)).
Proof.
  revert x. induction l as [|y l IH]; intros x.
  - simpl. now rewrite app_nil_r.
  - rewrite Join_cons2, lines_app_nl, IH. reflexivity.
Qed.

(** ** The block form: its line breaks and its last line *)

Section BlockShape.

Context {E : Env}.

Lemma Join_block_has_nl (x y : string) (l : list string) :
  has_nl (Join (x :: l ++ [y])%list nl) = true.
Proof.
  destruct l as [|z l]; apply has_nl_Join_nl.
Qed.

Lemma Join_block_last (x y : string) (l : list string) :
  Join (x :: l ++ [y])%list nl = Join (x :: l) nl ++ nl ++ y.
Proof.
  change (x :: l ++ [y])%list with ((x :: l) ++ [y])%list.
  apply Join_app_last. discriminate.
Qed.

Lemma formatArray_shape (rec : value -> Z -> Z -> Z -> result string)
    (a : list value) (width level : Z) (out : string) :
  formatArray rec a width level = Ok out ->
  exists items sp,
    mapM (array_item rec width level) a = Ok items /\
    Repeat_space (GoInt.mul level (GoInt.of_uint indent)) = Ok sp /\
    out = Join ("[" :: with_commas items) nl ++ nl ++ sp ++ "]".
Proof.
  rewrite formatArray_eq. intros H.
  apply bind_Ok in H as (items & Hitems & H).
  apply bind_Ok in H as (last & Hlast & H).
  unfold closing in Hlast. apply bind_Ok in Hlast as (sp & Hsp & Hlast).
  injection Hlast as <-. injection H as <-.
  exists items, sp. repeat split; auto. apply Join_block_last.
Qed.

Lemma object_loop_shape (vals : list (string * result string))
    (level j : Z) (keys : list string) (i : Z) (bits : list string)
    (out : string) :
  bits <> [] ->
  object_loop vals level j keys i bits = Ok out ->
  exists body sp,
    Repeat_space (GoInt.mul level (GoInt.of_uint indent)) = Ok sp /\
    out = body ++ nl ++ sp ++ "}".
Proof.
  revert i bits. induction keys as [|k keys IH]; intros i bits Hne H.
  - simpl in H. apply bind_Ok in H as (sp & Hsp & H). injection H as <-.
    exists (Join bits nl), sp. split; [exact Hsp|].
    unfold append. now apply Join_app_last.
  - simpl in H. apply bind_Ok in H as (d & _ & H).
    apply bind_Ok in H as (sp & _ & H).
    apply IH in H; [exact H|]. unfold append. now destruct bits.
Qed.

Lemma block_form_shape (v : value) (width level : Z) (out : string) :
  compound v = true ->
  block_form v width level = Ok out ->
  exists body,
    Repeat_space (GoInt.mul level (GoInt.of_uint indent)) =
      Ok (spaces (Z.to_nat (GoInt.mul level (GoInt.of_uint indent)))) /\
    out = body ++ nl ++
          spaces (Z.to_nat (GoInt.mul level (GoInt.of_uint indent))) ++ closer v.
Proof.
  intros Hc H.
  assert (G : exists body sp,
             Repeat_space (GoInt.mul level (GoInt.of_uint indent)) = Ok sp /\
             out = body ++ nl ++ sp ++ closer v).
  { destruct v; try discriminate; simpl in H.
    - apply formatArray_shape in H as (items & sp & _ & Hsp & ->). eauto.
    - unfold formatObject in H.
      apply object_loop_shape in H; [exact H | discriminate]. }
  destruct G as (body & sp & Hsp & ->). exists body.
  pose proof (Repeat_space_inv _ _ Hsp) as ->. auto.
Qed.

Lemma block_form_has_nl (v : value) (width level : Z) (out : string) :
  compound v = true -> block_form v width level = Ok out -> has_nl out = true.
Proof.
  intros Hc H. apply block_form_shape in H as (body & _ & ->); [|exact Hc].
  rewrite !has_nl_app, has_nl_nl. now rewrite orb_true_r.
Qed.

End BlockShape.

(** ** One line or a block *)

Section Decision.

Context {E : Env}.

(** Where nothing wraps around, the width test is the inequality it
    reads as. *)
Lemma fits_spec (width level additional : Z) (d : string) :
  0 <= indent < 2 ^ 63 ->
  GoInt.in_range (level * indent) ->
  GoInt.in_range (level * indent + additional) ->
  GoInt.in_range (level * indent + additional + len d) ->
  fits width level additional d = true <->
  level * indent + additional + len d <= width.
Proof.
  intros Hi H1 H2 H3. unfold fits, GoInt.add, GoInt.mul.
  rewrite (of_uint_id _ Hi), (wrap_id _ H1), (wrap_id _ H2), (wrap_id _ H3).
  apply Z.leb_le.
Qed.

Lemma formatIndent_compound (v : value) (width level additional : Z) :
  compound v = true ->
  formatIndent v width level additional =
  (d <- formatOneLine v ;;
   if fits width level additional d then Ok d else block_form v width level).
Proof.
  destruct v; try discriminate; reflexivity.
Qed.

(** C3. An array or an object whose one-line candidate is [d] is
    rendered, at nesting level [level] with [additional] characters
    already on the line, as [d] itself, which has no line break in it,
    exactly when [level*indent + additional + len(d) <= width] (the test
    [fits], which computes this sum in Go's [int]); otherwise it is
    rendered in the block form, which always has a line break.  The last
    part reads the test as the inequality over the integers where no
    intermediate result leaves the range of [int]. *)
Theorem formatIndent_one_line_iff_fits
    (v : value) (width level additional : Z) (d : string) :
  (forall s, has_nl (marshal_string s) = false) ->
  (forall f, has_nl (marshal_float f) = false) ->
  compound v = true ->
  formatOneLine v = Ok d ->
  has_nl d = false /\
  (formatIndent v width level additional = Ok d <->
   fits width level additional d = true) /\
  (fits width level additional d = false ->
   formatIndent v width level additional = block_form v width level /\
   forall out, block_form v width level = Ok out -> has_nl out = true) /\
  (0 <= indent < 2 ^ 63 ->
   GoInt.in_range (level * indent) ->
   GoInt.in_range (level * indent + additional) ->
   GoInt.in_range (level * indent + additional + len d) ->
   (fits width level additional d = true <->
    level * indent + additional + len d <= width)).
Proof.
  intros Hs Hf Hc Hd.
  assert (Hnl : has_nl d = false)
    by exact (formatOneLine_one_line Hs Hf v d Hd).
  pose proof (formatIndent_compound v width level additional Hc) as Heq.
  rewrite Hd in Heq. simpl in Heq.
  repeat split.
  - exact Hnl.
  - intros H. rewrite Heq in H.
    destruct (fits width level additional d); [reflexivity|].
    apply block_form_has_nl in H; [congruence | exact Hc].
  - intros H. rewrite Heq, H. reflexivity.
  - rewrite Heq, H. reflexivity.
  - intros out Hout. exact (block_form_has_nl v width level out Hc Hout).
  - now apply fits_spec.
  - now apply fits_spec.
Qed.

(** C8. The last line of the block form of a compound value rendered at
    nesting level [level] is the closing bracket behind exactly
    [level*indent] spaces (the product as Go's [int] computes it), the
    level of the block itself and not the level [level+1] of its
    items. *)
Theorem closing_bracket_indent (v : value) (width level : Z) (out : string) :
  compound v = true ->
  block_form v width level = Ok out ->
  let n := Z.to_nat (GoInt.mul level (GoInt.of_uint indent)) in
  0 <= GoInt.mul level (GoInt.of_uint indent) /\
  (exists body, out = body ++ nl ++ spaces n ++ closer v) /\
  last (lines out) "" = spaces n ++ closer v /\
  (0 <= indent < 2 ^ 63 -> GoInt.in_range (level * indent) ->
   n = Z.to_nat (level * indent)).
Proof.
  intros Hc H n.
  pose proof (block_form_shape v width level out Hc H) as (body & Hsp & ->).
  fold n in Hsp. fold n.
  repeat split.
  - exact (Repeat_space_nonneg _ _ Hsp).
  - now exists body.
  - apply last_lines_app_nl. rewrite has_nl_app, has_nl_spaces.
    now destruct v.
  - intros Hi Hr. unfold n, GoInt.mul.
    now rewrite (of_uint_id _ Hi), (wrap_id _ Hr).
Qed.

End Decision.

(** ** [sort.Strings] *)

Lemma insert_sorted_perm (k : string) (l : list string) :
  Permutation (insert_sorted k l) (k :: l).
Proof.
  induction l as [|x l IH]; simpl; [reflexivity|].
  destruct (string_leb k x); [reflexivity|].
  rewrite IH. apply perm_swap.
Qed.

Lemma sort_Strings_perm (l : list string) : Permutation (sort_Strings l) l.
Proof.
  induction l as [|k l IH]; simpl; [reflexivity|].
  rewrite insert_sorted_perm. now constructor.
Qed.

Lemma string_leb_total (a b : string) : string_leb a b = false -> string_leb b a = true.
Proof.
  revert b. induction a as [|x a IH]; intros [|y b]; simpl; try congruence.
  rewrite (N.compare_antisym (N_of_ascii x) (N_of_ascii y)).
  destruct (N.compare (N_of_ascii x) (N_of_ascii y)); simpl; auto; congruence.
Qed.

Lemma insert_sorted_sorted (k : string) (l : list string) :
  Sorted (fun a b => string_leb a b = true) l ->
  Sorted (fun a b => string_leb a b = true) (insert_sorted k l).
Proof.
  induction l as [|x l IH]; simpl; intros Hs.
  - repeat constructor.
  - destruct (string_leb k x) eqn:Hk.
    + constructor; [exact Hs | constructor; exact Hk].
    + inversion Hs as [|? ? Hs' Hhd]; subst.
      constructor; [now apply IH|].
      destruct l as [|y l]; simpl.
      * constructor. now apply string_leb_total.
      * destruct (string_leb k y).
        -- constructor. now apply string_leb_total.
        -- inversion Hhd; subst. now constructor.
Qed.

Lemma sort_Strings_sorted (l : list string) :
  Sorted (fun a b => string_leb a b = true) (sort_Strings l).
Proof.
  induction l as [|k l IH]; simpl; [constructor|].
  now apply insert_sorted_sorted.
Qed.

Section Keys.

Context {E : Env}.

Lemma keys_of_perm (range : list string -> list string)
    (m : list (string * value)) :
  (forall l, Permutation (range l) l) ->
  Permutation (keys_of range m) (map fst m).
Proof.
  intros Hr. unfold keys_of.
  destruct sortKeys; [rewrite sort_Strings_perm|]; apply Hr.
Qed.

Lemma keys_of_length (range : list string -> list string)
    (m : list (string * value)) :
  (forall l, Permutation (range l) l) ->
  List.length (keys_of range m) = List.length m.
Proof.
  intros Hr. rewrite (Permutation_length (keys_of_perm range m Hr)).
  apply length_map.
Qed.

End Keys.

Lemma lookup_each_entry {B : Type} (f : string -> value -> B) (k : string)
    (m : list (string * value)) :
  lookup k (each_entry f m) = option_map (f k) (lookup k m).
Proof.
  unfold each_entry.
  induction m as [|[k' a] m IH]; simpl; [reflexivity|].
  destruct (String.eqb_spec k k') as [->|]; [reflexivity | exact IH].
Qed.

Lemma mapM_ext {A B : Type} (f g : A -> result B) (l : list A) :
  (forall x, f x = g x) -> mapM f l = mapM g l.
Proof.
  intros H. induction l as [|x l IH]; simpl; [reflexivity|].
  now rewrite H, IH.
Qed.

(** ** What the block form passes down *)

Section Recursion.

Context {E : Env}.

(** C4. In the block form at nesting level [level], the value of the
    object entry with key [k] is rendered by a call of [formatIndent] at
    [level+1] with [additional] the length of the quoted key plus 2, and
    an array element by a call at [level+1] with [additional] 0; each
    result sits behind [(level+1)*indent] spaces, followed by a comma
    unless it is the last one. *)
Theorem block_recursion_arguments (width level : Z) :
  (forall l, Permutation (range_block l) l) ->
  (forall a,
     formatArray formatIndent a width level =
     (items <- mapM (fun v =>
                 d <- formatIndent v width (GoInt.add level 1) 0 ;;
                 sp <- Repeat_space
                         (GoInt.mul (GoInt.add level 1) (GoInt.of_uint indent)) ;;
                 Ok (sp ++ d)) a ;;
      last <- closing level "]" ;;
      Ok (Join ("[" :: with_commas items ++ [last])%list nl))) /\
  (forall m,
     formatObject formatIndent m width level =
     (items <- mapM (fun k =>
                 d <- match lookup k m with
                      | Some v =>
                          formatIndent v width (GoInt.add level 1)
                            (GoInt.add (len (marshal_string k)) 2)
                      | None => Ok "null"
                      end ;;
                 sp <- Repeat_space
                         (GoInt.mul (GoInt.add level 1) (GoInt.of_uint indent)) ;;
                 Ok (sp ++ marshal_string k ++ ": " ++ d))
              (keys_of range_block m) ;;
      last <- closing level "}" ;;
      Ok (Join ("{" :: with_commas items ++ [last])%list nl))).
Proof.
  intros Hperm. split.
  - intros a. apply formatArray_eq.
  - intros m. rewrite formatObject_eq by now apply keys_of_length.
    erewrite mapM_ext; [reflexivity|].
    intros k. unfold object_item, entry_or_null, block_vals.
    rewrite lookup_each_entry. now destruct (lookup k m).
Qed.

End Recursion.

(** ** Empty arrays and objects *)

Section Empty.

Context {E : Env}.

Lemma range_nil (range : list string -> list string) :
  (forall l, Permutation (range l) l) -> range [] = [].
Proof.
  intros H. apply Permutation_nil. symmetry. apply H.
Qed.

(** C7, as the code has it.  An empty array is rendered as [[]] and an
    empty object as [{}] when the two characters pass the width test
    [level*int( *indent) + additional + 2 <= width], which Go computes
    in its [int]; otherwise it is rendered as a block of two lines, the
    opening bracket and, behind [level*int( *indent)] spaces, the
    closing one, if [strings.Repeat] returns for that count: on a
    negative count, or on one that is more than the runtime can
    allocate, it panics.  Where [0 <= indent < 2^63], [0 <= level],
    [0 <= additional] and [level*indent + additional + 2 < 2^63],
    nothing wraps around: the test is the inequality over the integers
    and the count is [level*indent]. *)
Theorem empty_compound_format (width level additional : Z) :
  (forall l, Permutation (range_block l) l) ->
  (forall l, Permutation (range_oneline l) l) ->
  let count := GoInt.mul level (GoInt.of_uint indent) in
  formatIndent (Array []) width level additional =
    (if fits width level additional "[]" then Ok "[]"
     else sp <- Repeat_space count ;; Ok ("[" ++ nl ++ sp ++ "]")) /\
  formatIndent (Object []) width level additional =
    (if fits width level additional "{}" then Ok "{}"
     else sp <- Repeat_space count ;; Ok ("{" ++ nl ++ sp ++ "}")) /\
  (0 <= indent < 2 ^ 63 -> 0 <= level -> 0 <= additional ->
   level * indent + additional + 2 < 2 ^ 63 ->
   fits width level additional "[]" =
     (level * indent + additional + 2 <=? width) /\
   fits width level additional "{}" =
     (level * indent + additional + 2 <=? width) /\
   count = level * indent /\
   (level * indent <= repeat_max ->
    Repeat_space count = Ok (spaces (Z.to_nat (level * indent))))).
Proof.
  intros Hb Ho count. split; [|split].
  - cbn [formatIndent formatOneLine]. rewrite formatArrayOneLine_eq.
    cbn [mapM bind]. change ("[" ++ Join [] ", " ++ "]") with "[]".
    destruct (fits width level additional "[]"); [reflexivity|].
    rewrite formatArray_eq. cbn [mapM bind]. unfold closing.
    fold count. destruct (Repeat_space count); reflexivity.
  - cbn [formatIndent formatOneLine]. rewrite formatObjectOneLine_eq.
    unfold keys_of at 1. cbn [map]. rewrite (range_nil _ Ho).
    replace (if sortKeys then sort_Strings [] else []) with (@nil string)
      by now destruct sortKeys.
    cbn [mapM bind]. change ("{" ++ Join [] ", " ++ "}") with "{}".
    destruct (fits width level additional "{}"); [reflexivity|].
    rewrite formatObject_eq by now apply keys_of_length.
    unfold keys_of. cbn [map]. rewrite (range_nil _ Hb).
    replace (if sortKeys then sort_Strings [] else []) with (@nil string)
      by now destruct sortKeys.
    cbn [mapM bind]. unfold closing.
    fold count. destruct (Repeat_space count); reflexivity.
  - intros Hi Hl Ha Hr.
    assert (Hli : 0 <= level * indent) by nia.
    assert (Hmul : count = level * indent).
    { unfold count, GoInt.mul. rewrite (of_uint_id _ Hi).
      apply wrap_id. unfold GoInt.in_range. lia. }
    assert (Hfits : forall d, len d = 2 ->
              fits width level additional d =
              (level * indent + additional + 2 <=? width)).
    { intros d Hd. unfold fits. fold count. rewrite Hmul, Hd.
      unfold GoInt.add.
      rewrite !wrap_id; unfold GoInt.in_range; try lia.
      rewrite wrap_id; unfold GoInt.in_range; lia. }
    split; [now apply Hfits|]. split; [now apply Hfits|].
    split; [exact Hmul|].
    intros Hmax. rewrite Hmul. now apply Repeat_space_Ok.
Qed.

End Empty.

(** ** Totality on the closed variant set *)

Section Totality.

Context {E : Env}.

Lemma mapM_total {A B : Type} (f : A -> result B) (l : list A) :
  Forall (fun x => exists y, f x = Ok y) l -> exists ys, mapM f l = Ok ys.
Proof.
  induction 1 as [|x l [y Hy] _ [ys Hys]]; simpl.
  - now exists [].
  - rewrite Hy, Hys. simpl. now exists (y :: ys).
Qed.

Lemma lookup_In {A : Type} (k : string) (m : list (string * A)) (a : A) :
  lookup k m = Some a -> In (k, a) m.
Proof.
  induction m as [|[k' b] m IH]; simpl; [discriminate|].
  destruct (String.eqb_spec k k') as [->|].
  - intros [= ->]. now left.
  - intros H. right. now apply IH.
Qed.

Lemma closed_Array (a : list value) :
  closed (Array a) = true -> Forall (fun x => closed x = true) a.
Proof.
  simpl. intros H. apply Forall_forall. intros x Hx.
  rewrite forallb_forall in H. now apply H.
Qed.

Lemma closed_Object (m : list (string * value)) :
  closed (Object m) = true -> Forall (fun kv => closed (snd kv) = true) m.
Proof.
  simpl. intros H. apply Forall_forall. intros [k x] Hx.
  rewrite forallb_forall in H. exact (H _ Hx).
Qed.

(** The one-line form of a value of the closed variant set exists. *)
Lemma formatOneLine_total (v : value) :
  closed v = true -> exists d, formatOneLine v = Ok d.
Proof.
  induction v as [ | b | f | s | a IHa | m IHm | ty ] using value_induction;
    intros Hc; simpl; eauto.
  - rewrite formatArrayOneLine_eq.
    destruct (mapM_total formatOneLine a) as [ds Hds].
    + apply closed_Array in Hc. rewrite Forall_forall in *. auto.
    + rewrite Hds. simpl. eauto.
  - rewrite formatObjectOneLine_eq.
    destruct (mapM_total (oneline_entry (each_entry (fun _ v => formatOneLine v) m))
                (keys_of range_oneline m)) as [ds Hds].
    + apply Forall_forall. intros k _. unfold oneline_entry, entry_or_null.
      rewrite lookup_each_entry.
      destruct (lookup k m) as [x|] eqn:Hk; simpl; [|eauto].
      apply lookup_In in Hk. apply closed_Object in Hc.
      rewrite Forall_forall in *.
      destruct (IHm _ Hk (Hc _ Hk)) as [d Hd]. simpl in Hd. rewrite Hd.
      simpl. eauto.
    + rewrite Hds. simpl. eauto.
  - discriminate.
Qed.

Lemma depth_nonneg (v : value) : 0 <= depth v.
Proof.
  destruct v; cbn [depth]; try lia.
  - enough (0 <= fold_right (fun x acc => Z.max (depth x) acc) 0 a) by lia.
    induction a; cbn [fold_right]; lia.
  - enough (0 <= fold_right
                   (fun kv acc => let '(_, x) := kv in Z.max (depth x) acc) 0 m)
      by lia.
    induction m as [|[k x] m IH]; cbn [fold_right]; lia.
Qed.

Lemma depth_compound_pos (v : value) : compound v = true -> 1 <= depth v.
Proof.
  destruct v; try discriminate; intros _; cbn [depth].
  - enough (0 <= fold_right (fun x acc => Z.max (depth x) acc) 0 a) by lia.
    induction a; cbn [fold_right]; lia.
  - enough (0 <= fold_right
                   (fun kv acc => let '(_, x) := kv in Z.max (depth x) acc) 0 m)
      by lia.
    induction m as [|[k x] m IH]; cbn [fold_right]; lia.
Qed.

Lemma depth_Array (a : list value) (x : value) :
  In x a -> depth x + 1 <= depth (Array a).
Proof.
  intros Hx. cbn [depth].
  enough (depth x <= fold_right (fun x acc => Z.max (depth x) acc) 0 a) by lia.
  induction a as [|y a IH]; cbn [fold_right]; [destruct Hx|].
  destruct Hx as [->|H]; [lia|]. specialize (IH H). lia.
Qed.

Lemma depth_Object (m : list (string * value)) (k : string) (x : value) :
  In (k, x) m -> depth x + 1 <= depth (Object m).
Proof.
  intros Hx. cbn [depth].
  enough (depth x <= fold_right
            (fun kv acc => let '(_, x) := kv in Z.max (depth x) acc) 0 m) by lia.
  induction m as [|[k' y] m IH]; cbn [fold_right]; [destruct Hx|].
  destruct Hx as [[= -> ->]|H]; [lia|]. specialize (IH H). lia.
Qed.


(** The indentation counts of a block at [level], where nothing wraps
    around. *)
Lemma block_counts (level bound : Z) :
  0 <= indent < 2 ^ 63 -> 0 <= level -> level + 1 <= bound ->
  bound < 2 ^ 63 -> bound * indent < 2 ^ 63 ->
  GoInt.add level 1 = level + 1 /\
  GoInt.mul (GoInt.add level 1) (GoInt.of_uint indent) = (level + 1) * indent /\
  GoInt.mul level (GoInt.of_uint indent) = level * indent /\
  0 <= level * indent <= (level + 1) * indent /\
  (level + 1) * indent <= bound * indent.
Proof.
  intros Hi Hl Hb Hb2 Hbi.
  assert (H1 : (level + 1) * indent <= bound * indent)
    by (apply Z.mul_le_mono_nonneg_r; lia).
  assert (Hadd : GoInt.add level 1 = level + 1).
  { apply wrap_id. unfold GoInt.in_range. lia. }
  split; [exact Hadd|]. split; [|split; [|split; [nia | exact H1]]].
  - unfold GoInt.mul. rewrite Hadd, (of_uint_id _ Hi).
    apply wrap_id. unfold GoInt.in_range. nia.
  - unfold GoInt.mul. rewrite (of_uint_id _ Hi).
    apply wrap_id. unfold GoInt.in_range. nia.
Qed.


End Totality.

(** ** The library model writes no line break *)

Module GoLibFacts.

Import GoLib.

Lemma escape_ascii_one_line (c : ascii) : has_nl (escape_ascii c) = false.
Proof.
  destruct c as [[] [] [] [] [] [] [] []]; reflexivity.
Qed.

Lemma between_high (lo hi : N) (c : ascii) :
  (128 <= lo)%N -> between lo hi c = true -> Ascii.eqb c newline = false.
Proof.
  intros Hlo H. unfold between in H. apply andb_true_iff in H as [H _].
  apply N.leb_le in H.
  destruct (Ascii.eqb_spec c newline) as [->|]; [|reflexivity].
  unfold byte_of in H. simpl in H. lia.
Qed.

Lemma high_not_newline (c : ascii) :
  (byte_of c <? 128)%N = false -> Ascii.eqb c newline = false.
Proof.
  intros H. apply N.ltb_ge in H.
  destruct (Ascii.eqb_spec c newline) as [->|]; [|reflexivity].
  unfold byte_of in H. simpl in H. lia.
Qed.

Lemma utf8_size_safe (c : ascii) (rest : string) (k : nat) :
  (byte_of c <? 128)%N = false ->
  utf8_size (String c rest) = S k -> safe_prefix k rest.
Proof.
  intros Hc. unfold utf8_size. rewrite Hc.
  destruct (byte_of c <? 194)%N; [discriminate|].
  destruct (byte_of c <? 224)%N.
  { destruct rest as [|c1 r1]; [discriminate|].
    destruct (between 128 191 c1) eqn:H1; [|discriminate].
    intros [= <-]. simpl. split; [|destruct r1; exact I].
    now apply (between_high 128 191). }
  destruct (byte_of c <? 240)%N.
  { destruct rest as [|c1 [|c2 r2]]; try discriminate.
    match goal with
    | |- (if between ?lo ?hi c1 && _ then _ else _) = _ -> _ =>
        destruct (between lo hi c1) eqn:H1; [|discriminate];
        assert (Hlo : (128 <= lo)%N)
          by (destruct (byte_of c =? 224)%N; lia)
    end.
    destruct (between 128 191 c2) eqn:H2; [|discriminate].
    intros [= <-]. simpl.
    split; [eapply between_high; eauto|].
    split; [now apply (between_high 128 191) | destruct r2; exact I]. }
  destruct (byte_of c <? 245)%N; [|discriminate].
  destruct rest as [|c1 [|c2 [|c3 r3]]]; try discriminate.
  match goal with
  | |- (if between ?lo ?hi c1 && _ && _ then _ else _) = _ -> _ =>
      destruct (between lo hi c1) eqn:H1; [|discriminate];
      assert (Hlo : (128 <= lo)%N)
        by (destruct (byte_of c =? 240)%N; lia)
  end.
  destruct (between 128 191 c2) eqn:H2; [|discriminate].
  destruct (between 128 191 c3) eqn:H3; [|discriminate].
  intros [= <-]. simpl.
  split; [eapply between_high; eauto|].
  split; [now apply (between_high 128 191)|].
  split; [now apply (between_high 128 191) | destruct r3; exact I].
Qed.

Lemma escape_from_one_line (s : string) (skip : nat) (copy : bool) :
  safe_prefix skip s -> has_nl (escape_from skip copy s) = false.
Proof.
  revert skip copy. induction s as [|c s IH]; intros skip copy Hs;
    [reflexivity|].
  destruct skip as [|k].
  - cbn [escape_from].
    destruct (byte_of c <? 128)%N eqn:Hc.
    + rewrite has_nl_app, escape_ascii_one_line. now apply IH.
    + destruct (utf8_size (String c s)) as [|k] eqn:Hsz.
      * rewrite has_nl_app. simpl. now apply IH.
      * pose proof (utf8_size_safe c s k Hc Hsz) as Hk.
        destruct (line_separator (String c s)) as [h|] eqn:Hh.
        -- assert (Hh' : h = "8"%char \/ h = "9"%char).
           { unfold line_separator in Hh.
             destruct s as [|c1 [|c2 r]]; try discriminate.
             destruct ((byte_of c =? 226) && (byte_of c1 =? 128))%N;
               [|discriminate].
             destruct (byte_of c2 =? 168)%N; [injection Hh; auto|].
             destruct (byte_of c2 =? 169)%N; [injection Hh; auto|discriminate]. }
           rewrite has_nl_app. cbn [has_nl].
           rewrite (IH k false Hk).
           destruct Hh' as [-> | ->]; reflexivity.
        -- cbn [has_nl]. rewrite (high_not_newline c Hc). now apply IH.
  - destruct Hs as [Hc Hs]. cbn [escape_from].
    destruct copy; [cbn [has_nl]; rewrite Hc|]; now apply IH.
Qed.

Lemma marshal_string_one_line (s : string) : has_nl (marshal_string s) = false.
Proof.
  unfold marshal_string.
  rewrite !has_nl_app, (escape_from_one_line s O true I). reflexivity.
Qed.

Lemma string_of_uint_one_line (u : Decimal.uint) :
  has_nl (NilEmpty.string_of_uint u) = false.
Proof. induction u; simpl; auto. Qed.

Lemma decimal_one_line (z : Z) : has_nl (decimal z) = false.
Proof.
  unfold decimal, NilZero.string_of_uint.
  destruct (N.to_uint (Z.to_N z)) eqn:Hu; try reflexivity;
    rewrite <- Hu; apply string_of_uint_one_line.
Qed.

Lemma sign_of_one_line (f : float64) : has_nl (sign_of f) = false.
Proof. unfold sign_of. now destruct (f_neg f). Qed.

Lemma sprintf_f_one_line (f : float64) : has_nl (sprintf_f f) = false.
Proof.
  unfold sprintf_f. now rewrite has_nl_app, sign_of_one_line, decimal_one_line.
Qed.

Lemma zeros_one_line (n : nat) : has_nl (zeros n) = false.
Proof. induction n; simpl; auto. Qed.

Lemma substring_one_line (s : string) (n m : nat) :
  has_nl s = false -> has_nl (substring n m s) = false.
Proof.
  revert n m. induction s as [|c s IH]; intros n m H.
  - destruct n, m; reflexivity.
  - simpl in H. apply orb_false_iff in H as [Hc Hs].
    destruct n; simpl.
    + destruct m; simpl; [reflexivity|]. rewrite Hc. now apply IH.
    + now apply IH.
Qed.

Lemma fmtF_one_line (ds : string) (dp : Z) :
  has_nl ds = false -> has_nl (fmtF ds dp) = false.
Proof.
  intros H. unfold fmtF.
  destruct (dp <=? 0); [|destruct (dp <? len ds)];
    rewrite ?has_nl_app, ?zeros_one_line, ?substring_one_line, ?H; auto.
Qed.

Lemma fmtE_one_line (ds : string) (dp : Z) :
  has_nl ds = false -> has_nl (fmtE ds dp) = false.
Proof.
  intros H. unfold fmtE.
  assert (Hm : has_nl match ds with
                      | EmptyString => "0"
                      | String c EmptyString => String c ""
                      | String c rest => String c ("." ++ rest)
                      end = false).
  { destruct ds as [|c [|c' r]]; simpl in *; auto. }
  destruct (dp - 1 <? 0); [|destruct (dp - 1 <? 10)];
    rewrite ?has_nl_app, ?decimal_one_line, Hm; auto.
Qed.

Lemma marshal_float_one_line (f : float64) : has_nl (marshal_float f) = false.
Proof.
  unfold marshal_float.
  destruct (f_mant f =? 0).
  - now rewrite has_nl_app, sign_of_one_line.
  - destruct (scale2 (f_mant f) 1 (f_exp f)) as [V D].
    destruct (shortest f) as [ds dp] eqn:Hs.
    assert (Hds : has_nl ds = false).
    { unfold shortest in Hs.
      destruct (normalize (f_mant f) (f_exp f)) as [m e].
      destruct (scale2 (4 * m) 1 (e - 2)) as [V' D'].
      destruct (scale2 (4 * m + 2) 1 (e - 2)) as [U' ?].
      destruct (scale2 _ 1 (e - 2)) as [L' ?].
      destruct (shortest_from _ _ _ _ _ _ _) as [q x].
      destruct (strip_zeros _ _ _) as [q' x'].
      injection Hs as <- _. apply decimal_one_line. }
    rewrite has_nl_app, sign_of_one_line. cbn [orb].
    destruct (_ || _); [now apply fmtE_one_line | now apply fmtF_one_line].
Qed.

(** *** Plain strings are read back as they were written *)

Lemma plain_char_facts (c : ascii) :
  plain_char c = true ->
  escape_ascii c = String c "" /\
  (byte_of c <? 128)%N = true /\
  (N_of_ascii c =? 34)%N = false /\
  (N_of_ascii c =? 92)%N = false /\
  (N_of_ascii c <? 32)%N = false /\
  is_char c 34 = false /\ is_char c 92 = false /\
  (byte_of c <? 32)%N = false.
Proof.
  destruct c as [[] [] [] [] [] [] [] []]; intros H; try discriminate H;
    repeat split; reflexivity.
Qed.

Lemma escape_from_plain (s : string) : plain s = true -> escape_from O true s = s.
Proof.
  induction s as [|c s IH]; [reflexivity|]. cbn [plain]. intros H.
  apply andb_true_iff in H as [Hc Hs].
  destruct (plain_char_facts c Hc) as (He & Hb & _).
  cbn [escape_from]. rewrite Hb, He, (IH Hs). reflexivity.
Qed.

Lemma scan_string_plain (s : string) :
  plain s = true -> scan_string (s ++ dquote) = Some (s ++ dquote, "").
Proof.
  induction s as [|c s IH]; [reflexivity|]. cbn [plain]. intros H.
  apply andb_true_iff in H as [Hc Hs].
  destruct (plain_char_facts c Hc) as (_ & _ & H34 & H92 & H32 & _).
  change (String c s ++ dquote) with (String c (s ++ dquote)).
  cbn [scan_string]. rewrite H34, H92, H32, (IH Hs). reflexivity.
Qed.

Lemma unquote_from_plain (s : string) :
  plain s = true -> unquote_from O (s ++ dquote) = Some s.
Proof.
  induction s as [|c s IH]; [reflexivity|]. cbn [plain]. intros H.
  apply andb_true_iff in H as [Hc Hs].
  destruct (plain_char_facts c Hc) as (_ & Hb & _ & _ & _ & H34 & H92 & H32).
  change (String c s ++ dquote) with (String c (s ++ dquote)).
  cbn [unquote_from]. rewrite H34, H92, H32, Hb, (IH Hs). reflexivity.
Qed.

End GoLibFacts.

(** In the library model every plain string is read back as it was
    written, whatever the flags and the order of the maps. *)
Lemma plain_string_round_trip (i : Z) (sk : bool)
    (rb ro : list string -> list string) (s : string) :
  plain s = true ->
  string_round_trip (E := go_env i sk rb ro) (D := go_decoder) s = true.
Proof.
  intros H. unfold string_round_trip.
  cbn [marshal_string go_env unquote go_decoder].
  unfold GoLib.marshal_string. rewrite (GoLibFacts.escape_from_plain s H).
  change (GoLib.dquote ++ s ++ GoLib.dquote)
    with (String (ascii_of_nat 34) (s ++ GoLib.dquote)).
  cbv iota beta.
  rewrite (GoLibFacts.scan_string_plain s H). cbn [GoLib.unquote].
  change (GoLib.is_char (ascii_of_nat 34) 34) with true. cbv iota.
  rewrite (GoLibFacts.unquote_from_plain s H).
  now rewrite !String.eqb_refl.
Qed.


(** ** The order of the keys *)

Section KeyOrder.

Context {E : Env}.

(** C5, as the code has it.  Both forms of an object are put together
    from its keys in one order, [keys_of]: a permutation of the keys of
    the map, which with [sort_keys] set is in non-decreasing byte-wise
    order of the raw keys, and which without it is the order in which
    the runtime's [range] walks the map (the map keeps no decode
    order). *)
Theorem object_key_order (m : list (string * value)) (width level : Z) :
  (forall l, Permutation (range_block l) l) ->
  (forall l, Permutation (range_oneline l) l) ->
  (formatOneLine (Object m) =
     (ds <- mapM (fun k =>
              d <- match lookup k m with
                   | Some v => formatOneLine v
                   | None => Ok "null"
                   end ;;
              Ok (marshal_string k ++ ": " ++ d))
           (keys_of range_oneline m) ;;
      Ok ("{" ++ Join ds ", " ++ "}"))) /\
  (block_form (Object m) width level =
     (items <- mapM (object_item (block_vals formatIndent m width level) level)
                 (keys_of range_block m) ;;
      last <- closing level "}" ;;
      Ok (Join ("{" :: with_commas items ++ [last])%list nl))) /\
  Permutation (keys_of range_oneline m) (map fst m) /\
  Permutation (keys_of range_block m) (map fst m) /\
  (sortKeys = true ->
   Sorted (fun a b => string_leb a b = true) (keys_of range_oneline m) /\
   Sorted (fun a b => string_leb a b = true) (keys_of range_block m)) /\
  (sortKeys = false ->
   keys_of range_oneline m = range_oneline (map fst m) /\
   keys_of range_block m = range_block (map fst m)).
Proof.
  intros Hb Ho. repeat split.
  - cbn [formatOneLine]. rewrite formatObjectOneLine_eq.
    erewrite mapM_ext; [reflexivity|].
    intros k. unfold oneline_entry, entry_or_null.
    rewrite lookup_each_entry. now destruct (lookup k m).
  - cbn [block_form]. apply formatObject_eq. now apply keys_of_length.
  - now apply keys_of_perm.
  - now apply keys_of_perm.
  - unfold keys_of. rewrite H. apply sort_Strings_sorted.
  - unfold keys_of. rewrite H. apply sort_Strings_sorted.
  - unfold keys_of. now rewrite H.
  - unfold keys_of. now rewrite H.
Qed.

End KeyOrder.

(** ** Numbers in the two renderers *)

Section Numbers.

Context {E : Env}.

(** A number on its own is written by ["%.f"], a number in a one-line
    array by [json.Marshal]. *)
Lemma number_renderers (f : float64) (width level additional : Z) :
  formatIndent (Number f) width level additional = Ok (sprintf_f f) /\
  formatOneLine (Array [Number f]) = Ok ("[" ++ marshal_float f ++ "]").
Proof. split; reflexivity. Qed.

End Numbers.

(** ** Writing to a sink *)

Section Writing.

Context {E : Env}.

(** A sink that takes all it is offered gets the text in one write. *)
Lemma encodeJSON_full_sink (v : value) (width : Z) (d : string) (fuel : nat) :
  formatIndent v width 0 0 = Ok d ->
  len d < 2 ^ 63 ->
  encodeJSON full_sink (S fuel) v width tt =
  Some (Ok tt, tt, if len d >? 0 then d else "").
Proof.
  intros Hd Hlen. unfold encodeJSON. rewrite Hd.
  cbn [write_loop]. destruct (Z.gtb_spec (len d) 0) as [Hpos|Hz];
    [|reflexivity].
  cbn [full_sink sink_write].
  assert (Ht : taken (String.length d) d = d).
  { unfold taken. clear. induction d as [|c d IH]; [reflexivity|].
    simpl. now rewrite IH. }
  rewrite Ht.
  assert (Hr : GoInt.sub (len d) (Z.of_nat (String.length d)) = 0).
  { unfold GoInt.sub, len. rewrite Z.sub_diag. reflexivity. }
  rewrite Hr. destruct fuel; reflexivity.
Qed.

(** An error of the sink is returned to the caller. *)
Lemma encodeJSON_write_error (K : Sink) (v : value) (width : Z) (d : string)
    (s s' : sink_state K) (n : nat) (msg : string) (fuel : nat) :
  formatIndent v width 0 0 = Ok d ->
  0 < len d ->
  sink_write K s d = (n, Some msg, s') ->
  encodeJSON K (S fuel) v width s = Some (Err (WriteError msg), s', taken n d).
Proof.
  intros Hd Hpos Hw. unfold encodeJSON. rewrite Hd.
  cbn [write_loop]. destruct (Z.gtb_spec (len d) 0); [|lia].
  rewrite Hw. reflexivity.
Qed.

(** After a write that took only [n] bytes of the text, the next write
    is offered the whole text again, and what it takes is delivered
    behind the [n] bytes. *)
Lemma write_loop_second_round (K : Sink) (d : string)
    (s s1 s2 : sink_state K) (n n2 : nat) (err : option string) (fuel : nat) :
  len d < 2 ^ 63 ->
  (n < String.length d)%nat ->
  sink_write K s d = (n, None, s1) ->
  sink_write K s1 d = (n2, err, s2) ->
  write_loop K (S (S fuel)) d (len d) s "" =
  match err with
  | Some msg => Some (Err (WriteError msg), s2, taken n d ++ taken n2 d)
  | None =>
      write_loop K fuel d (GoInt.sub (len d - Z.of_nat n) (Z.of_nat n2)) s2
        (taken n d ++ taken n2 d)
  end.
Proof.
  intros Hlen Hn Hw1 Hw2.
  assert (Hr : GoInt.sub (len d) (Z.of_nat n) = len d - Z.of_nat n).
  { apply wrap_id. unfold GoInt.in_range, len in *. lia. }
  cbn [write_loop].
  destruct (Z.gtb_spec (len d) 0); [|unfold len in *; lia].
  rewrite Hw1, Hr.
  destruct (Z.gtb_spec (len d - Z.of_nat n) 0); [|unfold len in *; lia].
  rewrite Hw2. reflexivity.
Qed.

End Writing.

(** ** The width of the lines *)

Lemma len_Join_In (l : list string) (sep x : string) :
  In x l -> len x <= len (Join l sep).
Proof.
  induction l as [|y l IH]; intros Hx; [destruct Hx|].
  destruct l as [|z l].
  - destruct Hx as [->|[]]. simpl. lia.
  - rewrite Join_cons2, !len_app.
    pose proof (len_nonneg sep). pose proof (len_nonneg y).
    pose proof (len_nonneg (Join (z :: l) sep)).
    destruct Hx as [->|Hx]; [lia|]. specialize (IH Hx). lia.
Qed.

Lemma mapM_In {A B : Type} (f : A -> result B) (l : list A) (ys : list B)
    (x : A) :
  mapM f l = Ok ys -> In x l -> exists y, f x = Ok y /\ In y ys.
Proof.
  revert ys. induction l as [|a l IH]; intros ys H Hx; [destruct Hx|].
  simpl in H. apply bind_Ok in H as (y & Hy & H).
  apply bind_Ok in H as (ys' & Hys & H). injection H as <-.
  destruct Hx as [->|Hx].
  - exists y. split; [exact Hy | now left].
  - destruct (IH ys' Hys Hx) as (y' & Hy' & Hin).
    exists y'. split; [exact Hy' | now right].
Qed.

Lemma mapM_In_inv {A B : Type} (f : A -> result B) (l : list A) (ys : list B)
    (y : B) :
  mapM f l = Ok ys -> In y ys -> exists x, In x l /\ f x = Ok y.
Proof.
  revert ys. induction l as [|a l IH]; intros ys H Hy.
  - simpl in H. injection H as <-. destruct Hy.
  - simpl in H. apply bind_Ok in H as (y0 & Hy0 & H).
    apply bind_Ok in H as (ys' & Hys & H). injection H as <-.
    destruct Hy as [<-|Hy].
    + exists a. split; [now left | exact Hy0].
    + destruct (IH ys' Hys Hy) as (x & Hx & Hfx).
      exists x. split; [now right | exact Hfx].
Qed.

Lemma with_commas_In (items : list string) (y : string) :
  In y (with_commas items) ->
  exists x suf, In x items /\ comma_or_none suf /\ y = x ++ suf.
Proof.
  induction items as [|x items IH]; intros Hy; [destruct Hy|].
  destruct items as [|z items].
  - destruct Hy as [<-|[]]. exists x, "".
    split; [now left|]. split; [now left | now rewrite app_empty_r].
  - rewrite with_commas_cons in Hy. destruct Hy as [<-|Hy].
    + exists x, ",". split; [now left|]. split; [now right | reflexivity].
    + destruct (IH Hy) as (x' & suf & Hin & Hsuf & ->).
      exists x', suf. split; [now right | auto].
Qed.

Section Candidates.

Context {E : Env}.

(** The one-line form of an array holds the one-line forms of its
    elements. *)
Lemma candidate_Array (a : list value) (c : string) (x : value) :
  formatOneLine (Array a) = Ok c -> In x a ->
  exists cx, formatOneLine x = Ok cx /\ len cx <= len c.
Proof.
  cbn [formatOneLine]. rewrite formatArrayOneLine_eq. intros H Hx.
  apply bind_Ok in H as (ds & Hds & H). injection H as <-.
  destruct (mapM_In _ _ _ _ Hds Hx) as (cx & Hcx & Hin).
  exists cx. split; [exact Hcx|].
  pose proof (len_Join_In ds ", " cx Hin).
  change (len cx <= len ("[" ++ Join ds ", " ++ "]")).
  rewrite !len_app. pose proof (len_nonneg "["). pose proof (len_nonneg "]").
  lia.
Qed.

(** The one-line form of an object holds, for each of its keys, the
    quoted key, the separator and the one-line form of the value. *)
Lemma candidate_Object (m : list (string * value)) (c k : string) (x : value) :
  formatOneLine (Object m) = Ok c ->
  In k (keys_of range_oneline m) -> lookup k m = Some x ->
  exists cx, formatOneLine x = Ok cx /\
             len (marshal_string k) + 2 + len cx <= len c.
Proof.
  cbn [formatOneLine]. rewrite formatObjectOneLine_eq. intros H Hk Hx.
  apply bind_Ok in H as (ds & Hds & H). injection H as <-.
  destruct (mapM_In _ _ _ _ Hds Hk) as (piece & Hp & Hin).
  unfold oneline_entry, entry_or_null in Hp.
  rewrite lookup_each_entry, Hx in Hp. simpl in Hp.
  apply bind_Ok in Hp as (cx & Hcx & Hp). injection Hp as <-.
  exists cx. split; [exact Hcx|].
  pose proof (len_Join_In ds ", " _ Hin) as Hle.
  assert (Hpiece : len (marshal_string k ++ ": " ++ cx) =
                   len (marshal_string k) + 2 + len cx).
  { rewrite !len_app. change (len ": ") with 2. lia. }
  change (len (marshal_string k ++ ": " ++ cx) <= len (Join ds ", ")) in Hle.
  change (len (marshal_string k) + 2 + len cx <=
          len ("{" ++ Join ds ", " ++ "}")).
  rewrite !len_app.
  pose proof (len_nonneg "{"). pose proof (len_nonneg "}").
  lia.
Qed.

End Candidates.

Lemma Forall_concat {A : Type} (P : A -> Prop) (ls : list (list A)) :
  (forall l, In l ls -> Forall P l) -> Forall P (List.concat ls).
Proof.
  induction ls as [|l ls IH]; intros H; simpl; [constructor|].
  apply Forall_app. split; [apply H; now left|].
  apply IH. intros l' Hl'. apply H. now right.
Qed.

Section Width.

Context {E : Env}.

Hypothesis marshal_string_one_line : forall s, has_nl (marshal_string s) = false.
Hypothesis marshal_float_one_line : forall f, has_nl (marshal_float f) = false.
Hypothesis sprintf_f_one_line : forall f, has_nl (sprintf_f f) = false.
Hypothesis range_block_perm : forall l, Permutation (range_block l) l.
Hypothesis range_oneline_perm : forall l, Permutation (range_oneline l) l.
Hypothesis indent_range : 0 <= indent < 2 ^ 63.

Lemma scalar_text_one_line (v : value) :
  scalar v = true -> has_nl (scalar_text v) = false.
Proof.
  destruct v; try discriminate; intros _; simpl; auto.
  now destruct b.
Qed.

Lemma key_prefix_one_line (pre : string) :
  key_prefix pre -> has_nl pre = false.
Proof.
  intros [->|[k ->]]; [reflexivity|].
  now rewrite has_nl_app, marshal_string_one_line.
Qed.

Lemma comma_one_line (suf : string) : comma_or_none suf -> has_nl suf = false.
Proof. now intros [->| ->]. Qed.

(** The lines that an item of a block contributes: the rendering of the
    value behind the indentation of the item and its key, with the
    comma of the item behind it. *)
Lemma item_lines_ok (width level additional : Z) (v : value)
    (d pre suf : string) :
  rendered width level additional v d ->
  0 <= level * indent ->
  key_prefix pre -> len pre = additional -> comma_or_none suf ->
  Forall (line_ok width)
    (lines (spaces (Z.to_nat (level * indent)) ++ pre ++ d ++ suf)).
Proof.
  intros Hr Hli Hpre Hlen Hsuf.
  set (n := Z.to_nat (level * indent)).
  pose proof (key_prefix_one_line pre Hpre) as Hnp.
  pose proof (comma_one_line suf Hsuf) as Hns.
  destruct Hr as [Hs -> | Hc Hnl Hw | opening mid Hc Hl Ho Hmid].
  - rewrite lines_one_line.
    + constructor; [|constructor]. right. now apply unbreakable_scalar.
    + now rewrite !has_nl_app, has_nl_spaces, Hnp, Hns, scalar_text_one_line.
  - rewrite lines_one_line.
    + constructor; [|constructor]. left.
      exists (spaces n ++ pre ++ d), suf. repeat split.
      * now rewrite !app_assoc_s.
      * exact Hsuf.
      * rewrite !len_app. unfold n. rewrite len_spaces by exact Hli. lia.
    + now rewrite !has_nl_app, has_nl_spaces, Hnp, Hns, Hnl.
  - assert (H1 : lines (d ++ suf) =
                 ((opening :: mid) ++ [((spaces n ++ closer v) ++ suf)%string])%list).
    { apply lines_snoc; [exact Hns | exact Hl]. }
    assert (H2 : lines (pre ++ d ++ suf) =
                 ((pre ++ opening)%string :: mid ++
                  [((spaces n ++ closer v) ++ suf)%string])%list).
    { rewrite lines_app_l by exact Hnp. rewrite H1. reflexivity. }
    rewrite lines_app_l by apply has_nl_spaces. rewrite H2.
    constructor.
    + right. now apply unbreakable_open.
    + apply Forall_app. split; [exact Hmid|].
      constructor; [|constructor]. right. rewrite app_assoc_s.
      apply unbreakable_close; [|exact Hsuf]. destruct v; auto.
Qed.

Lemma in_range_small (z bound : Z) :
  0 <= z -> z <= bound -> bound < 2 ^ 63 -> GoInt.in_range z.
Proof. unfold GoInt.in_range. lia. Qed.

(** What [formatIndent] returns is of one of the three forms. *)
Lemma formatIndent_rendered (width : Z) (v : value) :
  forall (level additional : Z) (c out : string),
  0 <= level -> 0 <= additional ->
  formatOneLine v = Ok c ->
  level + depth v < 2 ^ 63 ->
  (level + depth v) * indent + additional + len c < 2 ^ 63 ->
  formatIndent v width level additional = Ok out ->
  rendered width level additional v out.
Proof.
  induction v as [ | b | f | s | a IHa | m IHm | ty ] using value_induction;
    intros level additional c out Hl Ha Hc Hd Hb H;
    try (simpl in H; injection H as <-; now apply rendered_scalar).
  - (* arrays *)
    pose proof (depth_compound_pos (Array a) eq_refl) as Hdep.
    pose proof (len_nonneg c) as Hc0.
    assert (Hli : 0 <= level * indent) by nia.
    assert (Hli' : level * indent <= (level + depth (Array a)) * indent).
    { apply Z.mul_le_mono_nonneg_r; lia. }
    rewrite formatIndent_compound in H by reflexivity.
    rewrite Hc in H. simpl bind in H.
    destruct (fits width level additional c) eqn:Hf.
    + injection H as <-. apply rendered_one_line; [reflexivity| |].
      * exact (formatOneLine_one_line marshal_string_one_line
                 marshal_float_one_line _ _ Hc).
      * apply fits_spec in Hf; [exact Hf | exact indent_range | | |];
          eapply in_range_small; try exact Hb; lia.
    + cbn [block_form] in H.
      apply formatArray_shape in H as (items & sp & Hitems & Hsp & ->).
      assert (Hm0 : GoInt.mul level (GoInt.of_uint indent) = level * indent).
      { unfold GoInt.mul. rewrite (of_uint_id _ indent_range).
        apply wrap_id. eapply in_range_small; try exact Hb; lia. }
      rewrite Hm0 in Hsp. apply Repeat_space_inv in Hsp. subst sp.
      eapply rendered_block with (opening := "[")
        (mid := List.concat (map lines (with_commas items)));
        [reflexivity | | now left |].
      * rewrite lines_app_nl, lines_Join.
        rewrite (lines_one_line (spaces _ ++ "]"))
          by now rewrite has_nl_app, has_nl_spaces.
        reflexivity.
      * apply Forall_concat. intros l Hin.
        apply in_map_iff in Hin as (y & <- & Hy).
        apply with_commas_In in Hy as (item & suf & Hitem & Hsuf & ->).
        destruct (mapM_In_inv _ _ _ _ Hitems Hitem) as (x & Hx & Hfx).
        unfold array_item in Hfx.
        apply bind_Ok in Hfx as (d & Hd' & Hfx).
        apply bind_Ok in Hfx as (sp1 & Hsp1 & Hfx). injection Hfx as <-.
        pose proof (depth_Array a x Hx) as Hdx.
        pose proof (depth_nonneg x) as Hdx0.
        destruct (candidate_Array a c x Hc Hx) as (cx & Hcx & Hlen).
        assert (Hadd : GoInt.add level 1 = level + 1).
        { apply wrap_id. unfold GoInt.in_range. lia. }
        assert (Hle1 : (level + 1 + depth x) * indent <=
                       (level + depth (Array a)) * indent).
        { apply Z.mul_le_mono_nonneg_r; lia. }
        assert (Hli1 : 0 <= (level + 1) * indent) by nia.
        assert (Hle2 : (level + 1) * indent <= (level + 1 + depth x) * indent).
        { apply Z.mul_le_mono_nonneg_r; lia. }
        assert (Hm1 : GoInt.mul (GoInt.add level 1) (GoInt.of_uint indent) =
                      (level + 1) * indent).
        { unfold GoInt.mul. rewrite Hadd, (of_uint_id _ indent_range).
          apply wrap_id. eapply in_range_small; try exact Hb; lia. }
        rewrite Hm1 in Hsp1. apply Repeat_space_inv in Hsp1. subst sp1.
        rewrite Hadd in Hd'.
        rewrite Forall_forall in IHa.
        pose proof (IHa x Hx (level + 1) 0 cx d) as Hr.
        rewrite app_assoc_s.
        apply (item_lines_ok width (level + 1) 0 x d "" suf);
          [ | exact Hli1 | now left | reflexivity | exact Hsuf].
        apply Hr; try lia. exact Hcx. exact Hd'.
  - (* objects *)
    pose proof (depth_compound_pos (Object m) eq_refl) as Hdep.
    pose proof (len_nonneg c) as Hc0.
    assert (Hli : 0 <= level * indent) by nia.
    assert (Hli' : level * indent <= (level + depth (Object m)) * indent).
    { apply Z.mul_le_mono_nonneg_r; lia. }
    rewrite formatIndent_compound in H by reflexivity.
    rewrite Hc in H. simpl bind in H.
    destruct (fits width level additional c) eqn:Hf.
    + injection H as <-. apply rendered_one_line; [reflexivity| |].
      * exact (formatOneLine_one_line marshal_string_one_line
                 marshal_float_one_line _ _ Hc).
      * apply fits_spec in Hf; [exact Hf | exact indent_range | | |];
          eapply in_range_small; try exact Hb; lia.
    + cbn [block_form] in H.
      rewrite formatObject_eq in H by now apply keys_of_length.
      apply bind_Ok in H as (items & Hitems & H).
      apply bind_Ok in H as (last & Hlast & H).
      apply Ok_inj in H. subst out.
      unfold closing in Hlast. apply bind_Ok in Hlast as (sp & Hsp & Hlast).
      apply Ok_inj in Hlast. subst last.
      assert (Hm0 : GoInt.mul level (GoInt.of_uint indent) = level * indent).
      { unfold GoInt.mul. rewrite (of_uint_id _ indent_range).
        apply wrap_id. eapply in_range_small; try exact Hb; lia. }
      rewrite Hm0 in Hsp. apply Repeat_space_inv in Hsp. subst sp.
      eapply rendered_block with (opening := "{")
        (mid := List.concat (map lines (with_commas items)));
        [reflexivity | | now right |].
      * rewrite Join_block_last, lines_app_nl, lines_Join.
        rewrite (lines_one_line (spaces _ ++ "}"))
          by now rewrite has_nl_app, has_nl_spaces.
        reflexivity.
      * apply Forall_concat. intros l Hin.
        apply in_map_iff in Hin as (y & <- & Hy).
        apply with_commas_In in Hy as (item & suf & Hitem & Hsuf & ->).
        destruct (mapM_In_inv _ _ _ _ Hitems Hitem) as (k & Hk & Hfk).
        unfold object_item in Hfk.
        apply bind_Ok in Hfk as (d & Hd' & Hfk).
        apply bind_Ok in Hfk as (sp1 & Hsp1 & Hfk). injection Hfk as <-.
        assert (Hadd : GoInt.add level 1 = level + 1).
        { apply wrap_id. unfold GoInt.in_range. lia. }
        assert (Hli1 : 0 <= (level + 1) * indent) by nia.
        assert (Hle2 : (level + 1) * indent <=
                       (level + depth (Object m)) * indent).
        { apply Z.mul_le_mono_nonneg_r; lia. }
        assert (Hm1 : GoInt.mul (GoInt.add level 1) (GoInt.of_uint indent) =
                      (level + 1) * indent).
        { unfold GoInt.mul. rewrite Hadd, (of_uint_id _ indent_range).
          apply wrap_id. eapply in_range_small; try exact Hb; lia. }
        rewrite Hm1 in Hsp1. apply Repeat_space_inv in Hsp1. subst sp1.
        replace ((spaces (Z.to_nat ((level + 1) * indent)) ++
                  marshal_string k ++ ": " ++ d) ++ suf)
          with (spaces (Z.to_nat ((level + 1) * indent)) ++
                (marshal_string k ++ ": ") ++ d ++ suf)
          by now rewrite !app_assoc_s.
        assert (Hkp : len (marshal_string k ++ ": ") = len (marshal_string k) + 2).
        { rewrite len_app. reflexivity. }
        enough (Hr : exists vx,
                  rendered width (level + 1) (len (marshal_string k) + 2) vx d).
        { destruct Hr as [vx Hr].
          apply (item_lines_ok width (level + 1) (len (marshal_string k) + 2)
                   vx d (marshal_string k ++ ": ") suf Hr Hli1);
            [right; now exists k | exact Hkp | exact Hsuf]. }
        pose proof (len_nonneg (marshal_string k)) as Hk0.
        unfold entry_or_null, block_vals in Hd'.
        rewrite lookup_each_entry in Hd'.
        destruct (lookup k m) as [x|] eqn:Hkx; simpl in Hd'.
        -- assert (Hko : In k (keys_of range_oneline m)).
           { apply (Permutation_in k
                      (Permutation_sym (keys_of_perm range_oneline m
                                          range_oneline_perm))).
             apply (Permutation_in k (keys_of_perm range_block m
                                        range_block_perm) Hk). }
           destruct (candidate_Object m c k x Hc Hko Hkx) as (cx & Hcx & Hlen).
           pose proof (lookup_In k m x Hkx) as Hin.
           pose proof (depth_Object m k x Hin) as Hdx.
           pose proof (depth_nonneg x) as Hdx0.
           pose proof (len_nonneg cx) as Hcx0.
           assert (Hle1 : (level + 1 + depth x) * indent <=
                          (level + depth (Object m)) * indent).
           { apply Z.mul_le_mono_nonneg_r; lia. }
           assert (Hadd2 : GoInt.add (len (marshal_string k)) 2 =
                           len (marshal_string k) + 2).
           { apply wrap_id. unfold GoInt.in_range. lia. }
           rewrite Hadd, Hadd2 in Hd'.
           rewrite Forall_forall in IHm.
           pose proof (IHm (k, x) Hin) as IHx. cbn [snd] in IHx.
           exists x.
           apply (IHx (level + 1) (len (marshal_string k) + 2) cx d);
             try lia; assumption.
        -- apply Ok_inj in Hd'. subst d. exists Null.
           now apply rendered_scalar.
  - discriminate.
Qed.

(** C2, as the code has it.  Every line of what [formatIndent] returns
    either has at most [width] characters, a comma behind it not
    counted, or cannot be broken: behind its indentation it holds one
    scalar (with the key of its entry in front and a comma behind it, if
    any), or the opening bracket of a block (with the key of its entry
    in front, if any), or a closing bracket (with a comma behind it, if
    any).  The indentation of every level is taken to fit Go's [int]. *)
Theorem line_width (v : value) (width level additional : Z) (c out : string) :
  0 <= level -> 0 <= additional ->
  formatOneLine v = Ok c ->
  level + depth v < 2 ^ 63 ->
  (level + depth v) * indent + additional + len c < 2 ^ 63 ->
  formatIndent v width level additional = Ok out ->
  Forall (line_ok width) (lines out).
Proof.
  intros Hl Ha Hc Hd Hb H.
  pose proof (formatIndent_rendered width v level additional c out
                Hl Ha Hc Hd Hb H) as Hr.
  destruct Hr as [Hs -> | Hcomp Hnl Hw | opening mid Hcomp Hlines Ho Hmid].
  - rewrite lines_one_line by now apply scalar_text_one_line.
    constructor; [|constructor]. right.
    replace (scalar_text v) with (spaces 0 ++ "" ++ scalar_text v ++ "")
      by (simpl; apply app_empty_r).
    apply unbreakable_scalar; [now left | exact Hs | now left].
  - rewrite lines_one_line by exact Hnl.
    constructor; [|constructor]. left. exists out, "".
    split; [now rewrite app_empty_r|]. split; [now left|].
    assert (0 <= level * indent) by nia. lia.
  - rewrite Hlines. constructor.
    + right. apply (unbreakable_open 0 "" opening); [now left | exact Ho].
    + apply Forall_app. split; [exact Hmid|].
      constructor; [|constructor]. right.
      replace (closer v) with (closer v ++ "") by apply app_empty_r.
      apply unbreakable_close; [destruct v; auto | now left].
Qed.

End Width.

(** ** Sorted keys are unique *)

Lemma N_of_ascii_inj (a b : ascii) : N_of_ascii a = N_of_ascii b -> a = b.
Proof.
  intros H. rewrite <- (ascii_N_embedding a), <- (ascii_N_embedding b).
  now rewrite H.
Qed.

Lemma string_leb_antisym (a b : string) :
  string_leb a b = true -> string_leb b a = true -> a = b.
Proof.
  revert b. induction a as [|x a IH]; intros [|y b]; simpl; try congruence.
  rewrite (N.compare_antisym (N_of_ascii x) (N_of_ascii y)).
  destruct (N.compare_spec (N_of_ascii x) (N_of_ascii y)) as [He|Hl|Hg];
    simpl; try congruence.
  intros H1 H2. apply N_of_ascii_inj in He. subst y. f_equal. now apply IH.
Qed.

Lemma string_leb_trans (a b c : string) :
  string_leb a b = true -> string_leb b c = true -> string_leb a c = true.
Proof.
  revert b c. induction a as [|x a IH]; intros [|y b] [|z c]; simpl;
    try congruence.
  destruct (N.compare_spec (N_of_ascii x) (N_of_ascii y)) as [He|Hl|Hg];
    try congruence;
    destruct (N.compare_spec (N_of_ascii y) (N_of_ascii z)) as [He'|Hl'|Hg'];
    try congruence; intros H1 H2.
  - rewrite He, He', N.compare_refl. now apply (IH b).
  - rewrite He. now rewrite (proj2 (N.compare_lt_iff _ _) Hl').
  - rewrite <- He'. now rewrite (proj2 (N.compare_lt_iff _ _) Hl).
  - assert (Hlt : (N_of_ascii x < N_of_ascii z)%N) by lia.
    now rewrite (proj2 (N.compare_lt_iff _ _) Hlt).
Qed.

Lemma string_leb_refl (a : string) : string_leb a a = true.
Proof.
  induction a as [|x a IH]; simpl; [reflexivity|].
  now rewrite N.compare_refl.
Qed.

Lemma sort_Strings_strongly_sorted (l : list string) :
  StronglySorted key_le (sort_Strings l).
Proof.
  apply Sorted_StronglySorted.
  - intros a b c. apply string_leb_trans.
  - apply sort_Strings_sorted.
Qed.

Lemma strongly_sorted_perm_eq (l1 l2 : list string) :
  StronglySorted key_le l1 -> StronglySorted key_le l2 ->
  Permutation l1 l2 -> l1 = l2.
Proof.
  revert l2. induction l1 as [|a l1 IH]; intros l2 H1 H2 Hp.
  - apply Permutation_nil in Hp. now subst.
  - destruct l2 as [|b l2].
    { symmetry in Hp. now apply Permutation_nil in Hp. }
    inversion H1 as [|? ? H1' Ha]; subst.
    inversion H2 as [|? ? H2' Hb]; subst.
    assert (Hab : a = b).
    { assert (Hin1 : In a (b :: l2))
        by (apply (Permutation_in a Hp); now left).
      assert (Hin2 : In b (a :: l1))
        by (apply (Permutation_in b (Permutation_sym Hp)); now left).
      rewrite Forall_forall in Ha, Hb.
      destruct Hin1 as [->|Hin1]; [reflexivity|].
      destruct Hin2 as [->|Hin2]; [reflexivity|].
      apply string_leb_antisym; [now apply Ha | now apply Hb]. }
    subst b. f_equal. apply IH; auto.
    now apply Permutation_cons_inv in Hp.
Qed.

Lemma sort_Strings_perm_eq (l1 l2 : list string) :
  Permutation l1 l2 -> sort_Strings l1 = sort_Strings l2.
Proof.
  intros Hp. apply strongly_sorted_perm_eq;
    try apply sort_Strings_strongly_sorted.
  rewrite !sort_Strings_perm. exact Hp.
Qed.

Section SortedKeys.

Context {E : Env}.

(** With [sort_keys] every walk of a map ends in the same keys. *)
Lemma keys_of_sorted (range : list string -> list string)
    (m : list (string * value)) :
  sortKeys = true -> (forall l, Permutation (range l) l) ->
  keys_of range m = sort_Strings (map fst m).
Proof.
  intros Hs Hr. unfold keys_of. rewrite Hs.
  apply sort_Strings_perm_eq, Hr.
Qed.

End SortedKeys.

(** ** Formatting does not depend on the order of the entries *)

Lemma mapM_map_ext {A B C : Type} (f : B -> result C) (h : A -> result C)
    (g : A -> B) (l : list A) :
  (forall x, In x l -> f (g x) = h x) -> mapM f (map g l) = mapM h l.
Proof.
  induction l as [|x l IH]; intros H; [reflexivity|].
  simpl. rewrite H by now left. rewrite IH; [reflexivity|].
  intros y Hy. apply H. now right.
Qed.

Lemma mapM_ext_in {A B : Type} (f g : A -> result B) (l : list A) :
  (forall x, In x l -> f x = g x) -> mapM f l = mapM g l.
Proof.
  intros H. rewrite <- (map_id l) at 1. now apply mapM_map_ext.
Qed.

Lemma lookup_keyed {B : Type} (f : string -> B) (k : string) (ks : list string) :
  In k ks -> lookup k (map (fun k' => (k', f k')) ks) = Some (f k).
Proof.
  induction ks as [|k' ks IH]; intros Hk; [destruct Hk|].
  simpl. destruct (String.eqb_spec k k') as [->|Hne]; [reflexivity|].
  destruct Hk as [->|Hk]; [congruence | now apply IH].
Qed.

Lemma lookup_some_of_key {A : Type} (k : string) (m : list (string * A)) :
  In k (map fst m) -> exists a, lookup k m = Some a.
Proof.
  induction m as [|[k' a] m IH]; intros Hk; [destruct Hk|].
  simpl. destruct (String.eqb_spec k k') as [->|Hne]; [eauto|].
  destruct Hk as [Hk|Hk]; [simpl in Hk; congruence | now apply IH].
Qed.

Lemma sorted_value_Object (m : list (string * value)) :
  sorted_value (Object m) = Object (sorted_entries m).
Proof.
  unfold sorted_entries. cbn [sorted_value].
  assert (Heq : (fix each (m : list (string * value)) : list (string * value) :=
                   match m with
                   | [] => []
                   | (k, x) :: m' => (k, sorted_value x) :: each m'
                   end) m =
                map (fun kv => (fst kv, sorted_value (snd kv))) m).
  { induction m as [|[k' x] m IH]; [reflexivity|].
    cbn [map fst snd]. now rewrite IH. }
  now rewrite Heq.
Qed.

Lemma sorted_entries_keys (m : list (string * value)) :
  map fst (sorted_entries m) = sort_Strings (map fst m).
Proof.
  unfold sorted_entries. rewrite map_map. cbn [fst]. apply map_id.
Qed.

Lemma sorted_entries_lookup (m : list (string * value)) (k : string) (x : value) :
  lookup k m = Some x -> lookup k (sorted_entries m) = Some (sorted_value x).
Proof.
  intros Hk. unfold sorted_entries.
  rewrite (lookup_keyed
             (fun k => match lookup k (map (fun kv => (fst kv, sorted_value (snd kv))) m)
                       with Some x => x | None => Null end)).
  - now rewrite lookup_map, Hk.
  - apply (Permutation_in k (Permutation_sym (sort_Strings_perm _))).
    apply lookup_In in Hk. apply in_map_iff. now exists (k, x).
Qed.

Section OrderFree.

Context {E : Env}.

Hypothesis sorted : sortKeys = true.
Hypothesis range_block_perm : forall l, Permutation (range_block l) l.
Hypothesis range_oneline_perm : forall l, Permutation (range_oneline l) l.

Lemma keys_of_sorted_entries (range : list string -> list string)
    (m : list (string * value)) :
  (forall l, Permutation (range l) l) ->
  keys_of range (sorted_entries m) = keys_of range m.
Proof.
  intros Hr. rewrite !keys_of_sorted by assumption.
  rewrite sorted_entries_keys.
  apply sort_Strings_perm_eq, sort_Strings_perm.
Qed.

Lemma key_of_keys (range : list string -> list string)
    (m : list (string * value)) (k : string) :
  (forall l, Permutation (range l) l) ->
  In k (keys_of range m) -> exists x, lookup k m = Some x.
Proof.
  intros Hr Hk. apply lookup_some_of_key.
  exact (Permutation_in k (keys_of_perm range m Hr) Hk).
Qed.

Lemma formatOneLine_sorted_value (v : value) :
  formatOneLine (sorted_value v) = formatOneLine v.
Proof.
  induction v as [ | b | f | s | a IHa | m IHm | ty ] using value_induction;
    try reflexivity.
  - cbn [sorted_value formatOneLine]. rewrite !formatArrayOneLine_eq.
    rewrite (mapM_map_ext formatOneLine formatOneLine); [reflexivity|].
    rewrite Forall_forall in IHa. exact IHa.
  - rewrite sorted_value_Object. cbn [formatOneLine].
    rewrite !formatObjectOneLine_eq.
    rewrite keys_of_sorted_entries by assumption.
    erewrite mapM_ext_in; [reflexivity|].
    intros k Hk. unfold oneline_entry, entry_or_null.
    rewrite !lookup_each_entry.
    destruct (key_of_keys _ m k range_oneline_perm Hk) as [x Hx].
    rewrite Hx, (sorted_entries_lookup m k x Hx). simpl.
    rewrite Forall_forall in IHm.
    pose proof (IHm (k, x) (lookup_In k m x Hx)) as IHx. cbn [snd] in IHx.
    now rewrite IHx.
Qed.

Lemma formatIndent_sorted_value (v : value) (width : Z) :
  forall level additional,
  formatIndent (sorted_value v) width level additional =
  formatIndent v width level additional.
Proof.
  induction v as [ | b | f | s | a IHa | m IHm | ty ] using value_induction;
    intros level additional; try reflexivity.
  - pose proof (formatOneLine_sorted_value (Array a)) as Hc.
    cbn [sorted_value] in *.
    rewrite !formatIndent_compound by reflexivity. rewrite Hc.
    destruct (formatOneLine (Array a)) as [c|e]; [|reflexivity].
    simpl bind. destruct (fits width level additional c); [reflexivity|].
    cbn [block_form]. rewrite !formatArray_eq.
    rewrite (mapM_map_ext (array_item formatIndent width level)
               (array_item formatIndent width level)); [reflexivity|].
    intros x Hx. unfold array_item.
    rewrite Forall_forall in IHa. now rewrite (IHa x Hx).
  - pose proof (formatOneLine_sorted_value (Object m)) as Hc.
    rewrite sorted_value_Object in *.
    rewrite !formatIndent_compound by reflexivity. rewrite Hc.
    destruct (formatOneLine (Object m)) as [c|e]; [|reflexivity].
    simpl bind. destruct (fits width level additional c); [reflexivity|].
    cbn [block_form].
    rewrite !formatObject_eq by now apply keys_of_length.
    rewrite keys_of_sorted_entries by assumption.
    erewrite mapM_ext_in; [reflexivity|].
    intros k Hk. unfold object_item, entry_or_null, block_vals.
    rewrite !lookup_each_entry.
    destruct (key_of_keys _ m k range_block_perm Hk) as [x Hx].
    rewrite Hx, (sorted_entries_lookup m k x Hx). simpl.
    rewrite Forall_forall in IHm.
    pose proof (IHm (k, x) (lookup_In k m x Hx)) as IHx. cbn [snd] in IHx.
    now rewrite IHx.
Qed.

End OrderFree.

(** ** The decoder on what the formatter writes *)

Lemma skip_ws_all_ws (w s : string) :
  all_ws w = true -> skip_ws (w ++ s) = skip_ws s.
Proof.
  induction w as [|c w IH]; simpl; intros H; [reflexivity|].
  apply andb_true_iff in H as [Hc Hw]. rewrite Hc. now apply IH.
Qed.

Lemma all_ws_app (a b : string) :
  all_ws a = true -> all_ws b = true -> all_ws (a ++ b) = true.
Proof.
  induction a as [|c a IH]; simpl; intros Ha Hb; [exact Hb|].
  apply andb_true_iff in Ha as [Hc Ha]. rewrite Hc. now apply IH.
Qed.

Lemma all_ws_spaces (n : nat) : all_ws (spaces n) = true.
Proof. induction n; simpl; auto. Qed.

Lemma all_ws_nl : all_ws nl = true.
Proof. reflexivity. Qed.

Lemma scan_string_app (a b r rest : string) :
  scan_string a = Some (b, r) -> scan_string (a ++ rest) = Some (b, r ++ rest).
Proof.
  remember (String.length a) as n eqn:Hn.
  assert (Hle : (String.length a <= n)%nat) by lia. clear Hn.
  revert a b r Hle. induction n as [|n IH]; intros a b r Hle H.
  - destruct a; [discriminate | simpl in Hle; lia].
  - destruct a as [|c a]; [discriminate|].
    simpl in Hle. cbn [scan_string] in H.
    change (String c a ++ rest) with (String c (a ++ rest)).
    cbn [scan_string].
    destruct (N_of_ascii c =? 34)%N.
    + injection H as <- <-. reflexivity.
    + destruct (N_of_ascii c =? 92)%N.
      * destruct a as [|e a]; [discriminate|].
        change (String e a ++ rest) with (String e (a ++ rest)).
        destruct (scan_string a) as [[lit rest0]|] eqn:Ha; [|discriminate].
        injection H as <- <-.
        rewrite (IH a lit rest0); [reflexivity | simpl in Hle; lia | exact Ha].
      * destruct (N_of_ascii c <? 32)%N; [discriminate|].
        destruct (scan_string a) as [[lit rest0]|] eqn:Ha; [|discriminate].
        injection H as <- <-.
        rewrite (IH a lit rest0); [reflexivity | lia | exact Ha].
Qed.

Lemma scan_number_app (t rest : string) :
  all_number_chars t = true -> ends_number rest ->
  scan_number (t ++ rest) = (t, rest).
Proof.
  intros Ht Hr. induction t as [|c t IH].
  - simpl. destruct rest as [|c r]; [reflexivity|].
    simpl in Hr. simpl. now rewrite Hr.
  - simpl in Ht. apply andb_true_iff in Ht as [Hc Ht].
    simpl. rewrite Hc, (IH Ht). reflexivity.
Qed.

Section DecodeFacts.

Context {D : Decoder}.

Lemma parse_value_ws (fuel : nat) (w s : string) :
  all_ws w = true -> parse_value fuel (w ++ s) = parse_value fuel s.
Proof.
  intros Hw. destruct fuel; [reflexivity|].
  cbn [parse_value]. now rewrite (skip_ws_all_ws w s Hw).
Qed.

End DecodeFacts.

Lemma float64_eqb_eq (f g : float64) : float64_eqb f g = true -> f = g.
Proof.
  destruct f as [fn fm fe], g as [gn gm ge]. unfold float64_eqb. simpl.
  intros H. apply andb_true_iff in H as [H He].
  apply andb_true_iff in H as [Hn Hm].
  apply Bool.eqb_prop in Hn. apply Z.eqb_eq in Hm, He. now subst.
Qed.

Lemma number_start (n : N) :
  ((n =? 45) || ((48 <=? n) && (n <=? 57)))%N = true ->
  (n = 45 \/ 48 <= n <= 57)%N.
Proof.
  intros H. apply orb_true_iff in H as [H|H].
  - left. now apply N.eqb_eq.
  - right. apply andb_true_iff in H as [H1 H2].
    apply N.leb_le in H1, H2. lia.
Qed.

Lemma number_start_is_number_char (c : ascii) :
  ((N_of_ascii c =? 45) || ((48 <=? N_of_ascii c) && (N_of_ascii c <=? 57)))%N
    = true ->
  is_number_char c = true.
Proof.
  intros H. apply number_start in H. unfold is_number_char.
  decide_N_tests; reflexivity.
Qed.

Lemma number_start_not_ws (c : ascii) :
  ((N_of_ascii c =? 45) || ((48 <=? N_of_ascii c) && (N_of_ascii c <=? 57)))%N
    = true ->
  is_ws c = false.
Proof.
  intros H. apply number_start in H. unfold is_ws.
  decide_N_tests; reflexivity.
Qed.

Section Scalars.

Context {E : Env} {D : Decoder}.

Lemma string_round_trip_inv (s : string) :
  string_round_trip s = true ->
  exists q body,
    marshal_string s = String q body /\ N_of_ascii q = 34%N /\
    scan_string body = Some (body, "") /\
    unquote (String q body) = Some s.
Proof.
  unfold string_round_trip.
  destruct (marshal_string s) as [|q body] eqn:Hm; [discriminate|].
  intros H. apply andb_true_iff in H as [H Hu].
  apply andb_true_iff in H as [Hq Hs].
  apply N.eqb_eq in Hq.
  destruct (scan_string body) as [[lit [|? ?]]|] eqn:Hscan; try discriminate.
  apply String.eqb_eq in Hs. subst lit.
  destruct (unquote (String q body)) as [s'|] eqn:Hun; [|discriminate].
  apply String.eqb_eq in Hu. subst s'.
  exists q, body. auto.
Qed.

Lemma number_round_trip_inv (f : float64) :
  number_round_trip f = true ->
  sprintf_f f = marshal_float f /\
  number_text (marshal_float f) = true /\
  parse_float (marshal_float f) = Some f.
Proof.
  unfold number_round_trip. intros H.
  apply andb_true_iff in H as [H Hp].
  apply andb_true_iff in H as [He Ht].
  apply String.eqb_eq in He.
  destruct (parse_float (marshal_float f)) as [g|]; [|discriminate].
  apply float64_eqb_eq in Hp. subst g. auto.
Qed.

(** On a scalar both renderers agree when its tokens are read back. *)
Lemma formatIndent_scalar (v : value) (width level additional : Z) :
  scalar v = true -> tokens_round_trip v = true ->
  formatIndent v width level additional = formatOneLine v.
Proof.
  destruct v; try discriminate; intros _ Ht; try reflexivity.
  simpl in *. apply number_round_trip_inv in Ht as (-> & _). reflexivity.
Qed.

Lemma parse_string_literal (s : string) (fuel : nat) (rest : string) :
  string_round_trip s = true ->
  parse_value (S fuel) (marshal_string s ++ rest) = Some (Str s, rest).
Proof.
  intros H. apply string_round_trip_inv in H as (q & body & -> & Hq & Hs & Hu).
  change (String q body ++ rest) with (String q (body ++ rest)).
  cbn [parse_value skip_ws].
  assert (Hws : is_ws q = false) by (unfold is_ws; now rewrite Hq).
  rewrite Hws, Hq. cbn [N.eqb Pos.eqb].
  rewrite (scan_string_app body body "" rest Hs), Hu. reflexivity.
Qed.

Lemma parse_oneline_scalar (v : value) (c : string) (fuel : nat) (rest : string) :
  scalar v = true -> tokens_round_trip v = true ->
  formatOneLine v = Ok c -> ends_number rest ->
  parse_value (S fuel) (c ++ rest) = Some (v, rest).
Proof.
  destruct v; try discriminate; intros _ Ht Hc Hr; simpl in Hc;
    apply Ok_inj in Hc; subst c.
  - reflexivity.
  - destruct b; reflexivity.
  - simpl in Ht. apply number_round_trip_inv in Ht as (_ & Hn & Hp).
    destruct (marshal_float f) as [|ch r] eqn:Hm; [discriminate|].
    unfold number_text in Hn. apply andb_true_iff in Hn as [Hst Hall].
    change (String ch r ++ rest) with (String ch (r ++ rest)).
    cbn [parse_value skip_ws].
    rewrite (number_start_not_ws ch Hst).
    pose proof (number_start _ Hst) as Hn.
    assert (Hscan : scan_number (String ch (r ++ rest)) = (String ch r, rest)).
    { apply (scan_number_app (String ch r) rest); [|exact Hr].
      simpl. now rewrite (number_start_is_number_char ch Hst). }
    cbv zeta. rewrite Hst, Hscan, Hp.
    decide_N_tests; reflexivity.
  - simpl in Ht. now apply parse_string_literal.
Qed.

Lemma formatOneLine_starts_value (v : value) (c : string) :
  tokens_round_trip v = true -> formatOneLine v = Ok c -> starts_value c.
Proof.
  destruct v; intros Ht Hc; simpl in Hc.
  - apply Ok_inj in Hc. subst c. simpl. repeat split; discriminate.
  - apply Ok_inj in Hc. subst c. destruct b; simpl; repeat split; discriminate.
  - apply Ok_inj in Hc. subst c. simpl in Ht.
    apply number_round_trip_inv in Ht as (_ & Hn & _).
    destruct (marshal_float f) as [|ch r]; [discriminate|].
    unfold number_text in Hn. apply andb_true_iff in Hn as [Hst _].
    simpl. split; [now apply number_start_not_ws|].
    apply number_start in Hst. lia.
  - apply Ok_inj in Hc. subst c. simpl in Ht.
    apply string_round_trip_inv in Ht as (q & body & -> & Hq & _).
    simpl. rewrite Hq. unfold is_ws. rewrite Hq. repeat split; discriminate.
  - rewrite formatArrayOneLine_eq in Hc.
    apply bind_Ok in Hc as (ds & _ & Hc). apply Ok_inj in Hc. subst c.
    simpl. repeat split; discriminate.
  - rewrite formatObjectOneLine_eq in Hc.
    apply bind_Ok in Hc as (ds & _ & Hc). apply Ok_inj in Hc. subst c.
    simpl. repeat split; discriminate.
  - discriminate.
Qed.

Hypothesis range_block_perm : forall l, Permutation (range_block l) l.

Lemma formatIndent_starts_value (v : value) (width level additional : Z)
    (out : string) :
  tokens_round_trip v = true ->
  formatIndent v width level additional = Ok out -> starts_value out.
Proof.
  intros Ht H.
  destruct (compound v) eqn:Hc.
  - rewrite formatIndent_compound in H by exact Hc.
    apply bind_Ok in H as (c & Hcand & H).
    destruct (fits width level additional c).
    + apply Ok_inj in H. subst out.
      now apply (formatOneLine_starts_value v).
    + destruct v; try discriminate; cbn [block_form] in H.
      * rewrite formatArray_eq in H.
        apply bind_Ok in H as (items & _ & H).
        apply bind_Ok in H as (last & _ & H). apply Ok_inj in H. subst out.
        destruct (with_commas items); simpl; repeat split; discriminate.
      * rewrite formatObject_eq in H by now apply keys_of_length.
        apply bind_Ok in H as (items & _ & H).
        apply bind_Ok in H as (last & _ & H). apply Ok_inj in H. subst out.
        destruct (with_commas items); simpl; repeat split; discriminate.
  - rewrite formatIndent_scalar in H;
      [| destruct v; try discriminate; auto | exact Ht].
    now apply (formatOneLine_starts_value v).
Qed.

End Scalars.

Lemma commas_prefix (w p : string) (ps : list string) (close : string) :
  commas ((w ++ p) :: ps) close = w ++ commas (p :: ps) close.
Proof. destruct ps; simpl; now rewrite !app_assoc_s. Qed.

Lemma ws_not_number_char (c : ascii) : is_ws c = true -> is_number_char c = false.
Proof.
  unfold is_ws, is_number_char. intros H.
  repeat (apply orb_true_iff in H as [H|H]); apply N.eqb_eq in H; rewrite H;
    reflexivity.
Qed.

Lemma ends_number_close (w b rest : string) :
  all_ws w = true -> ends_number (b ++ rest) -> ends_number (w ++ b ++ rest).
Proof.
  destruct w as [|c w]; simpl; intros Hw Hb; [exact Hb|].
  apply andb_true_iff in Hw as [Hc _]. now apply ws_not_number_char.
Qed.

Lemma map_insert_fresh (k : string) (v : value) (acc : list (string * value)) :
  ~ In k (map fst acc) -> map_insert k v acc = (acc ++ [(k, v)])%list.
Proof.
  induction acc as [|[k' v'] acc IH]; simpl; intros Hk; [reflexivity|].
  destruct (String.eqb_spec k k') as [->|Hne]; [tauto|].
  rewrite IH; [reflexivity | tauto].
Qed.

Section DecodeLoops.

Context {D : Decoder}.

Variable pv : string -> option (value * string).

Lemma parse_elements_commas (vs : list value) (pieces : list string)
    (w rest : string) :
  Forall2 (reads pv) vs pieces ->
  vs <> [] -> all_ws w = true ->
  forall k acc, (List.length vs <= k)%nat ->
  parse_elements k pv (commas pieces (w ++ "]") ++ rest) acc =
  Some (Array (acc ++ vs)%list, rest).
Proof.
  intros HF. induction HF as [|v p vs ps Hv HF IH]; intros Hne Hw k acc Hk;
    [congruence|].
  destruct k as [|k]; [simpl in Hk; lia|].
  destruct HF as [|v2 p2 vs ps Hv2 HF].
  - cbn [commas parse_elements].
    rewrite !app_assoc_s.
    rewrite (Hv (w ++ "]" ++ rest))
      by (apply ends_number_close; [exact Hw | reflexivity]).
    rewrite (skip_ws_all_ws w _ Hw). reflexivity.
  - assert (Hc : commas (p :: p2 :: ps) (w ++ "]") =
                 p ++ "," ++ commas (p2 :: ps) (w ++ "]")) by reflexivity.
    rewrite Hc, !app_assoc_s. cbn [parse_elements].
    rewrite (Hv ("," ++ commas (p2 :: ps) (w ++ "]") ++ rest)) by reflexivity.
    change (skip_ws ("," ++ commas (p2 :: ps) (w ++ "]") ++ rest))
      with ("," ++ commas (p2 :: ps) (w ++ "]") ++ rest).
    change ("," ++ commas (p2 :: ps) (w ++ "]") ++ rest)
      with (String "," (commas (p2 :: ps) (w ++ "]") ++ rest)).
    cbv iota beta. change (N_of_ascii "," =? 44)%N with true. cbv iota.
    rewrite IH; [|discriminate | exact Hw | simpl in *; lia].
    unfold append. now rewrite <- app_assoc.
Qed.

Lemma parse_members_commas (kvs : list (string * value)) (pieces : list string)
    (w rest : string) :
  Forall2 (member_reads pv) kvs pieces ->
  kvs <> [] -> all_ws w = true ->
  forall k acc, (List.length kvs <= k)%nat ->
  NoDup (map fst (acc ++ kvs)) ->
  parse_members k pv (commas pieces (w ++ "}") ++ rest) acc =
  Some (Object (acc ++ kvs)%list, rest).
Proof.
  intros HF. induction HF as [|kv p kvs ps Hkv HF IH];
    intros Hne Hw k acc Hk Hnd; [congruence|].
  destruct k as [|k]; [simpl in Hk; lia|].
  destruct Hkv as (w0 & q & body & d & -> & Hw0 & Hq & Hscan & Hun & Hd).
  destruct kv as [key v]. cbn [fst snd] in *.
  assert (Hfresh : ~ In key (map fst acc)).
  { rewrite map_app in Hnd. apply NoDup_remove_2 in Hnd.
    intros Hin. apply Hnd. apply in_or_app. now left. }
  assert (Hqws : is_ws q = false) by (unfold is_ws; now rewrite Hq).
  assert (Hstep : forall tail,
            ends_number tail ->
            parse_members (S k) pv
              ((w0 ++ String q body ++ ": " ++ d) ++ tail) acc =
            match skip_ws tail with
            | String c' r2 =>
                if (N_of_ascii c' =? 44)%N
                then parse_members k pv r2 (map_insert key v acc)
                else if (N_of_ascii c' =? 125)%N
                then Some (Object (map_insert key v acc), r2)
                else None
            | EmptyString => None
            end).
  { intros tail Htail. cbn [parse_members].
    rewrite !app_assoc_s, (skip_ws_all_ws w0 _ Hw0).
    change (String q body ++ ": " ++ d ++ tail)
      with (String q (body ++ ": " ++ d ++ tail)).
    cbn [skip_ws]. rewrite Hqws, Hq. cbn [N.eqb Pos.eqb].
    rewrite (scan_string_app body body "" _ Hscan), Hun.
    change ("" ++ ": " ++ d ++ tail) with (String ":" (" " ++ d ++ tail)).
    cbn [skip_ws]. change (is_ws ":") with false. cbv iota.
    change (N_of_ascii ":" =? 58)%N with true. cbv iota.
    rewrite <- app_assoc_s. rewrite (Hd tail Htail). reflexivity. }
  destruct HF as [|kv2 p2 kvs ps Hkv2 HF].
  - cbn [commas].
    rewrite (app_assoc_s _ (w ++ "}") rest), (app_assoc_s w "}" rest).
    rewrite Hstep by (apply ends_number_close; [exact Hw | reflexivity]).
    rewrite (skip_ws_all_ws w _ Hw).
    change (skip_ws ("}" ++ rest)) with (String "}" rest).
    cbv iota beta. change (N_of_ascii "}" =? 44)%N with false.
    change (N_of_ascii "}" =? 125)%N with true. cbv iota.
    now rewrite map_insert_fresh.
  - assert (Hc : commas ((w0 ++ String q body ++ ": " ++ d) :: p2 :: ps)
                   (w ++ "}") =
                 (w0 ++ String q body ++ ": " ++ d) ++ "," ++
                 commas (p2 :: ps) (w ++ "}")) by reflexivity.
    rewrite Hc, app_assoc_s. rewrite Hstep by reflexivity.
    change (skip_ws (("," ++ commas (p2 :: ps) (w ++ "}")) ++ rest))
      with (String "," (commas (p2 :: ps) (w ++ "}") ++ rest)).
    cbv iota beta. change (N_of_ascii "," =? 44)%N with true. cbv iota.
    rewrite map_insert_fresh by exact Hfresh.
    rewrite IH; [|discriminate | exact Hw | simpl in *; lia |].
    + now rewrite <- app_assoc.
    + now rewrite <- app_assoc.
Qed.

End DecodeLoops.

Lemma Join_commas_oneline (d : string) (ds : list string) (close : string) :
  Join (d :: ds) ", " ++ close =
  commas (d :: map (fun x => " " ++ x) ds) close.
Proof.
  revert d. induction ds as [|d2 ds IH]; intros d; [reflexivity|].
  rewrite Join_cons2, !app_assoc_s, IH.
  transitivity
    (d ++ "," ++ (" " ++ commas (d2 :: map (fun x => " " ++ x) ds) close));
    [reflexivity|].
  rewrite <- commas_prefix. reflexivity.
Qed.

Lemma Join_with_commas_block (i1 : string) (items : list string) (last : string) :
  Join (with_commas (i1 :: items) ++ [last])%list nl =
  commas (i1 :: map (fun i => nl ++ i) items) (nl ++ last).
Proof.
  revert i1. induction items as [|i2 items IH]; intros i1; [reflexivity|].
  rewrite with_commas_cons.
  change (((i1 ++ ",")%string :: with_commas (i2 :: items)) ++ [last])%list
    with ((i1 ++ ",")%string :: (with_commas (i2 :: items) ++ [last]))%list.
  assert (Hne : exists y l, (with_commas (i2 :: items) ++ [last])%list = y :: l).
  { destruct (with_commas (i2 :: items)); simpl; eauto. }
  destruct Hne as (y & l & Hyl). rewrite Hyl, Join_cons2, <- Hyl, IH.
  rewrite <- commas_prefix, !app_assoc_s. reflexivity.
Qed.

Lemma mapM_Forall2 {A B : Type} (f : A -> result B) (l : list A) (ys : list B) :
  mapM f l = Ok ys -> Forall2 (fun x y => f x = Ok y) l ys.
Proof.
  revert ys. induction l as [|x l IH]; intros ys H; simpl in H.
  - apply Ok_inj in H. subst. constructor.
  - apply bind_Ok in H as (y & Hy & H).
    apply bind_Ok in H as (ys' & Hys & H). apply Ok_inj in H. subst.
    constructor; auto.
Qed.

Lemma distinct_NoDup (l : list string) : distinct l = true -> NoDup l.
Proof.
  induction l as [|k l IH]; simpl; intros H; [constructor|].
  apply andb_true_iff in H as [Hk Hl]. constructor; [|now apply IH].
  intros Hin. apply negb_true_iff in Hk.
  assert (existsb (String.eqb k) l = true); [|congruence].
  apply existsb_exists. exists k. split; [exact Hin | apply String.eqb_refl].
Qed.

Lemma steps_Array (a : list value) (x : value) :
  In x a -> (steps x <= fold_right (fun x acc => Nat.max (steps x) acc) O a)%nat.
Proof.
  induction a as [|y a IH]; intros Hx; [destruct Hx|].
  cbn [fold_right]. destruct Hx as [->|Hx]; [lia|]. specialize (IH Hx). lia.
Qed.

Lemma steps_Object (m : list (string * value)) (k : string) (x : value) :
  In (k, x) m ->
  (steps x <= fold_right
     (fun kv acc => let '(_, x) := kv in Nat.max (steps x) acc) O m)%nat.
Proof.
  induction m as [|[k' y] m IH]; intros Hx; [destruct Hx|].
  cbn [fold_right]. destruct Hx as [[= -> ->]|Hx]; [lia|].
  specialize (IH Hx). lia.
Qed.

Section DecodeUnfold.

Context {D : Decoder}.

Lemma parse_value_array (fuel : nat) (r : string) :
  parse_value (S fuel) (String "[" r) =
  match skip_ws r with
  | String c' r' =>
      if (N_of_ascii c' =? 93)%N then Some (Array [], r')
      else parse_elements fuel (parse_value fuel) r []
  | EmptyString => None
  end.
Proof. reflexivity. Qed.

Lemma parse_value_object (fuel : nat) (r : string) :
  parse_value (S fuel) (String "{" r) =
  match skip_ws r with
  | String c' r' =>
      if (N_of_ascii c' =? 125)%N then Some (Object [], r')
      else parse_members fuel (parse_value fuel) r []
  | EmptyString => None
  end.
Proof. reflexivity. Qed.

Lemma skip_ws_starts_value (d rest : string) :
  starts_value d ->
  exists c r, skip_ws (d ++ rest) = String c r /\ d ++ rest = String c r /\
              N_of_ascii c <> 93%N /\ N_of_ascii c <> 125%N.
Proof.
  destruct d as [|c d]; [intros []|]. intros (Hws & H1 & H2).
  exists c, (d ++ rest). simpl. rewrite Hws. auto.
Qed.

End DecodeUnfold.

Lemma commas_head (p : string) (ps : list string) (close : string) :
  exists t, commas (p :: ps) close = p ++ t.
Proof. destruct ps; simpl; eauto. Qed.

Lemma Forall2_In_l {A B : Type} (R S : A -> B -> Prop) (l : list A) (l' : list B) :
  Forall2 R l l' -> (forall x y, In x l -> R x y -> S x y) -> Forall2 S l l'.
Proof.
  induction 1 as [|x y l l' Hxy HF IH]; intros H; constructor.
  - apply H; [now left | exact Hxy].
  - apply IH. intros x' y' Hin. apply H. now right.
Qed.

Lemma Forall2_map_both {A B C D : Type} (R : C -> D -> Prop)
    (g : A -> C) (h : B -> D) (l : list A) (l' : list B) :
  Forall2 (fun x y => R (g x) (h y)) l l' -> Forall2 R (map g l) (map h l').
Proof. induction 1; simpl; constructor; auto. Qed.

Section TokenFacts.

Context {E : Env} {D : Decoder}.

Lemma tokens_Array (a : list value) (x : value) :
  tokens_round_trip (Array a) = true -> In x a -> tokens_round_trip x = true.
Proof.
  cbn [tokens_round_trip]. intros H Hx. rewrite forallb_forall in H. auto.
Qed.

Lemma tokens_Object (m : list (string * value)) (k : string) (x : value) :
  tokens_round_trip (Object m) = true -> In (k, x) m ->
  string_round_trip k = true /\ tokens_round_trip x = true.
Proof.
  cbn [tokens_round_trip]. intros H Hx. rewrite forallb_forall in H.
  specialize (H _ Hx). now apply andb_true_iff in H.
Qed.

Lemma maps_ok_Array (a : list value) (x : value) :
  maps_ok (Array a) = true -> In x a -> maps_ok x = true.
Proof.
  cbn [maps_ok]. intros H Hx. rewrite forallb_forall in H. auto.
Qed.

Lemma maps_ok_Object (m : list (string * value)) (k : string) (x : value) :
  maps_ok (Object m) = true -> In (k, x) m -> maps_ok x = true.
Proof.
  cbn [maps_ok]. intros H Hx. apply andb_true_iff in H as [_ H].
  rewrite forallb_forall in H. exact (H _ Hx).
Qed.

Lemma maps_ok_keys (m : list (string * value)) :
  maps_ok (Object m) = true -> NoDup (sort_Strings (map fst m)).
Proof.
  cbn [maps_ok]. intros H. apply andb_true_iff in H as [H _].
  apply (Permutation_NoDup (Permutation_sym (sort_Strings_perm _))).
  now apply distinct_NoDup.
Qed.

Lemma reads_of_parse (f : nat) (v : value) (d : string) :
  (forall rest, ends_number rest -> parse_value f (d ++ rest) = Some (v, rest)) ->
  forall w, all_ws w = true -> reads (parse_value f) v (w ++ d).
Proof.
  intros H w Hw R HR. rewrite app_assoc_s, parse_value_ws by exact Hw.
  now apply H.
Qed.

End TokenFacts.

Section RoundTrip.

Context {E : Env} {D : Decoder}.

Hypothesis sorted : sortKeys = true.
Hypothesis range_block_perm : forall l, Permutation (range_block l) l.
Hypothesis range_oneline_perm : forall l, Permutation (range_oneline l) l.

(** The decoder reads the one-line form of a value back as its sorted
    value. *)
Lemma parse_formatOneLine (v : value) :
  tokens_round_trip v = true -> maps_ok v = true ->
  forall c fuel rest,
  formatOneLine v = Ok c -> (steps v <= fuel)%nat -> ends_number rest ->
  parse_value fuel (c ++ rest) = Some (sorted_value v, rest).
Proof.
  induction v as [ | b | f | s | a IHa | m IHm | ty ] using value_induction;
    intros Ht Hm c fuel rest Hc Hfuel Hrest;
    try (destruct fuel as [|fuel]; [simpl in Hfuel; lia|];
         now apply parse_oneline_scalar).
  - (* arrays *)
    cbn [formatOneLine] in Hc. rewrite formatArrayOneLine_eq in Hc.
    apply bind_Ok in Hc as (ds & Hds & Hc). apply Ok_inj in Hc. subst c.
    destruct fuel as [|f]; [simpl in Hfuel; lia|].
    cbn [steps] in Hfuel.
    change (("[" ++ Join ds ", " ++ "]") ++ rest)
      with (String "[" ((Join ds ", " ++ "]") ++ rest)).
    rewrite parse_value_array.
    pose proof (mapM_Forall2 _ _ _ Hds) as HF.
    destruct HF as [|x d a' ds' Hx HF]; [reflexivity|].
    rewrite Join_commas_oneline.
    destruct (commas_head d (map (fun x => " " ++ x) ds') "]") as [t Ht'].
    assert (Hsv : starts_value d).
    { apply (formatOneLine_starts_value x); [|exact Hx].
      apply (tokens_Array _ _ Ht). now left. }
    destruct (skip_ws_starts_value d (t ++ rest) Hsv) as (ch & r & Hskip & _ & Hch & _).
    rewrite Ht' at 1. rewrite app_assoc_s, Hskip.
    apply N.eqb_neq in Hch. rewrite Hch.
    change (commas (d :: map (fun x => " " ++ x) ds') "]")
      with (commas (d :: map (fun x => " " ++ x) ds') ("" ++ "]")).
    cbn [sorted_value].
    rewrite (parse_elements_commas (parse_value f) (map sorted_value (x :: a')));
      [reflexivity | | discriminate | reflexivity | rewrite length_map; lia].
    assert (Hall : Forall2
              (fun x d => forall w, all_ws w = true ->
                          reads (parse_value f) (sorted_value x) (w ++ d))
              (x :: a') (d :: ds')).
    { apply (Forall2_In_l (fun x d => formatOneLine x = Ok d));
        [constructor; assumption|].
      intros y dy Hy Hdy. apply reads_of_parse. intros R HR.
      rewrite Forall_forall in IHa.
      apply (IHa y Hy); auto.
      - exact (tokens_Array _ _ Ht Hy).
      - exact (maps_ok_Array _ _ Hm Hy).
      - pose proof (steps_Array _ _ Hy). lia. }
    inversion Hall as [|? ? ? ? H1 H2]; subst.
    cbn [map]. constructor.
    + exact (H1 "" eq_refl).
    + apply Forall2_map_both.
      apply (Forall2_In_l _ _ _ _ H2). intros y dy _ Hy. now apply (Hy " ").
  - (* objects *)
    cbn [formatOneLine] in Hc. rewrite formatObjectOneLine_eq in Hc.
    rewrite (keys_of_sorted range_oneline m sorted range_oneline_perm) in Hc.
    apply bind_Ok in Hc as (ds & Hds & Hc). apply Ok_inj in Hc. subst c.
    destruct fuel as [|f]; [simpl in Hfuel; lia|].
    cbn [steps] in Hfuel.
    change (("{" ++ Join ds ", " ++ "}") ++ rest)
      with (String "{" ((Join ds ", " ++ "}") ++ rest)).
    rewrite parse_value_object, sorted_value_Object.
    pose proof (maps_ok_keys m Hm) as Hnd.
    assert (Hlen : List.length (sort_Strings (map fst m)) = List.length m).
    { rewrite (Permutation_length (sort_Strings_perm _)). apply length_map. }
    assert (Hin : forall k, In k (sort_Strings (map fst m)) -> In k (map fst m)).
    { intros k. apply Permutation_in, sort_Strings_perm. }
    unfold sorted_entries.
    revert Hds Hnd Hlen Hin. generalize (sort_Strings (map fst m)) as keys.
    intros keys Hds Hnd Hlen Hin.
    assert (Hall : Forall2
              (fun k p => forall w, all_ws w = true ->
                 member_reads (parse_value f)
                   (k, match lookup k (map (fun kv => (fst kv, sorted_value (snd kv))) m)
                       with Some x => x | None => Null end)
                   (w ++ p) /\ starts_value p)
              keys ds).
    { apply (Forall2_In_l _ _ _ _ (mapM_Forall2 _ _ _ Hds)).
      intros k p Hk Hp w Hw.
      destruct (lookup_some_of_key k m (Hin k Hk)) as [x Hx].
      pose proof (lookup_In k m x Hx) as Hkx.
      destruct (tokens_Object m k x Ht Hkx) as [Hsk Htx].
      unfold oneline_entry, entry_or_null in Hp.
      rewrite lookup_each_entry, Hx in Hp. simpl in Hp.
      apply bind_Ok in Hp as (d & Hd & Hp). apply Ok_inj in Hp. subst p.
      apply string_round_trip_inv in Hsk as (q & body & Hq1 & Hq & Hscan & Hun).
      rewrite Hq1. split.
      - exists w, q, body, d. cbn [fst snd].
        rewrite lookup_map, Hx. cbn [option_map].
        repeat split; auto.
        apply (reads_of_parse f (sorted_value x) d); [|reflexivity].
        intros R HR. rewrite Forall_forall in IHm.
        apply (IHm (k, x) Hkx); auto.
        + exact (maps_ok_Object m k x Hm Hkx).
        + pose proof (steps_Object m k x Hkx). cbn [snd]. lia.
      - simpl. unfold is_ws. rewrite Hq. repeat split; discriminate. }
    destruct Hall as [|k p keys' ps Hkp Hall]; [reflexivity|].
    rewrite Join_commas_oneline.
    destruct (commas_head p (map (fun x => " " ++ x) ps) "}") as [t Ht'].
    destruct (Hkp "" eq_refl) as [Hfirst Hsv].
    destruct (skip_ws_starts_value p (t ++ rest) Hsv)
      as (ch & r & Hskip & _ & _ & Hch).
    rewrite Ht' at 1. rewrite app_assoc_s, Hskip.
    apply N.eqb_neq in Hch. rewrite Hch.
    change (commas (p :: map (fun x => " " ++ x) ps) "}")
      with (commas (p :: map (fun x => " " ++ x) ps) ("" ++ "}")).
    rewrite (parse_members_commas (parse_value f)
               (map (fun k => (k, match lookup k (map (fun kv => (fst kv, sorted_value (snd kv))) m)
                                  with Some x => x | None => Null end))
                    (k :: keys')));
      [reflexivity | | discriminate | reflexivity | rewrite length_map; lia |].
    + cbn [map]. constructor; [exact Hfirst|].
      apply Forall2_map_both.
      apply (Forall2_In_l _ _ _ _ Hall). intros y dy _ Hy.
      exact (proj1 (Hy " " eq_refl)).
    + cbn [app]. rewrite map_map. cbn [fst]. now rewrite map_id.
Qed.

Lemma Join_block_commas (b i1 : string) (items : list string) (last : string) :
  Join (b :: with_commas (i1 :: items) ++ [last])%list nl =
  b ++ commas (map (fun i => nl ++ i) (i1 :: items)) (nl ++ last).
Proof.
  assert (Hne : exists y l,
            (with_commas (i1 :: items) ++ [last])%list = y :: l).
  { destruct (with_commas (i1 :: items)); simpl; eauto. }
  destruct Hne as (y & l & Hyl).
  rewrite Hyl, Join_cons2, <- Hyl, Join_with_commas_block.
  cbn [map]. now rewrite commas_prefix.
Qed.

(** The decoder reads what [formatIndent] writes back as the sorted
    value. *)
Lemma parse_formatIndent (v : value) (width : Z) :
  tokens_round_trip v = true -> maps_ok v = true ->
  forall level additional out fuel rest,
  formatIndent v width level additional = Ok out ->
  (steps v <= fuel)%nat -> ends_number rest ->
  parse_value fuel (out ++ rest) = Some (sorted_value v, rest).
Proof.
  induction v as [ | b | f | s | a IHa | m IHm | ty ] using value_induction;
    intros Ht Hm level additional out fuel rest H Hfuel Hrest;
    try (rewrite formatIndent_scalar in H by (auto; reflexivity);
         now apply (parse_formatOneLine _ Ht Hm)).
  - (* arrays *)
    rewrite formatIndent_compound in H by reflexivity.
    apply bind_Ok in H as (c & Hc & H).
    destruct (fits width level additional c).
    { apply Ok_inj in H. subst out.
      now apply (parse_formatOneLine _ Ht Hm). }
    cbn [block_form] in H. rewrite formatArray_eq in H.
    apply bind_Ok in H as (items & Hitems & H).
    apply bind_Ok in H as (last & Hlast & H). apply Ok_inj in H. subst out.
    unfold closing in Hlast. apply bind_Ok in Hlast as (sp0 & Hsp0 & Hlast).
    apply Ok_inj in Hlast. subst last.
    apply Repeat_space_inv in Hsp0.
    destruct fuel as [|f]; [simpl in Hfuel; lia|].
    cbn [steps] in Hfuel.
    assert (Hall : Forall2
              (fun x i => reads (parse_value f) (sorted_value x) (nl ++ i) /\
                          exists w d, i = w ++ d /\ all_ws w = true /\
                                      starts_value d)
              a items).
    { apply (Forall2_In_l _ _ _ _ (mapM_Forall2 _ _ _ Hitems)).
      intros x i Hx Hi. unfold array_item in Hi.
      apply bind_Ok in Hi as (d & Hd & Hi).
      apply bind_Ok in Hi as (sp1 & Hsp1 & Hi). apply Ok_inj in Hi. subst i.
      apply Repeat_space_inv in Hsp1.
      pose proof (tokens_Array _ _ Ht Hx) as Htx.
      split.
      - rewrite <- app_assoc_s.
        apply (reads_of_parse f (sorted_value x) d).
        + intros R HR. rewrite Forall_forall in IHa.
          apply (IHa x Hx Htx (maps_ok_Array _ _ Hm Hx) _ _ _ _ _ Hd); auto.
          pose proof (steps_Array _ _ Hx). lia.
        + subst sp1. apply all_ws_app; [reflexivity | apply all_ws_spaces].
      - exists sp1, d. split; [reflexivity|]. split.
        + subst sp1. apply all_ws_spaces.
        + exact (formatIndent_starts_value range_block_perm _ _ _ _ _ Htx Hd). }
    destruct Hall as [|x i1 a' items' [Hx1 (w1 & d1 & Hi1 & Hw1 & Hsv1)] Hall].
    + (* the empty array *)
      cbn [with_commas app]. rewrite Join_cons2. cbn [Join String.concat].
      rewrite !app_assoc_s. cbn [String.append].
      rewrite parse_value_array.
      rewrite (skip_ws_all_ws nl), (skip_ws_all_ws sp0)
        by (subst sp0; first [reflexivity | apply all_ws_spaces]).
      reflexivity.
    + rewrite Join_block_commas.
      change (("[" ++ commas (map (fun i => nl ++ i) (i1 :: items'))
                        (nl ++ sp0 ++ "]")) ++ rest)
        with (String "["
                (commas (map (fun i => nl ++ i) (i1 :: items'))
                        (nl ++ sp0 ++ "]") ++ rest)).
      rewrite parse_value_array.
      destruct (commas_head (nl ++ i1) (map (fun i => nl ++ i) items')
                  (nl ++ sp0 ++ "]")) as [t Ht'].
      cbn [map]. rewrite Ht' at 1. subst i1.
      replace (((nl ++ w1 ++ d1) ++ t) ++ rest)
        with ((nl ++ w1) ++ d1 ++ t ++ rest) by now rewrite !app_assoc_s.
      rewrite (skip_ws_all_ws (nl ++ w1))
        by (apply all_ws_app; [reflexivity | exact Hw1]).
      destruct (skip_ws_starts_value d1 (t ++ rest) Hsv1)
        as (ch & r & Hskip & _ & Hch & _).
      rewrite Hskip. apply N.eqb_neq in Hch. rewrite Hch.
      rewrite <- (app_assoc_s nl sp0 "]").
      cbn [sorted_value].
      rewrite (parse_elements_commas (parse_value f) (map sorted_value (x :: a'))
                 ((nl ++ w1 ++ d1) :: map (fun i => nl ++ i) items'));
        [reflexivity | | discriminate | | rewrite length_map; lia].
      * cbn [map]. constructor; [exact Hx1|].
        apply Forall2_map_both.
        clear -Hall. induction Hall as [|y i ys is_ [Hy _] _ IH];
          simpl; constructor; auto.
      * subst sp0. apply all_ws_app; [reflexivity | apply all_ws_spaces].
  - (* objects *)
    rewrite formatIndent_compound in H by reflexivity.
    apply bind_Ok in H as (c & Hc & H).
    destruct (fits width level additional c).
    { apply Ok_inj in H. subst out.
      now apply (parse_formatOneLine _ Ht Hm). }
    cbn [block_form] in H.
    rewrite formatObject_eq in H by now apply keys_of_length.
    rewrite (keys_of_sorted range_block m sorted range_block_perm) in H.
    apply bind_Ok in H as (items & Hitems & H).
    apply bind_Ok in H as (last & Hlast & H). apply Ok_inj in H. subst out.
    unfold closing in Hlast. apply bind_Ok in Hlast as (sp0 & Hsp0 & Hlast).
    apply Ok_inj in Hlast. subst last.
    apply Repeat_space_inv in Hsp0.
    destruct fuel as [|f]; [simpl in Hfuel; lia|].
    cbn [steps] in Hfuel.
    rewrite sorted_value_Object.
    pose proof (maps_ok_keys m Hm) as Hnd.
    assert (Hlen : List.length (sort_Strings (map fst m)) = List.length m).
    { rewrite (Permutation_length (sort_Strings_perm _)). apply length_map. }
    assert (Hin : forall k, In k (sort_Strings (map fst m)) -> In k (map fst m)).
    { intros k. apply Permutation_in, sort_Strings_perm. }
    unfold sorted_entries.
    revert Hitems Hnd Hlen Hin. generalize (sort_Strings (map fst m)) as keys.
    intros keys Hitems Hnd Hlen Hin.
    assert (Hall : Forall2
              (fun k i =>
                 member_reads (parse_value f)
                   (k, match lookup k (map (fun kv => (fst kv, sorted_value (snd kv))) m)
                       with Some x => x | None => Null end)
                   (nl ++ i) /\
                 exists w d, i = w ++ d /\ all_ws w = true /\ starts_value d)
              keys items).
    { apply (Forall2_In_l _ _ _ _ (mapM_Forall2 _ _ _ Hitems)).
      intros k i Hk Hi.
      destruct (lookup_some_of_key k m (Hin k Hk)) as [x Hx].
      pose proof (lookup_In k m x Hx) as Hkx.
      destruct (tokens_Object m k x Ht Hkx) as [Hsk Htx].
      unfold object_item, entry_or_null, block_vals in Hi.
      rewrite lookup_each_entry, Hx in Hi. simpl in Hi.
      apply bind_Ok in Hi as (d & Hd & Hi).
      apply bind_Ok in Hi as (sp1 & Hsp1 & Hi). apply Ok_inj in Hi. subst i.
      apply Repeat_space_inv in Hsp1.
      apply string_round_trip_inv in Hsk as (q & body & Hq1 & Hq & Hscan & Hun).
      rewrite Hq1. split.
      - exists (nl ++ sp1), q, body, d. cbn [fst snd].
        rewrite lookup_map, Hx. cbn [option_map].
        split; [now rewrite !app_assoc_s|].
        split; [subst sp1; apply all_ws_app; [reflexivity | apply all_ws_spaces]|].
        repeat split; auto.
        apply (reads_of_parse f (sorted_value x) d); [|reflexivity].
        intros R HR. rewrite Forall_forall in IHm.
        apply (IHm (k, x) Hkx Htx (maps_ok_Object m k x Hm Hkx) _ _ _ _ _ Hd);
          auto.
        pose proof (steps_Object m k x Hkx). cbn [snd]. lia.
      - exists sp1, (String q body ++ ": " ++ d). split; [reflexivity|].
        split; [subst sp1; apply all_ws_spaces|].
        simpl. unfold is_ws. rewrite Hq. repeat split; discriminate. }
    destruct Hall as [|k i1 keys' items' [Hk1 (w1 & d1 & Hi1 & Hw1 & Hsv1)] Hall].
    + (* the empty object *)
      cbn [with_commas app]. rewrite Join_cons2. cbn [Join String.concat].
      rewrite !app_assoc_s. cbn [String.append].
      rewrite parse_value_object.
      rewrite (skip_ws_all_ws nl), (skip_ws_all_ws sp0)
        by (subst sp0; first [reflexivity | apply all_ws_spaces]).
      reflexivity.
    + rewrite Join_block_commas.
      change (("{" ++ commas (map (fun i => nl ++ i) (i1 :: items'))
                        (nl ++ sp0 ++ "}")) ++ rest)
        with (String "{"
                (commas (map (fun i => nl ++ i) (i1 :: items'))
                        (nl ++ sp0 ++ "}") ++ rest)).
      rewrite parse_value_object.
      destruct (commas_head (nl ++ i1) (map (fun i => nl ++ i) items')
                  (nl ++ sp0 ++ "}")) as [t Ht'].
      cbn [map]. rewrite Ht' at 1. subst i1.
      replace (((nl ++ w1 ++ d1) ++ t) ++ rest)
        with ((nl ++ w1) ++ d1 ++ t ++ rest) by now rewrite !app_assoc_s.
      rewrite (skip_ws_all_ws (nl ++ w1))
        by (apply all_ws_app; [reflexivity | exact Hw1]).
      destruct (skip_ws_starts_value d1 (t ++ rest) Hsv1)
        as (ch & r & Hskip & _ & _ & Hch).
      rewrite Hskip. apply N.eqb_neq in Hch. rewrite Hch.
      rewrite <- (app_assoc_s nl sp0 "}").
      rewrite (parse_members_commas (parse_value f)
                 (map (fun k => (k, match lookup k (map (fun kv => (fst kv, sorted_value (snd kv))) m)
                                    with Some x => x | None => Null end))
                      (k :: keys'))
                 ((nl ++ w1 ++ d1) :: map (fun i => nl ++ i) items'));
        [reflexivity | | discriminate | | rewrite length_map; lia |].
      * cbn [map]. constructor; [exact Hk1|].
        apply Forall2_map_both.
        clear -Hall. induction Hall as [|y i ys is_ [Hy _] _ IH];
          simpl; constructor; auto.
      * subst sp0. apply all_ws_app; [reflexivity | apply all_ws_spaces].
      * cbn [app]. rewrite map_map. cbn [fst]. now rewrite map_id.
Qed.

(** C6, as the code has it.  With [sort_keys] set, take a value whose
    objects have distinct keys and whose tokens the decoder reads back
    as they were written: every string and every key as itself, and
    every number, which ["%.f"] and [json.Marshal] write alike, as
    itself.  Then the decoder reads the output of the formatter, and
    formatting what it reads with the same options gives the same
    bytes. *)
Theorem format_idempotent_sorted (v : value) (width : Z) (out : string) :
  tokens_round_trip v = true -> maps_ok v = true ->
  formatIndent v width 0 0 = Ok out ->
  exists v',
    (forall fuel, (steps v <= fuel)%nat -> decode fuel out = Some v') /\
    formatIndent v' width 0 0 = Ok out.
Proof.
  intros Ht Hm H. exists (sorted_value v). split.
  - intros fuel Hfuel. unfold decode.
    rewrite <- (app_empty_r out).
    now rewrite (parse_formatIndent v width Ht Hm 0 0 out fuel "" H Hfuel I).
  - now rewrite formatIndent_sorted_value.
Qed.

End RoundTrip.

(** ** The properties on concrete documents *)

Lemma in_order_perm (l : list string) : Permutation (in_order l) l.
Proof. reflexivity. Qed.

Lemma formatIndent_one_line_iff_fits_witness :
  let v := Array [num 1 0; num 2 0] in
  compound v = true /\
  formatOneLine (E := default_env) v = Ok "[1, 2]" /\
  (formatIndent (E := default_env) v 80 0 0 = Ok "[1, 2]" <->
   fits (E := default_env) 80 0 0 "[1, 2]" = true).
Proof.
  intros v.
  assert (Hc : compound v = true) by reflexivity.
  assert (Hd : formatOneLine (E := default_env) v = Ok "[1, 2]")
    by (vm_compute; reflexivity).
  split; [exact Hc|]. split; [exact Hd|].
  exact (proj1 (proj2
    (formatIndent_one_line_iff_fits (E := default_env) v 80 0 0 "[1, 2]"
       GoLibFacts.marshal_string_one_line GoLibFacts.marshal_float_one_line
       Hc Hd))).
Defined.

Lemma closing_bracket_indent_witness :
  let v := Array [num 1 0; num 2 0] in
  let out := "[" ++ nl ++ "    1," ++ nl ++ "    2" ++ nl ++ "  ]" in
  block_form (E := default_env) v 3 1 = Ok out /\
  last (lines out) "" = "  ]".
Proof.
  intros v out.
  assert (Hb : block_form (E := default_env) v 3 1 = Ok out)
    by (vm_compute; reflexivity).
  split; [exact Hb|].
  exact (proj1 (proj2 (proj2
    (closing_bracket_indent (E := default_env) v 3 1 out eq_refl Hb)))).
Defined.

Lemma block_recursion_arguments_witness :
  formatObject (E := default_env) (formatIndent (E := default_env))
    [("k", Array [num 1 0; num 2 0])] 8 0 =
  Ok ("{" ++ nl ++ "  " ++ GoLib.dquote ++ "k" ++ GoLib.dquote ++ ": [" ++ nl ++
      "    1," ++ nl ++ "    2" ++ nl ++ "  ]" ++ nl ++ "}").
Proof.
  rewrite (proj2 (block_recursion_arguments (E := default_env) 8 0 in_order_perm)).
  vm_compute. reflexivity.
Defined.

(** C7 fails as stated: at width 1 an empty array is broken over two
    lines. *)
Lemma empty_array_breaks :
  formatIndent (E := default_env) (Array []) 1 0 0 = Ok ("[" ++ nl ++ "]") /\
  formatIndent (E := default_env) (Array []) 1 0 0 <> Ok "[]".
Proof.
  split; [vm_compute; reflexivity | vm_compute; discriminate].
Qed.

Lemma empty_compound_format_witness :
  formatIndent (E := default_env) (Array []) 1 0 0 = Ok ("[" ++ nl ++ "]") /\
  formatIndent (E := default_env) (Object []) 2 0 0 = Ok "{}" /\
  formatIndent (E := default_env) (Object []) 3 1 0 =
    Ok ("{" ++ nl ++ "  }").
Proof.
  split; [|split].
  - rewrite (proj1 (empty_compound_format (E := default_env) 1 0 0
                      in_order_perm in_order_perm)).
    vm_compute. reflexivity.
  - rewrite (proj1 (proj2 (empty_compound_format (E := default_env) 2 0 0
                             in_order_perm in_order_perm))).
    vm_compute. reflexivity.
  - rewrite (proj1 (proj2 (empty_compound_format (E := default_env) 3 1 0
                             in_order_perm in_order_perm))).
    vm_compute. reflexivity.
Defined.


(** Nor does it hold for every indentation that fits Go's [int]: with
    the flag [-indent] at [2^62] the block form of [[1]] asks
    [strings.Repeat] for [2^62] spaces, more than the runtime
    allocates. *)
Lemma large_indent_panics :
  closed (Array [num 1 0]) = true /\
  formatIndent (E := go_env (2 ^ 62) false in_order in_order)
    (Array [num 1 0]) 0 0 0 = Err RepeatTooLong.
Proof.
  split; vm_compute; reflexivity.
Qed.


(** C5 fails as stated: without [sort_keys], when the runtime walks the
    map of the document [{"b":1,"a":2}] from its last entry to its
    first, which is one of the orders [range] may take, the keys come
    out as [a], [b] and not in the order of the document. *)
Lemma map_order_not_decode_order :
  (forall l, Permutation (range_block (Env := reversed_env) l) l) /\
  (forall l, Permutation (range_oneline (Env := reversed_env) l) l) /\
  sortKeys (Env := reversed_env) = false /\
  formatIndent (E := reversed_env) (Object [("b", num 1 0); ("a", num 2 0)])
    80 0 0 =
  Ok ("{" ++ GoLib.dquote ++ "a" ++ GoLib.dquote ++ ": 2, " ++
      GoLib.dquote ++ "b" ++ GoLib.dquote ++ ": 1}").
Proof.
  repeat split; try (intros l; symmetry; apply Permutation_rev).
Qed.

Lemma object_key_order_witness :
  let m := [("b", num 1 0); ("a", num 2 0)] in
  let E := go_env 2 true in_order in_order in
  keys_of (E := E) range_oneline m = ["a"; "b"] /\
  Permutation (keys_of (E := E) range_oneline m) (map fst m) /\
  Sorted (fun a b => string_leb a b = true) (keys_of (E := E) range_oneline m).
Proof.
  intros m E. split; [reflexivity|].
  pose proof (object_key_order (E := E) m 80 0 in_order_perm in_order_perm)
    as (_ & _ & Hp & _ & Hs & _).
  split; [exact Hp | exact (proj1 (Hs eq_refl))].
Defined.

(** C1 fails on the code: [3.7] on its own is written as [4], inside a
    one-line array it is written as [3.7]. *)
Lemma number_in_one_line_form_not_rounded :
  formatIndent (E := default_env) (num 37 (-1)) 80 0 0 = Ok "4" /\
  formatIndent (E := default_env) (Array [num 37 (-1)]) 80 0 0 = Ok "[3.7]".
Proof. split; vm_compute; reflexivity. Qed.

(** C9 fails on the code: a sink that takes four bytes at a time is sent
    the whole text again after the first short write, and so receives
    the first four bytes of [[1, 2]] twice. *)
Lemma short_write_resends_prefix :
  formatIndent (E := default_env) (Array [num 1 0; num 2 0]) 80 0 0 =
    Ok "[1, 2]" /\
  encodeJSON (E := default_env) (chunk_sink 4) 10
    (Array [num 1 0; num 2 0]) 80 tt =
  Some (Ok tt, tt, "[1, [1, ").
Proof. split; vm_compute; reflexivity. Qed.

(** C2 fails as stated: at width 11 the line of the first inner array
    has 12 characters, its comma being the twelfth, and no scalar of the
    document has more than one. *)
Lemma comma_line_exceeds_width :
  let inner1 := Array [num 1 0; num 2 0; num 3 0] in
  let inner2 := Array [num 4 0; num 5 0; num 6 0] in
  let out := "[" ++ nl ++ "  [1, 2, 3]," ++ nl ++ "  [4, 5, 6]" ++ nl ++ "]" in
  formatIndent (E := default_env) (Array [inner1; inner2]) 11 0 0 = Ok out /\
  In "  [1, 2, 3]," (lines out) /\
  len "  [1, 2, 3]," = 12 /\
  Forall (fun n => len (scalar_text (E := default_env) (num n 0)) = 1)
    [1; 2; 3; 4; 5; 6].
Proof.
  intros inner1 inner2 out. split; [vm_compute; reflexivity|].
  split; [vm_compute; auto|]. split; [reflexivity|].
  repeat constructor.
Qed.

Lemma line_width_witness :
  let inner1 := Array [num 1 0; num 2 0; num 3 0] in
  let inner2 := Array [num 4 0; num 5 0; num 6 0] in
  Forall (line_ok (E := default_env) 11)
    (lines ("[" ++ nl ++ "  [1, 2, 3]," ++ nl ++ "  [4, 5, 6]" ++ nl ++ "]")).
Proof.
  intros inner1 inner2.
  apply (line_width (E := default_env)
           GoLibFacts.marshal_string_one_line GoLibFacts.marshal_float_one_line
           GoLibFacts.sprintf_f_one_line in_order_perm in_order_perm
           ltac:(simpl; lia)
           (Array [inner1; inner2]) 11 0 0 "[[1, 2, 3], [4, 5, 6]]");
    try (vm_compute; reflexivity); try lia; vm_compute; congruence.
Defined.

(** C6 fails as stated: at width 10 the numbers of [[1.25, 2.25]] are
    rounded in the block form; the decoder reads [[1, 2]] from it, and
    that fits on one line. *)
Lemma rounding_breaks_idempotence :
  let out := "[" ++ nl ++ "  1," ++ nl ++ "  2" ++ nl ++ "]" in
  formatIndent (E := sorted_env) (Array [num 125 (-2); num 225 (-2)]) 10 0 0 =
    Ok out /\
  decode (D := go_decoder) 10 out = Some (Array [num 1 0; num 2 0]) /\
  formatIndent (E := sorted_env) (Array [num 1 0; num 2 0]) 10 0 0 =
    Ok "[1, 2]".
Proof. repeat split; vm_compute; reflexivity. Qed.

(** Without [sort_keys] the order of the keys is that of the run: when
    the runtime walks maps from the last entry to the first, a second
    pass turns the keys around again. *)
Lemma map_order_breaks_idempotence :
  let q := GoLib.dquote in
  let out := "{" ++ q ++ "b" ++ q ++ ": null, " ++ q ++ "k" ++ q ++ ": true}" in
  formatIndent (E := reversed_env) (Object [("k", Bool true); ("b", Null)])
    80 0 0 = Ok out /\
  decode (D := go_decoder) 10 out =
    Some (Object [("b", Null); ("k", Bool true)]) /\
  formatIndent (E := reversed_env) (Object [("b", Null); ("k", Bool true)])
    80 0 0 =
  Ok ("{" ++ q ++ "k" ++ q ++ ": true, " ++ q ++ "b" ++ q ++ ": null}").
Proof. repeat split; vm_compute; reflexivity. Qed.

Lemma format_idempotent_sorted_witness :
  let q := GoLib.dquote in
  let v := Object [("k", Array [Str "a"; Null; num 5 0]); ("b", num 7 0)] in
  let out := "{" ++ nl ++ "  " ++ q ++ "b" ++ q ++ ": 7," ++ nl ++
             "  " ++ q ++ "k" ++ q ++ ": [" ++ nl ++
             "    " ++ q ++ "a" ++ q ++ "," ++ nl ++
             "    null," ++ nl ++ "    5" ++ nl ++ "  ]" ++ nl ++ "}" in
  formatIndent (E := sorted_env) v 10 0 0 = Ok out /\
  exists v',
    (forall fuel, (steps v <= fuel)%nat ->
                  decode (D := go_decoder) fuel out = Some v') /\
    formatIndent (E := sorted_env) v' 10 0 0 = Ok out.
Proof.
  intros q v out.
  assert (H : formatIndent (E := sorted_env) v 10 0 0 = Ok out)
    by (vm_compute; reflexivity).
  split; [exact H|].
  apply (format_idempotent_sorted (E := sorted_env) (D := go_decoder)
           eq_refl in_order_perm in_order_perm v 10 out);
    [vm_compute; reflexivity | vm_compute; reflexivity | exact H].
Defined.

(** ** Further properties: values of unsupported types *)

Lemma mapM_Err {A B : Type} (f : A -> result B) (l : list A) (e : failure) :
  mapM f l = Err e -> exists x, In x l /\ f x = Err e.
Proof.
  induction l as [|a l IH]; simpl; [discriminate|].
  destruct (f a) as [y|e0] eqn:Hf; simpl.
  - destruct (mapM f l) as [ys|e1]; simpl; [discriminate|].
    intros [= ->]. destruct (IH eq_refl) as (x & Hx & Hfx). eauto.
  - intros [= ->]. eauto.
Qed.

Lemma mapM_fails {A B : Type} (f : A -> result B) (l : list A) (x : A)
    (e : failure) :
  In x l -> f x = Err e -> exists e', mapM f l = Err e'.
Proof.
  induction l as [|a l IH]; simpl; [intros []|].
  intros Hin Hx. destruct (f a) as [y|e0] eqn:Hf; simpl; [|eauto].
  destruct Hin as [->|Hin]; [congruence|].
  destruct (IH Hin Hx) as [e' ->]. simpl. eauto.
Qed.

Lemma forallb_false {A : Type} (f : A -> bool) (l : list A) :
  forallb f l = false -> exists x, In x l /\ f x = false.
Proof.
  induction l as [|a l IH]; simpl; [discriminate|].
  destruct (f a) eqn:Hf; simpl.
  - intros H. destruct (IH H) as (x & Hx & Hfx). eauto.
  - eauto.
Qed.

Lemma lookup_distinct {A : Type} (k : string) (a : A) (m : list (string * A)) :
  NoDup (map fst m) -> In (k, a) m -> lookup k m = Some a.
Proof.
  induction m as [|[k' b] m IH]; simpl; [intros _ []|].
  intros Hnd Hin. inversion Hnd as [|? ? Hnotin Hnd']; subst.
  destruct Hin as [[= -> ->]|Hin].
  - now rewrite String.eqb_refl.
  - destruct (String.eqb_spec k k') as [->|]; [|now apply IH].
    exfalso. apply Hnotin. apply in_map_iff. now exists (k', a).
Qed.

Lemma closed_others (v : value) : closed v = true -> others v = [].
Proof.
  induction v as [ | b | f | s | a IHa | m IHm | ty ] using value_induction;
    intros Hc; try reflexivity; try discriminate.
  - apply closed_Array in Hc. cbn [others].
    induction a as [|x a IH]; [reflexivity|]. cbn [flat_map].
    inversion IHa; inversion Hc; subst.
    rewrite H1, IH by assumption. reflexivity.
  - apply closed_Object in Hc. cbn [others].
    induction m as [|[k x] m IH]; [reflexivity|]. cbn [flat_map].
    inversion IHm; inversion Hc; subst. cbn [snd] in *.
    rewrite H1, IH by assumption. reflexivity.
Qed.

Section Unsupported.

Context {E : Env}.

(** The one-line renderer fails in one way only: on a value of a type it
    does not know, with the name of that type. *)
Lemma formatOneLine_Err (v : value) (e : failure) :
  formatOneLine v = Err e -> exists ty, e = CantFormat ty /\ In ty (others v).
Proof.
  induction v as [ | b | f | s | a IHa | m IHm | ty ] using value_induction;
    try discriminate.
  - cbn [formatOneLine]. rewrite formatArrayOneLine_eq.
    destruct (mapM formatOneLine a) as [ds|e0] eqn:Hm; simpl; [discriminate|].
    intros [= ->]. destruct (mapM_Err _ _ _ Hm) as (x & Hx & Hfx).
    rewrite Forall_forall in IHa.
    destruct (IHa x Hx Hfx) as (ty & -> & Hty).
    exists ty. split; [reflexivity|]. cbn [others]. apply in_flat_map. eauto.
  - cbn [formatOneLine]. rewrite formatObjectOneLine_eq.
    destruct (mapM _ _) as [ds|e0] eqn:Hm; simpl; [discriminate|].
    intros [= ->]. destruct (mapM_Err _ _ _ Hm) as (k & _ & Hfk).
    unfold oneline_entry, entry_or_null in Hfk.
    rewrite lookup_each_entry in Hfk.
    destruct (lookup k m) as [x|] eqn:Hk; simpl in Hfk; [|discriminate].
    destruct (formatOneLine x) as [d|e1] eqn:Hx; simpl in Hfk; [discriminate|].
    injection Hfk as ->. apply lookup_In in Hk.
    rewrite Forall_forall in IHm.
    destruct (IHm (k, x) Hk Hx) as (ty & -> & Hty).
    exists ty. split; [reflexivity|]. cbn [others]. apply in_flat_map.
    exists (k, x). split; assumption.
  - simpl. intros [= <-]. exists ty. split; [reflexivity|]. now left.
Qed.

Lemma formatOneLine_open_fails (v : value) :
  (forall l, Permutation (range_oneline l) l) ->
  maps_ok v = true -> closed v = false -> exists e, formatOneLine v = Err e.
Proof.
  intros Hr.
  induction v as [ | b | f | s | a IHa | m IHm | ty ] using value_induction;
    intros Hm Hc; try discriminate.
  - cbn [closed] in Hc. destruct (forallb_false _ _ Hc) as (x & Hx & Hcx).
    rewrite Forall_forall in IHa.
    destruct (IHa x Hx (maps_ok_Array a x Hm Hx) Hcx) as [e He].
    cbn [formatOneLine]. rewrite formatArrayOneLine_eq.
    destruct (mapM_fails formatOneLine a x e Hx He) as [e' ->]. simpl. eauto.
  - cbn [closed] in Hc. destruct (forallb_false _ _ Hc) as ([k x] & Hx & Hcx).
    rewrite Forall_forall in IHm.
    destruct (IHm (k, x) Hx (maps_ok_Object m k x Hm Hx) Hcx) as [e He].
    cbn [snd] in He.
    cbn [formatOneLine]. rewrite formatObjectOneLine_eq.
    assert (Hk : In k (keys_of range_oneline m)).
    { apply (Permutation_in k (Permutation_sym (keys_of_perm range_oneline m Hr))).
      apply in_map_iff. now exists (k, x). }
    assert (Hl : lookup k m = Some x).
    { apply lookup_distinct; [|assumption].
      cbn [maps_ok] in Hm. apply andb_prop in Hm. destruct Hm as [Hd _].
      now apply distinct_NoDup. }
    destruct (mapM_fails
                (oneline_entry (each_entry (fun _ v => formatOneLine v) m))
                (keys_of range_oneline m) k e Hk) as [e' ->].
    + unfold oneline_entry, entry_or_null. rewrite lookup_each_entry, Hl.
      simpl. now rewrite He.
    + simpl. eauto.
  - simpl. eauto.
Qed.

Lemma formatOneLine_Ok_closed (v : value) (d : string) :
  (forall l, Permutation (range_oneline l) l) ->
  maps_ok v = true -> formatOneLine v = Ok d -> closed v = true.
Proof.
  intros Hr Hm Hd. destruct (closed v) eqn:Hc; [reflexivity|].
  destruct (formatOneLine_open_fails v Hr Hm Hc) as [e He]. congruence.
Qed.

(** X1.  A document with a value of an unsupported type anywhere in it
    has no one-line form: [formatOneLine] returns the error [can't format
    type T], with [T] the type of an unsupported value of the document. *)
Theorem formatOneLine_unsupported (v : value) :
  (forall l, Permutation (range_oneline l) l) ->
  maps_ok v = true -> closed v = false ->
  exists ty, In ty (others v) /\ formatOneLine v = Err (CantFormat ty).
Proof.
  intros Hr Hm Hc. destruct (formatOneLine_open_fails v Hr Hm Hc) as [e He].
  destruct (formatOneLine_Err v e He) as (ty & -> & Hty). eauto.
Qed.

End Unsupported.

Lemma formatOneLine_unsupported_witness :
  let v := Array [num 1 0; Object [("k", Other "int")]] in
  maps_ok v = true /\ closed v = false /\
  exists ty, In ty (others v) /\
             formatOneLine (E := default_env) v = Err (CantFormat ty).
Proof.
  intros v. split; [reflexivity|]. split; [reflexivity|].
  apply (formatOneLine_unsupported (E := default_env) v in_order_perm);
    reflexivity.
Defined.

(** ** Further properties: the errors of [formatIndent] *)

Section Errors.

Context {E : Env}.

Lemma object_loop_Err (vals : list (string * result string))
    (level j : Z) (keys : list string) (i : Z) (bits : list string)
    (e : failure) :
  object_loop vals level j keys i bits = Err e ->
  (exists k, In k keys /\ entry_or_null vals k = Err e) \/ repeat_panic e.
Proof.
  revert i bits. induction keys as [|k keys IH]; intros i bits; simpl.
  - destruct (Repeat_space _) as [sp|e0] eqn:Hsp; simpl; [discriminate|].
    intros [= ->]. right. exact (Repeat_space_Err _ _ Hsp).
  - fold (entry_or_null vals k).
    destruct (entry_or_null vals k) as [d|e0] eqn:Hd; simpl.
    + destruct (Repeat_space _) as [sp|e1] eqn:Hsp; simpl.
      * intros H. destruct (IH _ _ H) as [(k' & Hk' & He)|He]; [|now right].
        left. exists k'. auto.
      * intros [= ->]. right. exact (Repeat_space_Err _ _ Hsp).
    + intros [= ->]. left. exists k. auto.
Qed.

Lemma formatObject_vals (rec : value -> Z -> Z -> Z -> result string)
    (m : list (string * value)) (width level : Z) :
  formatObject rec m width level =
  object_loop (block_vals rec m width level) level
    (Z.of_nat (List.length m)) (keys_of range_block m) 0 ["{"].
Proof.
  unfold formatObject. f_equal.
  unfold block_vals, each_entry.
  induction m as [|[k v] m IH]; [reflexivity|].
  cbn [map fst snd]. rewrite <- IH. reflexivity.
Qed.

(** On a value of the closed variant set [formatIndent] fails in one way
    only: by a panic of [strings.Repeat]. *)
Lemma formatIndent_closed_Err (v : value) (width : Z) :
  closed v = true ->
  forall level additional e,
  formatIndent v width level additional = Err e -> repeat_panic e.
Proof.
  induction v as [ | b | f | s | a IHa | m IHm | ty ] using value_induction;
    intros Hc level additional e; try discriminate.
  - rewrite formatIndent_compound by reflexivity.
    destruct (formatOneLine_total _ Hc) as [d ->]. simpl.
    destruct (fits width level additional d); [discriminate|].
    rewrite formatArray_eq.
    destruct (mapM _ a) as [items|e0] eqn:Hm; simpl.
    + unfold closing.
      destruct (Repeat_space _) as [sp|e1] eqn:Hsp; simpl; [discriminate|].
      intros [= ->]. exact (Repeat_space_Err _ _ Hsp).
    + intros [= ->]. destruct (mapM_Err _ _ _ Hm) as (x & Hx & Hfx).
      unfold array_item in Hfx.
      destruct (formatIndent x width _ 0) as [d'|e1] eqn:Hd'; simpl in Hfx.
      * destruct (Repeat_space _) as [sp|e2] eqn:Hsp; simpl in Hfx;
          [discriminate|].
        injection Hfx as ->. exact (Repeat_space_Err _ _ Hsp).
      * injection Hfx as ->. apply closed_Array in Hc.
        rewrite Forall_forall in IHa, Hc.
        exact (IHa x Hx (Hc x Hx) _ _ _ Hd').
  - rewrite formatIndent_compound by reflexivity.
    destruct (formatOneLine_total _ Hc) as [d ->]. simpl.
    destruct (fits width level additional d); [discriminate|].
    rewrite formatObject_vals. intros H.
    destruct (object_loop_Err _ _ _ _ _ _ _ H) as [(k & _ & Hk)|He];
      [|exact He].
    unfold entry_or_null, block_vals in Hk. rewrite lookup_each_entry in Hk.
    destruct (lookup k m) as [x|] eqn:Hl; simpl in Hk; [|discriminate].
    apply lookup_In in Hl. apply closed_Object in Hc.
    rewrite Forall_forall in IHm, Hc.
    exact (IHm (k, x) Hl (Hc _ Hl) _ _ _ Hk).
Qed.

(** X2.  The ways in which [formatIndent] fails.  It returns [couldn't
    encode type T] only for a document that is itself a value of the
    unsupported type [T]; an unsupported value inside an array or an
    object is reported by the measuring pass as [can't format type T];
    on a document without unsupported values the only failure is a
    panic of [strings.Repeat], on a negative count or on one that is
    more than the runtime can allocate; it never reports a write
    error. *)
Theorem formatIndent_error_kinds (v : value) (width level additional : Z)
    (e : failure) :
  (forall l, Permutation (range_oneline l) l) ->
  maps_ok v = true ->
  formatIndent v width level additional = Err e ->
  match e with
  | CouldntEncode ty => v = Other ty
  | CantFormat ty => compound v = true /\ In ty (others v)
  | NegativeRepeat => compound v = true /\ closed v = true
  | RepeatTooLong => compound v = true /\ closed v = true
  | WriteError _ => False
  end.
Proof.
  intros Hr Hm.
  destruct v as [ | b | f | s | a | m | ty ]; try discriminate.
  - rewrite formatIndent_compound by reflexivity.
    destruct (formatOneLine (Array a)) as [d|e0] eqn:Hd; simpl.
    + pose proof (formatOneLine_Ok_closed _ _ Hr Hm Hd) as Hc.
      destruct (fits width level additional d) eqn:Hf; [discriminate|].
      intros H.
      assert (He : repeat_panic e).
      { apply (formatIndent_closed_Err (Array a) width Hc level additional).
        rewrite formatIndent_compound by reflexivity.
        rewrite Hd. simpl. now rewrite Hf. }
      destruct He as [-> | ->]; (split; [reflexivity | exact Hc]).
    + intros [= ->]. destruct (formatOneLine_Err _ _ Hd) as (ty & -> & Hty).
      split; [reflexivity | exact Hty].
  - rewrite formatIndent_compound by reflexivity.
    destruct (formatOneLine (Object m)) as [d|e0] eqn:Hd; simpl.
    + pose proof (formatOneLine_Ok_closed _ _ Hr Hm Hd) as Hc.
      destruct (fits width level additional d) eqn:Hf; [discriminate|].
      intros H.
      assert (He : repeat_panic e).
      { apply (formatIndent_closed_Err (Object m) width Hc level additional).
        rewrite formatIndent_compound by reflexivity.
        rewrite Hd. simpl. now rewrite Hf. }
      destruct He as [-> | ->]; (split; [reflexivity | exact Hc]).
    + intros [= ->]. destruct (formatOneLine_Err _ _ Hd) as (ty & -> & Hty).
      split; [reflexivity | exact Hty].
  - simpl. now intros [= <-].
Qed.

End Errors.

Lemma formatIndent_error_kinds_witness :
  let v := Array [num 1 0; Object [("k", Other "int")]] in
  maps_ok v = true /\
  formatIndent (E := default_env) v 5 0 0 = Err (CantFormat "int") /\
  compound v = true /\ In "int" (others v).
Proof.
  intros v.
  assert (H : formatIndent (E := default_env) v 5 0 0 = Err (CantFormat "int"))
    by (vm_compute; reflexivity).
  split; [reflexivity|]. split; [exact H|].
  exact (formatIndent_error_kinds (E := default_env) v 5 0 0 (CantFormat "int")
           in_order_perm eq_refl H).
Defined.

(** ** Further properties: the width *)

Section WidthFlag.

Context {E : Env}.

(** The width test at the root: no indentation, nothing before the
    text. *)
Lemma fits_root (width : Z) (d : string) :
  len d < 2 ^ 63 -> fits width 0 0 d = (len d <=? width).
Proof.
  intros Hd. unfold fits.
  replace (GoInt.add (GoInt.mul 0 (GoInt.of_uint indent)) 0) with 0
    by reflexivity.
  unfold GoInt.add. rewrite Z.add_0_l, wrap_id; [reflexivity|].
  pose proof (len_nonneg d). unfold GoInt.in_range. lia.
Qed.

(** X4.  The flag [-width] is a [uint] that [main] converts with
    [int( *width)]: from [2^63] on it is read as a negative width, which
    no text fits, so that the array or object at the root is always
    rendered as a block. *)
Theorem huge_width_flag_breaks_root (v : value) (width_flag : Z) (d : string) :
  2 ^ 63 <= width_flag < 2 ^ 64 ->
  compound v = true ->
  formatOneLine v = Ok d ->
  len d < 2 ^ 63 ->
  GoInt.of_uint width_flag < 0 /\
  formatIndent v (GoInt.of_uint width_flag) 0 0 =
    block_form v (GoInt.of_uint width_flag) 0 /\
  forall out, formatIndent v (GoInt.of_uint width_flag) 0 0 = Ok out ->
              has_nl out = true.
Proof.
  intros Hw Hc Hd Hlen.
  assert (Hneg : GoInt.of_uint width_flag < 0).
  { unfold GoInt.of_uint, GoInt.wrap.
    replace (width_flag + 2 ^ 63) with (width_flag - 2 ^ 63 + 1 * 2 ^ 64) by lia.
    rewrite Z.mod_add by lia. rewrite Z.mod_small by lia. lia. }
  assert (Hb : formatIndent v (GoInt.of_uint width_flag) 0 0 =
               block_form v (GoInt.of_uint width_flag) 0).
  { rewrite formatIndent_compound by assumption. rewrite Hd. simpl.
    rewrite fits_root by assumption.
    pose proof (len_nonneg d).
    destruct (Z.leb_spec (len d) (GoInt.of_uint width_flag)); [lia|reflexivity]. }
  split; [exact Hneg|]. split; [exact Hb|].
  intros out Hout. rewrite Hb in Hout.
  exact (block_form_has_nl v _ 0 out Hc Hout).
Qed.

End WidthFlag.

Lemma huge_width_flag_breaks_root_witness :
  let v := Array [num 1 0; num 2 0] in
  let flag := 2 ^ 64 - 1 in
  GoInt.of_uint flag < 0 /\
  formatIndent (E := default_env) v (GoInt.of_uint flag) 0 0 =
    block_form (E := default_env) v (GoInt.of_uint flag) 0 /\
  forall out, formatIndent (E := default_env) v (GoInt.of_uint flag) 0 0 = Ok out ->
              has_nl out = true.
Proof.
  intros v flag.
  apply (huge_width_flag_breaks_root (E := default_env) v flag "[1, 2]");
    [unfold flag; lia | reflexivity | vm_compute; reflexivity
    | vm_compute; reflexivity].
Defined.

(** ** Further properties: the flag [-indent] from [2^63] on *)

Section IndentFlag.

Context {E : Env}.




End IndentFlag.

(** A count that wraps around to a large one: with the flag [-indent]
    at [2^64 - 2^62 - 1] and the flag [-width] at [2^63], the items of
    the inner array of [[[1]]] ask for [2^63 - 2] spaces, and
    [strings.Repeat] panics before any count is negative. *)
Lemma wrapped_indent_panics :
  formatIndent (E := go_env (2 ^ 64 - 2 ^ 62 - 1) false in_order in_order)
    (Array [Array [num 1 0]]) (GoInt.of_uint (2 ^ 63)) 0 0 =
  Err RepeatTooLong.
Proof. vm_compute. reflexivity. Qed.


(** ** Further properties: the lines of a block of scalars *)

Lemma lines_each_one_line (l : list string) :
  Forall (fun x => has_nl x = false) l -> List.concat (map lines l) = l.
Proof.
  induction 1 as [|x l Hx _ IH]; [reflexivity|].
  cbn [map List.concat]. rewrite (lines_one_line x Hx), IH. reflexivity.
Qed.

Lemma with_commas_one_line (l : list string) :
  Forall (fun x => has_nl x = false) l ->
  Forall (fun x => has_nl x = false) (with_commas l).
Proof.
  intros H. apply Forall_forall. intros y Hy.
  destruct (with_commas_In l y Hy) as (x & suf & Hx & Hsuf & ->).
  rewrite Forall_forall in H. rewrite has_nl_app, (H x Hx).
  destruct Hsuf as [->| ->]; reflexivity.
Qed.

Section ScalarBlocks.

Context {E : Env}.

Hypothesis marshal_string_one_line : forall s, has_nl (marshal_string s) = false.
Hypothesis sprintf_f_one_line : forall f, has_nl (sprintf_f f) = false.

Lemma formatIndent_scalar_text (v : value) (width level additional : Z) :
  scalar v = true -> formatIndent v width level additional = Ok (scalar_text v).
Proof. destruct v; try discriminate; reflexivity. Qed.

Lemma block_lines (b : string) (items : list string) (last : string) :
  has_nl b = false -> has_nl last = false ->
  Forall (fun x => has_nl x = false) items ->
  lines (Join (b :: with_commas items ++ [last])%list nl) =
  (b :: with_commas items ++ [last])%list.
Proof.
  intros Hb Hl Hi. rewrite lines_Join. apply lines_each_one_line.
  constructor; [exact Hb|]. apply Forall_app. split.
  - now apply with_commas_one_line.
  - constructor; [exact Hl | constructor].
Qed.

Lemma indents (level : Z) :
  0 <= indent < 2 ^ 63 -> 0 <= level -> level + 1 < 2 ^ 63 ->
  (level + 1) * indent < 2 ^ 63 ->
  (level + 1) * indent <= repeat_max ->
  GoInt.add level 1 = level + 1 /\
  Repeat_space (GoInt.mul (GoInt.add level 1) (GoInt.of_uint indent)) =
    Ok (spaces (Z.to_nat ((level + 1) * indent))) /\
  Repeat_space (GoInt.mul level (GoInt.of_uint indent)) =
    Ok (spaces (Z.to_nat (level * indent))).
Proof.
  intros Hi Hl Hl1 Hli Hmax.
  assert (Hadd : GoInt.add level 1 = level + 1).
  { apply wrap_id. unfold GoInt.in_range. lia. }
  assert (Hm1 : GoInt.mul (GoInt.add level 1) (GoInt.of_uint indent) =
                (level + 1) * indent).
  { unfold GoInt.mul. rewrite Hadd, (of_uint_id _ Hi).
    apply wrap_id. unfold GoInt.in_range. nia. }
  assert (Hm0 : GoInt.mul level (GoInt.of_uint indent) = level * indent).
  { unfold GoInt.mul. rewrite (of_uint_id _ Hi).
    apply wrap_id. unfold GoInt.in_range. nia. }
  split; [exact Hadd|]. rewrite Hm1, Hm0.
  split; apply Repeat_space_Ok; nia.
Qed.

(** X6.  The block of an array of scalars has one line for each element:
    the opening bracket, then each element by its text behind
    [(level+1)*indent] spaces, with a comma behind each but the last,
    then the closing bracket behind [level*indent] spaces.  The counts
    of spaces are taken to fit Go's [int] and to be no more than
    [strings.Repeat] gets from the runtime. *)
Theorem array_of_scalars_lines (a : list value)
    (width level additional : Z) (d : string) :
  0 <= indent < 2 ^ 63 -> 0 <= level -> level + 1 < 2 ^ 63 ->
  (level + 1) * indent < 2 ^ 63 ->
  (level + 1) * indent <= repeat_max ->
  Forall (fun x => scalar x = true) a ->
  formatOneLine (Array a) = Ok d ->
  fits width level additional d = false ->
  exists out,
    formatIndent (Array a) width level additional = Ok out /\
    lines out =
    ("[" :: with_commas
              (map (fun x => (spaces (Z.to_nat ((level + 1) * indent)) ++
                              scalar_text x)%string) a) ++
     [(spaces (Z.to_nat (level * indent)) ++ "]")%string])%list.
Proof.
  intros Hi Hl Hl1 Hli Hmax Hs Hd Hf.
  destruct (indents level Hi Hl Hl1 Hli Hmax) as (Hadd & Hsp1 & Hsp0).
  rewrite formatIndent_compound by reflexivity. rewrite Hd. simpl bind.
  rewrite Hf. cbn [block_form]. rewrite formatArray_eq.
  assert (Hitems : mapM (array_item formatIndent width level) a =
                   Ok (map (fun x => spaces (Z.to_nat ((level + 1) * indent)) ++
                                     scalar_text x) a)).
  { clear Hd Hf. induction Hs as [|x a Hx _ IH]; [reflexivity|].
    cbn [mapM map]. rewrite IH. unfold array_item at 1.
    rewrite (formatIndent_scalar_text x _ _ _ Hx). simpl bind.
    rewrite Hsp1. reflexivity. }
  rewrite Hitems. unfold closing. rewrite Hsp0. simpl bind.
  eexists. split; [reflexivity|].
  apply block_lines; [reflexivity | |].
  - now rewrite has_nl_app, has_nl_spaces.
  - apply Forall_forall. intros y Hy. apply in_map_iff in Hy.
    destruct Hy as (x & <- & Hx). rewrite Forall_forall in Hs.
    rewrite has_nl_app, has_nl_spaces.
    exact (scalar_text_one_line marshal_string_one_line sprintf_f_one_line
             x (Hs x Hx)).
Qed.

(** X7.  The block of an object whose values are scalars has one line
    for each key, in the order of the keys: the quoted key, a colon and a
    space, and the text of the value, behind [(level+1)*indent]
    spaces.  The counts of spaces are taken to fit Go's [int] and to be
    no more than [strings.Repeat] gets from the runtime. *)
Theorem object_of_scalars_lines (m : list (string * value))
    (width level additional : Z) (d : string) :
  (forall l, Permutation (range_block l) l) ->
  0 <= indent < 2 ^ 63 -> 0 <= level -> level + 1 < 2 ^ 63 ->
  (level + 1) * indent < 2 ^ 63 ->
  (level + 1) * indent <= repeat_max ->
  Forall (fun kv => scalar (snd kv) = true) m ->
  formatOneLine (Object m) = Ok d ->
  fits width level additional d = false ->
  exists out,
    formatIndent (Object m) width level additional = Ok out /\
    lines out =
    ("{" :: with_commas
              (map (fun k => (spaces (Z.to_nat ((level + 1) * indent)) ++
                              marshal_string k ++ ": " ++
                              match lookup k m with
                              | Some x => scalar_text x
                              | None => "null"
                              end)%string) (keys_of range_block m)) ++
     [(spaces (Z.to_nat (level * indent)) ++ "}")%string])%list.
Proof.
  intros Hr Hi Hl Hl1 Hli Hmax Hs Hd Hf.
  destruct (indents level Hi Hl Hl1 Hli Hmax) as (Hadd & Hsp1 & Hsp0).
  rewrite formatIndent_compound by reflexivity. rewrite Hd. simpl bind.
  rewrite Hf. cbn [block_form].
  rewrite formatObject_eq by now apply keys_of_length.
  assert (Hitem : forall k,
            object_item (block_vals formatIndent m width level) level k =
            Ok (spaces (Z.to_nat ((level + 1) * indent)) ++
                marshal_string k ++ ": " ++
                match lookup k m with
                | Some x => scalar_text x
                | None => "null"
                end)).
  { intros k. unfold object_item, entry_or_null, block_vals.
    rewrite lookup_each_entry.
    destruct (lookup k m) as [x|] eqn:Hk; simpl.
    - apply lookup_In in Hk. rewrite Forall_forall in Hs.
      rewrite (formatIndent_scalar_text x _ _ _ (Hs _ Hk)). simpl bind.
      rewrite Hsp1. reflexivity.
    - rewrite Hsp1. reflexivity. }
  assert (Hitems : forall keys,
            mapM (object_item (block_vals formatIndent m width level) level)
                 keys =
            Ok (map (fun k => spaces (Z.to_nat ((level + 1) * indent)) ++
                              marshal_string k ++ ": " ++
                              match lookup k m with
                              | Some x => scalar_text x
                              | None => "null"
                              end) keys)).
  { induction keys as [|k keys IH]; [reflexivity|].
    cbn [mapM map]. rewrite Hitem, IH. reflexivity. }
  rewrite Hitems. unfold closing. rewrite Hsp0. simpl bind.
  eexists. split; [reflexivity|].
  apply block_lines; [reflexivity | |].
  - now rewrite has_nl_app, has_nl_spaces.
  - apply Forall_forall. intros y Hy. apply in_map_iff in Hy.
    destruct Hy as (k & <- & Hk).
    rewrite !has_nl_app, has_nl_spaces, marshal_string_one_line.
    destruct (lookup k m) as [x|] eqn:Hx; [|reflexivity].
    apply lookup_In in Hx. rewrite Forall_forall in Hs.
    cbn [orb has_nl].
    exact (scalar_text_one_line marshal_string_one_line sprintf_f_one_line
             x (Hs _ Hx)).
Qed.

End ScalarBlocks.

Lemma array_of_scalars_lines_witness :
  exists out,
    formatIndent (E := default_env) (Array [num 1 0; Null; Bool true]) 10 0 0 =
      Ok out /\
    lines out = ["["; "  1,"; "  null,"; "  true"; "]"].
Proof.
  apply (array_of_scalars_lines (E := default_env)
           GoLibFacts.marshal_string_one_line GoLibFacts.sprintf_f_one_line
           [num 1 0; Null; Bool true] 10 0 0 "[1, null, true]");
    try (vm_compute; reflexivity); try (simpl; lia);
    try (vm_compute; congruence).
  repeat constructor.
Defined.

Lemma object_of_scalars_lines_witness :
  let q := GoLib.dquote in
  exists out,
    formatIndent (E := default_env)
      (Object [("b", num 1 0); ("a", Null)]) 10 0 0 = Ok out /\
    lines out = ["{"; "  " ++ q ++ "b" ++ q ++ ": 1,";
                 "  " ++ q ++ "a" ++ q ++ ": null"; "}"].
Proof.
  intros q.
  apply (object_of_scalars_lines (E := default_env)
           GoLibFacts.marshal_string_one_line GoLibFacts.sprintf_f_one_line
           [("b", num 1 0); ("a", Null)] 10 0 0
           ("{" ++ q ++ "b" ++ q ++ ": 1, " ++ q ++ "a" ++ q ++ ": null}")
           in_order_perm);
    try (vm_compute; reflexivity); try (simpl; lia);
    try (vm_compute; congruence).
  repeat constructor.
Defined.

(** ** Further properties: sorted keys and the order of the run *)

Section Walk.

Variable E : Env.
Variables rb ro : list string -> list string.

Hypothesis sorted : sortKeys = true.
Hypothesis range_block_perm : forall l, Permutation (range_block l) l.
Hypothesis range_oneline_perm : forall l, Permutation (range_oneline l) l.
Hypothesis rb_perm : forall l, Permutation (rb l) l.
Hypothesis ro_perm : forall l, Permutation (ro l) l.

Lemma keys_of_with_walk (range range' : list string -> list string)
    (m : list (string * value)) :
  (forall l, Permutation (range l) l) ->
  (forall l, Permutation (range' l) l) ->
  keys_of (E := with_walk E rb ro) range' m = keys_of (E := E) range m.
Proof.
  intros Hr Hr'.
  rewrite (keys_of_sorted (E := with_walk E rb ro) range' m sorted Hr').
  rewrite (keys_of_sorted (E := E) range m sorted Hr). reflexivity.
Qed.

Lemma formatOneLine_with_walk (v : value) :
  formatOneLine (E := with_walk E rb ro) v = formatOneLine (E := E) v.
Proof.
  induction v as [ | b | f | s | a IHa | m IHm | ty ] using value_induction;
    try reflexivity.
  - cbn [formatOneLine]. rewrite !formatArrayOneLine_eq.
    rewrite (mapM_ext_in _ (formatOneLine (E := E)) a); [reflexivity|].
    rewrite Forall_forall in IHa. exact IHa.
  - cbn [formatOneLine]. rewrite !formatObjectOneLine_eq.
    change (range_oneline (Env := with_walk E rb ro)) with ro.
    rewrite (keys_of_with_walk range_oneline ro m range_oneline_perm ro_perm).
    rewrite (mapM_ext_in _
               (oneline_entry (E := E)
                  (each_entry (fun _ v => formatOneLine (E := E) v) m))
               (keys_of range_oneline m)); [reflexivity|].
    intros k Hk. unfold oneline_entry, entry_or_null.
    rewrite !lookup_each_entry.
    destruct (lookup k m) as [x|] eqn:Hx; [|reflexivity]. simpl.
    rewrite Forall_forall in IHm.
    pose proof (IHm (k, x) (lookup_In k m x Hx)) as IHx. cbn [snd] in IHx.
    now rewrite IHx.
Qed.

(** X8.  With [sort_keys] set the output does not depend on the order in
    which the run walks the maps: two runs that differ in nothing but
    that order write the same text, or fail alike. *)
Theorem sorted_output_ignores_walk (v : value) (width level additional : Z) :
  formatIndent (E := with_walk E rb ro) v width level additional =
  formatIndent (E := E) v width level additional.
Proof.
  revert level additional.
  induction v as [ | b | f | s | a IHa | m IHm | ty ] using value_induction;
    intros level additional; try reflexivity.
  - rewrite !formatIndent_compound by reflexivity.
    rewrite formatOneLine_with_walk.
    destruct (formatOneLine (E := E) (Array a)) as [c|e]; [|reflexivity].
    simpl bind.
    change (fits (E := with_walk E rb ro) width level additional c)
      with (fits (E := E) width level additional c).
    destruct (fits width level additional c); [reflexivity|].
    cbn [block_form]. rewrite !formatArray_eq.
    rewrite (mapM_ext_in _ (array_item (E := E) formatIndent width level) a);
      [reflexivity|].
    intros x Hx. unfold array_item.
    rewrite Forall_forall in IHa. now rewrite (IHa x Hx).
  - rewrite !formatIndent_compound by reflexivity.
    rewrite formatOneLine_with_walk.
    destruct (formatOneLine (E := E) (Object m)) as [c|e]; [|reflexivity].
    simpl bind.
    change (fits (E := with_walk E rb ro) width level additional c)
      with (fits (E := E) width level additional c).
    destruct (fits width level additional c); [reflexivity|].
    cbn [block_form].
    rewrite (formatObject_eq (E := with_walk E rb ro))
      by (apply (keys_of_length (E := with_walk E rb ro)); exact rb_perm).
    rewrite (formatObject_eq (E := E)) by now apply keys_of_length.
    change (range_block (Env := with_walk E rb ro)) with rb.
    rewrite (keys_of_with_walk range_block rb m range_block_perm rb_perm).
    rewrite (mapM_ext_in _
               (object_item (E := E)
                  (block_vals (E := E) formatIndent m width level) level)
               (keys_of range_block m)); [reflexivity|].
    intros k Hk. unfold object_item, entry_or_null, block_vals.
    rewrite !lookup_each_entry.
    destruct (lookup k m) as [x|] eqn:Hx; [|reflexivity]. simpl.
    rewrite Forall_forall in IHm.
    pose proof (IHm (k, x) (lookup_In k m x Hx)) as IHx. cbn [snd] in IHx.
    now rewrite IHx.
Qed.

End Walk.

Lemma sorted_output_ignores_walk_witness :
  let v := Object [("k", Array [num 1 0; num 2 0]); ("b", Null)] in
  formatIndent (E := with_walk sorted_env (@rev string) (@rev string)) v 8 0 0 =
  formatIndent (E := sorted_env) v 8 0 0.
Proof.
  intros v.
  apply (sorted_output_ignores_walk sorted_env (@rev string) (@rev string)
           eq_refl in_order_perm in_order_perm);
    intros l; symmetry; apply Permutation_rev.
Defined.

(** ** Further properties: the decoder reads the document back *)

Section ReadBack.

Context {E : Env} {D : Decoder}.

Lemma same_document_sorted_value (v : value) :
  tokens_round_trip v = true -> same_document v (sorted_value v).
Proof.
  induction v as [ | b | f | s | a IHa | m IHm | ty ] using value_induction;
    intros Ht; try (now apply same_scalar); try discriminate.
  - cbn [sorted_value]. apply same_array.
    rewrite Forall_forall in IHa.
    assert (H : forall x, In x a -> same_document x (sorted_value x)).
    { intros x Hx. apply IHa; [exact Hx|]. exact (tokens_Array a x Ht Hx). }
    clear IHa Ht. induction a as [|x a IH]; [constructor|].
    cbn [map]. constructor.
    + apply H. now left.
    + apply IH. intros y Hy. apply H. now right.
  - rewrite sorted_value_Object. apply same_object.
    + rewrite sorted_entries_keys. symmetry. apply sort_Strings_perm.
    + intros k x Hx. exists (sorted_value x).
      split; [now apply sorted_entries_lookup|].
      rewrite Forall_forall in IHm.
      pose proof (lookup_In k m x Hx) as Hin.
      exact (IHm (k, x) Hin (proj2 (tokens_Object m k x Ht Hin))).
Qed.

(** X9.  The structural round trip.  With [sort_keys] set, the decoder
    reads from the text that [formatIndent] writes the document that was
    formatted: no element of an array added, dropped or moved, no key
    of an object dropped, every value under its key.  The entries of an
    object come back in the order of their keys. *)
Theorem decode_formatIndent (v : value) (width : Z) (out : string)
    (fuel : nat) :
  sortKeys = true ->
  (forall l, Permutation (range_block l) l) ->
  (forall l, Permutation (range_oneline l) l) ->
  tokens_round_trip v = true -> maps_ok v = true ->
  formatIndent v width 0 0 = Ok out ->
  (steps v <= fuel)%nat ->
  decode fuel out = Some (sorted_value v) /\
  same_document v (sorted_value v).
Proof.
  intros Hs Hrb Hro Ht Hm Hout Hfuel.
  split; [|now apply same_document_sorted_value].
  unfold decode.
  pose proof (parse_formatIndent Hs Hrb Hro v width Ht Hm 0 0 out fuel ""
                Hout Hfuel I) as H.
  rewrite app_empty_r in H. now rewrite H.
Qed.

End ReadBack.

Lemma decode_formatIndent_witness :
  let q := GoLib.dquote in
  let v := Object [("k", Array [Str "a"; Null; num 5 0]); ("b", num 7 0)] in
  let out := "{" ++ nl ++ "  " ++ q ++ "b" ++ q ++ ": 7," ++ nl ++
             "  " ++ q ++ "k" ++ q ++ ": [" ++ nl ++
             "    " ++ q ++ "a" ++ q ++ "," ++ nl ++
             "    null," ++ nl ++ "    5" ++ nl ++ "  ]" ++ nl ++ "}" in
  formatIndent (E := sorted_env) v 10 0 0 = Ok out /\
  decode (D := go_decoder) 8 out =
    Some (Object [("b", num 7 0); ("k", Array [Str "a"; Null; num 5 0])]) /\
  same_document v
    (Object [("b", num 7 0); ("k", Array [Str "a"; Null; num 5 0])]).
Proof.
  intros q v out.
  assert (H : formatIndent (E := sorted_env) v 10 0 0 = Ok out)
    by (vm_compute; reflexivity).
  split; [exact H|].
  apply (decode_formatIndent (E := sorted_env) (D := go_decoder) v 10 out 8
           eq_refl in_order_perm in_order_perm);
    [vm_compute; reflexivity | vm_compute; reflexivity | exact H
    | vm_compute; lia].
Defined.

(** ** Further properties: [encodeJSON] and its sink *)

Lemma taken_all (d : string) : taken (String.length d) d = d.
Proof.
  unfold taken. induction d as [|c d IH]; [reflexivity|].
  simpl. now rewrite IH.
Qed.

Section Sinks.

Context {E : Env}.

(** X10.  With a sink that keeps the contract of [io.Writer], a write
    that takes fewer bytes than offered returning an error, [encodeJSON]
    calls [Write] once: it returns [nil] with the whole text delivered,
    or the error of the sink with what the sink took. *)
Theorem encodeJSON_one_write (K : Sink) (v : value) (width : Z) (d : string)
    (s s' : sink_state K) (n : nat) (err : option string) (fuel : nat) :
  formatIndent v width 0 0 = Ok d ->
  0 < len d -> len d < 2 ^ 63 ->
  sink_write K s d = (n, err, s') ->
  (err = None -> n = String.length d) ->
  encodeJSON K (S fuel) v width s =
  match err with
  | Some msg => Some (Err (WriteError msg), s', taken n d)
  | None => Some (Ok tt, s', d)
  end.
Proof.
  intros Hd Hpos Hlen Hw Hn. unfold encodeJSON. rewrite Hd.
  cbn [write_loop]. destruct (Z.gtb_spec (len d) 0); [|lia].
  rewrite Hw. destruct err as [msg|]; [reflexivity|].
  rewrite (Hn eq_refl), taken_all.
  assert (Hr : GoInt.sub (len d) (Z.of_nat (String.length d)) = 0).
  { unfold GoInt.sub, len. rewrite Z.sub_diag. reflexivity. }
  rewrite Hr. destruct fuel; reflexivity.
Qed.

(** X11.  A document with a value of an unsupported type in it is not
    written at all: [encodeJSON] returns the error of the formatter
    before the first [Write], and the sink is left as it was. *)
Theorem encodeJSON_unsupported (K : Sink) (v : value) (width : Z)
    (s : sink_state K) (fuel : nat) :
  (forall l, Permutation (range_oneline l) l) ->
  maps_ok v = true -> closed v = false ->
  exists ty,
    In ty (others v) /\
    encodeJSON K fuel v width s =
    Some (Err (if compound v then CantFormat ty else CouldntEncode ty), s, "").
Proof.
  intros Hr Hm Hc. unfold encodeJSON.
  destruct (compound v) eqn:Hcomp.
  - destruct (formatOneLine_open_fails v Hr Hm Hc) as [e He].
    destruct (formatOneLine_Err v e He) as (ty & -> & Hty).
    exists ty. split; [exact Hty|].
    rewrite formatIndent_compound by assumption. rewrite He. reflexivity.
  - destruct v; try discriminate. exists ty. split; [now left | reflexivity].
Qed.

(** X12.  A sink that takes no byte and reports no error keeps
    [encodeJSON] in its loop for ever: whatever the number of rounds,
    the loop has not ended. *)
Theorem encodeJSON_stalled_sink (K : Sink) (v : value) (width : Z) (d : string) :
  formatIndent v width 0 0 = Ok d ->
  0 < len d -> len d < 2 ^ 63 ->
  (forall s, exists s', sink_write K s d = (O, None, s')) ->
  forall fuel s, encodeJSON K fuel v width s = None.
Proof.
  intros Hd Hpos Hlen Hw fuel s. unfold encodeJSON. rewrite Hd.
  generalize (@EmptyString) as out. revert s.
  induction fuel as [|fuel IH]; intros s out; cbn [write_loop];
    destruct (Z.gtb_spec (len d) 0); try lia; [reflexivity|].
  destruct (Hw s) as [s' ->].
  assert (Hr : GoInt.sub (len d) (Z.of_nat 0) = len d).
  { unfold GoInt.sub. rewrite Z.sub_0_r. apply wrap_id.
    unfold GoInt.in_range. lia. }
  rewrite Hr. apply IH.
Qed.

Lemma repeated_snoc (n : nat) (s out : string) :
  (out ++ s) ++ repeated n s = out ++ repeated (S n) s.
Proof. cbn [repeated]. now rewrite app_assoc_s. Qed.

Lemma write_loop_chunks (k : nat) (d : string) :
  len d < 2 ^ 63 -> (0 < k)%nat -> 0 < len d ->
  let c := Nat.min k (String.length d) in
  forall n fuel r out,
  r <= len d ->
  Z.to_nat ((r + Z.of_nat c - 1) / Z.of_nat c) = n ->
  (n <= fuel)%nat ->
  write_loop (chunk_sink k) fuel d r tt out =
  Some (Ok tt, tt, out ++ repeated n (taken c d)).
Proof.
  intros Hlen Hk Hpos c.
  assert (Hc : 0 < Z.of_nat c <= len d) by (unfold c, len in *; lia).
  induction n as [|n IH]; intros fuel r out Hr Hn Hfuel.
  - assert (r <= 0).
    { destruct (Z.le_gt_cases r 0) as [|Hgt]; [assumption|].
      assert (1 <= (r + Z.of_nat c - 1) / Z.of_nat c); [|lia].
      apply Z.div_le_lower_bound; lia. }
    cbn [repeated]. rewrite app_empty_r.
    destruct fuel; cbn [write_loop]; destruct (Z.gtb_spec r 0); try lia;
      reflexivity.
  - assert (0 < r).
    { destruct (Z.lt_ge_cases 0 r) as [|Hle]; [assumption|].
      assert ((r + Z.of_nat c - 1) / Z.of_nat c < 1); [|lia].
      apply Z.div_lt_upper_bound; lia. }
    destruct fuel as [|fuel]; [lia|].
    cbn [write_loop]. destruct (Z.gtb_spec r 0); [|lia].
    cbn [chunk_sink sink_write]. fold c.
    assert (Hsub : GoInt.sub r (Z.of_nat c) = r - Z.of_nat c).
    { apply wrap_id. unfold GoInt.in_range. lia. }
    rewrite Hsub.
    rewrite (IH fuel (r - Z.of_nat c) (out ++ taken c d)); [| lia | | lia].
    + now rewrite repeated_snoc.
    + replace (r - Z.of_nat c + Z.of_nat c - 1)
        with (r + Z.of_nat c - 1 + (-1) * Z.of_nat c) by lia.
      rewrite Z.div_add by lia. lia.
Qed.

(** X13.  What a sink that takes at most [k] bytes of each write
    receives.  Every round offers the whole text again, so the sink gets
    the first [c = min k (len d)] bytes of the text once per round, and
    the loop counts [c] bytes off per round: after [len d / c] rounds,
    rounded up, it ends and [encodeJSON] returns [nil]. *)
Theorem encodeJSON_chunk_sink (v : value) (width : Z) (d : string)
    (k fuel : nat) :
  formatIndent v width 0 0 = Ok d ->
  0 < len d -> len d < 2 ^ 63 ->
  (0 < k)%nat ->
  let c := Nat.min k (String.length d) in
  let rounds := Z.to_nat ((len d + Z.of_nat c - 1) / Z.of_nat c) in
  (rounds <= fuel)%nat ->
  encodeJSON (chunk_sink k) fuel v width tt =
  Some (Ok tt, tt, repeated rounds (taken c d)).
Proof.
  intros Hd Hpos Hlen Hk c rounds Hfuel. unfold encodeJSON. rewrite Hd.
  rewrite (write_loop_chunks k d Hlen Hk Hpos rounds fuel (len d) "");
    [reflexivity | lia | reflexivity | exact Hfuel].
Qed.

Lemma overwrite_start (p s : string) :
  overwrite O p s = p ++ drop (String.length p) s.
Proof. destruct s; reflexivity. Qed.

(** X14.  [main] opens the file of [-output] without [O_TRUNC], so that
    the text, when it is written without an error, replaces the first
    bytes of a file that is there already: behind the text, the old
    bytes of a longer file stay in the file. *)
Theorem output_file_keeps_old_tail (v : value) (width : Z) (d : string)
    (existing : option string) (fuel : nat) :
  formatIndent v width 0 0 = Ok d ->
  0 < len d -> len d < 2 ^ 63 ->
  encodeJSON output_file (S fuel) v width (open_output existing) =
  Some (Ok tt,
        {| content := d ++ match existing with
                           | Some old => drop (String.length d) old
                           | None => ""
                           end;
           offset := String.length d |},
        d).
Proof.
  intros Hd Hpos Hlen. unfold encodeJSON. rewrite Hd.
  cbn [write_loop]. destruct (Z.gtb_spec (len d) 0); [|lia].
  cbn [output_file sink_write open_output content offset].
  rewrite taken_all, overwrite_start.
  assert (Hr : GoInt.sub (len d) (Z.of_nat (String.length d)) = 0).
  { unfold GoInt.sub, len. rewrite Z.sub_diag. reflexivity. }
  rewrite Hr.
  assert (Hdrop : forall n, drop n "" = "") by (intros [|n]; reflexivity).
  destruct existing as [old|]; [|rewrite Hdrop]; destruct fuel; reflexivity.
Qed.

End Sinks.

Lemma encodeJSON_one_write_witness :
  encodeJSON (E := default_env) full_sink 1 (Array [num 1 0; num 2 0]) 80 tt =
  Some (Ok tt, tt, "[1, 2]").
Proof.
  apply (encodeJSON_one_write (E := default_env) full_sink
           (Array [num 1 0; num 2 0]) 80 "[1, 2]" tt tt 6 None 0);
    vm_compute; reflexivity.
Defined.

Lemma encodeJSON_unsupported_witness :
  let v := Array [num 1 0; Other "int"] in
  exists ty,
    In ty (others v) /\
    encodeJSON (E := default_env) (chunk_sink 4) 10 v 80 tt =
    Some (Err (CantFormat ty), tt, "").
Proof.
  intros v.
  apply (encodeJSON_unsupported (E := default_env) (chunk_sink 4) v 80 tt 10
           in_order_perm); reflexivity.
Defined.

(** A sink that takes nothing and reports no error, after a thousand
    rounds. *)
Lemma encodeJSON_stalled_sink_witness :
  encodeJSON (E := default_env) (chunk_sink 0) 1000
    (Array [num 1 0; num 2 0]) 80 tt = None.
Proof.
  apply (encodeJSON_stalled_sink (E := default_env) (chunk_sink 0)
           (Array [num 1 0; num 2 0]) 80 "[1, 2]");
    try (vm_compute; reflexivity).
  intros []. exists tt. reflexivity.
Defined.

Lemma encodeJSON_chunk_sink_witness :
  encodeJSON (E := default_env) (chunk_sink 4) 2
    (Array [num 1 0; num 2 0]) 80 tt =
  Some (Ok tt, tt, "[1, [1, ").
Proof.
  apply (encodeJSON_chunk_sink (E := default_env)
           (Array [num 1 0; num 2 0]) 80 "[1, 2]" 4 2);
    try (vm_compute; reflexivity); lia.
Defined.

Lemma output_file_keeps_old_tail_witness :
  encodeJSON (E := default_env) output_file 1 (Array [num 1 0; num 2 0]) 80
    (open_output (Some "[1, 2, 3, 4, 5]")) =
  Some (Ok tt, {| content := "[1, 2] 3, 4, 5]"; offset := 6 |}, "[1, 2]").
Proof.
  exact (output_file_keeps_old_tail (E := default_env)
           (Array [num 1 0; num 2 0]) 80 "[1, 2]" (Some "[1, 2, 3, 4, 5]") 0
           ltac:(vm_compute; reflexivity) ltac:(vm_compute; reflexivity)
           ltac:(vm_compute; reflexivity)).
Defined.

Lemma concat_empty_cons (x : string) (l : list string) :
  String.concat "" (x :: l) = x ++ String.concat "" l.
Proof.
  destruct l as [|y l]; cbn [String.concat]; [now rewrite app_empty_r|].
  reflexivity.
Qed.

Section Prefixes.

Context {E : Env}.
Variable K : Sink.

Lemma write_loop_prefixes (d : string) :
  len d < 2 ^ 63 ->
  (forall s0, (fst (fst (sink_write K s0 d)) <= String.length d)%nat) ->
  forall fuel r s out res s' out',
  r <= len d ->
  write_loop K fuel d r s out = Some (res, s', out') ->
  exists ns,
    out' = out ++ String.concat "" (map (fun n => taken n d) ns) /\
    (res = Ok tt -> r <= Z.of_nat (list_sum ns)).
Proof.
  intros Hlen Hn.
  induction fuel as [|fuel IH]; intros r s out res s' out' Hr;
    cbn [write_loop]; destruct (Z.gtb_spec r 0) as [Hpos|Hneg];
    try discriminate.
  - intros [= <- <- <-]. exists []. cbn [map String.concat list_sum].
    rewrite app_empty_r. split; [reflexivity | intros _; lia].
  - pose proof (Hn s) as Hns.
    destruct (sink_write K s d) as [[n err] s1]. cbn [fst] in Hns.
    destruct err as [msg|].
    + intros [= <- <- <-]. exists [n]. cbn [map String.concat].
      split; [reflexivity | discriminate].
    + assert (Hsub : GoInt.sub r (Z.of_nat n) = r - Z.of_nat n).
      { apply wrap_id. unfold GoInt.in_range, len in *. lia. }
      rewrite Hsub. intros H.
      assert (Hr' : r - Z.of_nat n <= len d) by lia.
      destruct (IH _ _ _ _ _ _ Hr' H) as (ns & -> & Hsum).
      exists (n :: ns). cbn [map]. rewrite concat_empty_cons, app_assoc_s.
      split; [reflexivity|]. intros Hres. specialize (Hsum Hres).
      change (list_sum (n :: ns)) with (n + list_sum ns)%nat. lia.
  - intros [= <- <- <-]. exists []. cbn [map String.concat list_sum].
    rewrite app_empty_r. split; [reflexivity | intros _; lia].
Qed.

(** X15.  Whatever the sink does with each write, as long as it takes no
    more bytes than it is offered: what it has received when
    [encodeJSON] returns is a row of pieces, each the first bytes of the
    text, one for each call of [Write]; when [nil] is returned, the
    pieces have at least [len d] bytes together.  The text itself is
    what the sink received only if that row happens to spell it. *)
Theorem encodeJSON_delivers_prefixes (v : value) (width : Z) (d : string)
    (fuel : nat) (s s' : sink_state K) (res : result unit) (out : string) :
  formatIndent v width 0 0 = Ok d ->
  len d < 2 ^ 63 ->
  (forall s0, (fst (fst (sink_write K s0 d)) <= String.length d)%nat) ->
  encodeJSON K fuel v width s = Some (res, s', out) ->
  exists ns,
    out = String.concat "" (map (fun n => taken n d) ns) /\
    (res = Ok tt -> (String.length d <= list_sum ns)%nat).
Proof.
  intros Hd Hlen Hn. unfold encodeJSON. rewrite Hd. intros H.
  destruct (write_loop_prefixes d Hlen Hn fuel (len d) s "" res s' out
              ltac:(lia) H) as (ns & Hout & Hsum).
  exists ns. split; [exact Hout|].
  intros Hres. specialize (Hsum Hres). unfold len in Hsum. lia.
Qed.

End Prefixes.

Lemma encodeJSON_delivers_prefixes_witness :
  exists ns,
    "[1, [1, " = String.concat "" (map (fun n => taken n "[1, 2]") ns) /\
    (Ok tt = Ok tt -> (String.length "[1, 2]" <= list_sum ns)%nat).
Proof.
  apply (encodeJSON_delivers_prefixes (E := default_env) (chunk_sink 4)
           (Array [num 1 0; num 2 0]) 80 "[1, 2]" 10 tt tt (Ok tt) "[1, [1, ");
    try (vm_compute; reflexivity).
  intros []. vm_compute. lia.
Defined.

(** ** Further properties: the indentation of the lines of a block *)

Lemma spaces_add (n m : nat) : spaces (n + m) = spaces n ++ spaces m.
Proof. induction n as [|n IH]; [reflexivity|]. simpl. now rewrite IH. Qed.

Lemma indented_le (n m : nat) (l : string) :
  (n <= m)%nat -> indented m l -> indented n l.
Proof.
  intros Hle [t ->]. exists (spaces (m - n) ++ t).
  replace m with (n + (m - n))%nat at 1 by lia.
  now rewrite spaces_add, app_assoc_s.
Qed.

Lemma item_indented (n1 n2 : nat) (pre d suf c : string) :
  (n1 <= n2)%nat -> has_nl pre = false -> has_nl suf = false ->
  (has_nl d = false \/
   exists op mid,
     lines d = (op :: mid ++ [(spaces n1 ++ c)%string])%list /\
     Forall (indented n2) mid) ->
  Forall (indented n1) (lines (spaces n1 ++ pre ++ d ++ suf)).
Proof.
  intros Hle Hpre Hsuf [Hd | (op & mid & Hl & Hmid)].
  - rewrite lines_one_line
      by now rewrite !has_nl_app, has_nl_spaces, Hpre, Hd, Hsuf.
    constructor; [|constructor]. now exists (pre ++ d ++ suf).
  - assert (H1 : lines (d ++ suf) =
                 ((op :: mid) ++ [((spaces n1 ++ c) ++ suf)%string])%list).
    { apply lines_snoc; [exact Hsuf | exact Hl]. }
    assert (H2 : lines (pre ++ d ++ suf) =
                 ((pre ++ op)%string :: mid ++
                  [((spaces n1 ++ c) ++ suf)%string])%list).
    { rewrite lines_app_l by exact Hpre. rewrite H1. reflexivity. }
    rewrite lines_app_l by apply has_nl_spaces. rewrite H2.
    constructor; [now exists (pre ++ op)|].
    apply Forall_app. split.
    + eapply Forall_impl; [|exact Hmid]. intros l. now apply indented_le.
    + constructor; [|constructor]. exists (c ++ suf). now rewrite app_assoc_s.
Qed.

Section Indentation.

Context {E : Env}.

Hypothesis marshal_string_one_line : forall s, has_nl (marshal_string s) = false.
Hypothesis marshal_float_one_line : forall f, has_nl (marshal_float f) = false.
Hypothesis sprintf_f_one_line : forall f, has_nl (sprintf_f f) = false.
Hypothesis range_block_perm : forall l, Permutation (range_block l) l.
Hypothesis indent_range : 0 <= indent < 2 ^ 63.

(** What [formatIndent] returns is one line, or a block whose inner
    lines are indented by the next level at least. *)
Lemma formatIndent_indented (width : Z) (v : value) :
  forall (level additional : Z) (out : string),
  0 <= level ->
  level + depth v < 2 ^ 63 ->
  (level + depth v) * indent < 2 ^ 63 ->
  formatIndent v width level additional = Ok out ->
  has_nl out = false \/
  exists opening mid,
    lines out =
      (opening :: mid ++
       [(spaces (Z.to_nat (level * indent)) ++ closer v)%string])%list /\
    (opening = "[" \/ opening = "{") /\
    Forall (indented (Z.to_nat ((level + 1) * indent))) mid.
Proof.
  induction v as [ | b | f | s | a IHa | m IHm | ty ] using value_induction;
    intros level additional out Hl Hd Hb H;
    try (simpl in H; injection H as <-; left;
         first [reflexivity | apply marshal_string_one_line
               | apply sprintf_f_one_line | now destruct b]).
  - (* arrays *)
    pose proof (depth_compound_pos (Array a) eq_refl) as Hdep.
    rewrite formatIndent_compound in H by reflexivity.
    apply bind_Ok in H as (c & Hc & H).
    destruct (fits width level additional c).
    { apply Ok_inj in H. subst out. left.
      exact (formatOneLine_one_line marshal_string_one_line
               marshal_float_one_line _ _ Hc). }
    right. cbn [block_form] in H.
    destruct (block_counts level (level + depth (Array a)) indent_range Hl
                ltac:(lia) Hd Hb) as (Hadd & Hm1 & Hm0 & _ & _).
    apply formatArray_shape in H as (items & sp & Hitems & Hsp & ->).
    rewrite Hm0 in Hsp. apply Repeat_space_inv in Hsp. subst sp.
    exists "[", (List.concat (map lines (with_commas items))).
    split; [|split; [now left|]].
    + rewrite lines_app_nl, lines_Join.
      rewrite (lines_one_line (spaces _ ++ "]"))
        by now rewrite has_nl_app, has_nl_spaces.
      reflexivity.
    + apply Forall_concat. intros l Hin.
      apply in_map_iff in Hin as (y & <- & Hy).
      apply with_commas_In in Hy as (item & suf & Hitem & Hsuf & ->).
      destruct (mapM_In_inv _ _ _ _ Hitems Hitem) as (x & Hx & Hfx).
      unfold array_item in Hfx.
      apply bind_Ok in Hfx as (d & Hd' & Hfx).
      apply bind_Ok in Hfx as (sp1 & Hsp1' & Hfx). apply Ok_inj in Hfx.
      subst item. rewrite Hm1 in Hsp1'. apply Repeat_space_inv in Hsp1'.
      subst sp1.
      rewrite Hadd in Hd'.
      pose proof (depth_Array a x Hx) as Hdx.
      pose proof (depth_nonneg x) as Hdx0.
      rewrite Forall_forall in IHa.
      assert (Hle1 : (level + 1 + depth x) * indent <=
                     (level + depth (Array a)) * indent).
      { apply Z.mul_le_mono_nonneg_r; lia. }
      pose proof (IHa x Hx (level + 1) 0 d ltac:(lia) ltac:(lia) ltac:(lia) Hd')
        as IHx.
      rewrite app_assoc_s.
      replace (d ++ suf) with ("" ++ d ++ suf) by reflexivity.
      apply (item_indented _ (Z.to_nat ((level + 1 + 1) * indent)) ""
               d suf (closer x)); [nia | reflexivity | | ].
      * destruct Hsuf as [->| ->]; reflexivity.
      * destruct IHx as [Hnl | (op & mid & Hlines & _ & Hmid)];
          [now left | right]. exists op, mid. split; assumption.
  - (* objects *)
    pose proof (depth_compound_pos (Object m) eq_refl) as Hdep.
    rewrite formatIndent_compound in H by reflexivity.
    apply bind_Ok in H as (c & Hc & H).
    destruct (fits width level additional c).
    { apply Ok_inj in H. subst out. left.
      exact (formatOneLine_one_line marshal_string_one_line
               marshal_float_one_line _ _ Hc). }
    right. cbn [block_form] in H.
    destruct (block_counts level (level + depth (Object m)) indent_range Hl
                ltac:(lia) Hd Hb) as (Hadd & Hm1 & Hm0 & _ & _).
    rewrite formatObject_eq in H by now apply keys_of_length.
    apply bind_Ok in H as (items & Hitems & H).
    apply bind_Ok in H as (last & Hlast & H).
    apply Ok_inj in H. subst out.
    unfold closing in Hlast. apply bind_Ok in Hlast as (sp & Hsp & Hlast).
    apply Ok_inj in Hlast. subst last.
    rewrite Hm0 in Hsp. apply Repeat_space_inv in Hsp. subst sp.
    exists "{", (List.concat (map lines (with_commas items))).
    split; [|split; [now right|]].
    + rewrite Join_block_last, lines_app_nl, lines_Join.
      rewrite (lines_one_line (spaces _ ++ "}"))
        by now rewrite has_nl_app, has_nl_spaces.
      reflexivity.
    + apply Forall_concat. intros l Hin.
      apply in_map_iff in Hin as (y & <- & Hy).
      apply with_commas_In in Hy as (item & suf & Hitem & Hsuf & ->).
      destruct (mapM_In_inv _ _ _ _ Hitems Hitem) as (k & Hk & Hfk).
      unfold object_item in Hfk.
      apply bind_Ok in Hfk as (d & Hd' & Hfk).
      apply bind_Ok in Hfk as (sp1 & Hsp1' & Hfk). apply Ok_inj in Hfk.
      subst item. rewrite Hm1 in Hsp1'. apply Repeat_space_inv in Hsp1'.
      subst sp1.
      replace ((spaces (Z.to_nat ((level + 1) * indent)) ++
                marshal_string k ++ ": " ++ d) ++ suf)
        with (spaces (Z.to_nat ((level + 1) * indent)) ++
              (marshal_string k ++ ": ") ++ d ++ suf)
        by now rewrite !app_assoc_s.
      assert (Hpre : has_nl (marshal_string k ++ ": ") = false)
        by now rewrite has_nl_app, marshal_string_one_line.
      assert (Hns : has_nl suf = false)
        by (destruct Hsuf as [->| ->]; reflexivity).
      unfold entry_or_null, block_vals in Hd'.
      rewrite lookup_each_entry in Hd'.
      destruct (lookup k m) as [x|] eqn:Hkx; simpl in Hd'.
      * pose proof (lookup_In k m x Hkx) as Hin.
        pose proof (depth_Object m k x Hin) as Hdx.
        pose proof (depth_nonneg x) as Hdx0.
        assert (Hle1 : (level + 1 + depth x) * indent <=
                       (level + depth (Object m)) * indent).
        { apply Z.mul_le_mono_nonneg_r; lia. }
        rewrite Hadd in Hd'.
        rewrite Forall_forall in IHm.
        pose proof (IHm (k, x) Hin) as IHx. cbn [snd] in IHx.
        specialize (IHx (level + 1) _ d ltac:(lia) ltac:(lia) ltac:(lia) Hd').
        apply (item_indented _ (Z.to_nat ((level + 1 + 1) * indent)) _
                 d suf (closer x)); [nia | exact Hpre | exact Hns | ].
        destruct IHx as [Hnl | (op & mid & Hlines & _ & Hmid)];
          [now left | right]. exists op, mid. split; assumption.
      * apply Ok_inj in Hd'. subst d.
        apply (item_indented _ (Z.to_nat ((level + 1) * indent)) _
                 "null" suf ""); [lia | exact Hpre | exact Hns | now left].
  - discriminate.
Qed.

(** X16.  Nesting shows as indentation.  A rendering over several lines
    at [level] is a block: an opening bracket, then lines that all start
    with at least [(level+1)*indent] spaces, then the closing bracket
    behind exactly [level*indent] spaces. *)
Theorem block_lines_indented (v : value) (width level additional : Z)
    (out : string) :
  0 <= level ->
  level + depth v < 2 ^ 63 ->
  (level + depth v) * indent < 2 ^ 63 ->
  formatIndent v width level additional = Ok out ->
  has_nl out = true ->
  exists opening mid,
    lines out =
      (opening :: mid ++
       [(spaces (Z.to_nat (level * indent)) ++ closer v)%string])%list /\
    (opening = "[" \/ opening = "{") /\
    Forall (indented (Z.to_nat ((level + 1) * indent))) mid.
Proof.
  intros Hl Hd Hb H Hnl.
  destruct (formatIndent_indented width v level additional out Hl Hd Hb H)
    as [Hone | Hblock]; [congruence | exact Hblock].
Qed.

End Indentation.

Lemma block_lines_indented_witness :
  let q := GoLib.dquote in
  let v := Object [("k", Array [num 1 0; num 2 0])] in
  formatIndent (E := default_env) v 8 0 0 =
    Ok ("{" ++ nl ++ "  " ++ q ++ "k" ++ q ++ ": [" ++ nl ++
        "    1," ++ nl ++ "    2" ++ nl ++ "  ]" ++ nl ++ "}") /\
  exists opening mid,
    lines ("{" ++ nl ++ "  " ++ q ++ "k" ++ q ++ ": [" ++ nl ++
           "    1," ++ nl ++ "    2" ++ nl ++ "  ]" ++ nl ++ "}") =
      (opening :: mid ++ ["}"])%list /\
    (opening = "[" \/ opening = "{") /\
    Forall (indented 2) mid.
Proof.
  intros q v.
  assert (H : formatIndent (E := default_env) v 8 0 0 =
    Ok ("{" ++ nl ++ "  " ++ q ++ "k" ++ q ++ ": [" ++ nl ++
        "    1," ++ nl ++ "    2" ++ nl ++ "  ]" ++ nl ++ "}"))
    by (vm_compute; reflexivity).
  split; [exact H|].
  exact (block_lines_indented (E := default_env)
           GoLibFacts.marshal_string_one_line GoLibFacts.marshal_float_one_line
           GoLibFacts.sprintf_f_one_line in_order_perm ltac:(simpl; lia)
           v 8 0 0 _ ltac:(lia) ltac:(vm_compute; reflexivity)
           ltac:(vm_compute; reflexivity) H ltac:(vm_compute; reflexivity)).
Defined.

(** ** Further properties: the brackets at both ends *)

Lemma Join_head (x : string) (l : list string) (sep : string) :
  exists t, Join (x :: l) sep = x ++ t.
Proof.
  destruct l as [|y l].
  - exists "". simpl. now rewrite app_empty_r.
  - exists (sep ++ Join (y :: l) sep). apply Join_cons2.
Qed.

Section Brackets.

Context {E : Env}.

(** X17.  What [formatIndent] writes for an array or an object starts
    with its opening bracket and ends with its closing bracket, on one
    line or as a block. *)
Theorem output_in_brackets (v : value) (width level additional : Z)
    (out : string) :
  (forall l, Permutation (range_block l) l) ->
  compound v = true ->
  formatIndent v width level additional = Ok out ->
  exists body, out = opener v ++ body ++ closer v.
Proof.
  intros Hr Hc H. rewrite formatIndent_compound in H by assumption.
  apply bind_Ok in H as (c & Hone & H).
  destruct (fits width level additional c).
  - apply Ok_inj in H. subst out.
    destruct v as [ | | | | a | m | ]; try discriminate;
      cbn [formatOneLine] in Hone.
    + rewrite formatArrayOneLine_eq in Hone.
      apply bind_Ok in Hone as (ds & _ & Hone). apply Ok_inj in Hone.
      subst c. now exists (Join ds ", ").
    + rewrite formatObjectOneLine_eq in Hone.
      apply bind_Ok in Hone as (ds & _ & Hone). apply Ok_inj in Hone.
      subst c. now exists (Join ds ", ").
  - destruct v as [ | | | | a | m | ]; try discriminate; cbn [block_form] in H.
    + apply formatArray_shape in H as (items & sp & _ & _ & ->).
      destruct (Join_head "[" (with_commas items) nl) as [t ->].
      exists (t ++ nl ++ sp). cbn [opener closer].
      now rewrite !app_assoc_s.
    + rewrite formatObject_eq in H by now apply keys_of_length.
      apply bind_Ok in H as (items & _ & H).
      apply bind_Ok in H as (last & Hlast & H). apply Ok_inj in H. subst out.
      unfold closing in Hlast. apply bind_Ok in Hlast as (sp & _ & Hlast).
      apply Ok_inj in Hlast. subst last.
      rewrite Join_block_last.
      destruct (Join_head "{" (with_commas items) nl) as [t ->].
      exists (t ++ nl ++ sp). cbn [opener closer].
      now rewrite !app_assoc_s.
Qed.

End Brackets.

Lemma output_in_brackets_witness :
  exists body,
    "[" ++ nl ++ "  1," ++ nl ++ "  2" ++ nl ++ "]" = "[" ++ body ++ "]".
Proof.
  exact (output_in_brackets (E := default_env) (Array [num 1 0; num 2 0])
           5 0 0 ("[" ++ nl ++ "  1," ++ nl ++ "  2" ++ nl ++ "]")
           in_order_perm eq_refl ltac:(vm_compute; reflexivity)).
Defined.

(** ** Further properties: the round trip in any order of the keys *)

Lemma Forall2_split_ex {A B C : Type} (P : A -> C -> Prop) (Q : C -> B -> Prop)
    (l : list A) (l' : list B) :
  Forall2 (fun x y => exists z, P x z /\ Q z y) l l' ->
  exists zs, Forall2 P l zs /\ Forall2 Q zs l'.
Proof.
  induction 1 as [|x y l l' (z & Hp & Hq) _ (zs & HP & HQ)].
  - exists []. split; constructor.
  - exists (z :: zs). split; constructor; assumption.
Qed.

Lemma Forall2_In_ex {A B : Type} (R : A -> B -> Prop) (l : list A)
    (l' : list B) (x : A) :
  Forall2 R l l' -> In x l -> exists y, In y l' /\ R x y.
Proof.
  induction 1 as [|a b l l' Hab _ IH]; [intros []|].
  intros [->|Hx].
  - exists b. split; [now left | exact Hab].
  - destruct (IH Hx) as (y & Hy & Hxy). exists y. split; [now right | exact Hxy].
Qed.

Lemma Forall2_map_r {A B C : Type} (R : A -> C -> Prop) (h : B -> C)
    (l : list A) (l' : list B) :
  Forall2 (fun x y => R x (h y)) l l' -> Forall2 R l (map h l').
Proof. induction 1; simpl; constructor; auto. Qed.

Section DecodePieces.

Context {D : Decoder}.

(** The decoder on an array written piece by piece. *)
Lemma parse_array_of_pieces (f : nat) (vs : list value)
    (w1 d1 : string) (pieces : list string) (w rest : string) :
  Forall2 (reads (parse_value f)) vs ((w1 ++ d1) :: pieces) ->
  all_ws w1 = true -> starts_value d1 -> all_ws w = true ->
  (List.length vs <= f)%nat ->
  parse_value (S f)
    (String "[" (commas ((w1 ++ d1) :: pieces) (w ++ "]") ++ rest)) =
  Some (Array vs, rest).
Proof.
  intros HF Hw1 Hsv Hw Hlen. rewrite parse_value_array.
  destruct (commas_head (w1 ++ d1) pieces (w ++ "]")) as [t Ht].
  rewrite Ht at 1.
  replace (((w1 ++ d1) ++ t) ++ rest) with (w1 ++ d1 ++ t ++ rest)
    by now rewrite !app_assoc_s.
  rewrite (skip_ws_all_ws w1) by exact Hw1.
  destruct (skip_ws_starts_value d1 (t ++ rest) Hsv)
    as (ch & r & Hskip & _ & Hch & _).
  rewrite Hskip. apply N.eqb_neq in Hch. rewrite Hch.
  rewrite (parse_elements_commas (parse_value f) vs ((w1 ++ d1) :: pieces));
    [reflexivity | exact HF | | exact Hw | exact Hlen].
  inversion HF; discriminate.
Qed.

(** The decoder on an object written piece by piece. *)
Lemma parse_object_of_pieces (f : nat) (kvs : list (string * value))
    (w1 d1 : string) (pieces : list string) (w rest : string) :
  Forall2 (member_reads (parse_value f)) kvs ((w1 ++ d1) :: pieces) ->
  all_ws w1 = true -> starts_value d1 -> all_ws w = true ->
  (List.length kvs <= f)%nat ->
  NoDup (map fst kvs) ->
  parse_value (S f)
    (String "{" (commas ((w1 ++ d1) :: pieces) (w ++ "}") ++ rest)) =
  Some (Object kvs, rest).
Proof.
  intros HF Hw1 Hsv Hw Hlen Hnd. rewrite parse_value_object.
  destruct (commas_head (w1 ++ d1) pieces (w ++ "}")) as [t Ht].
  rewrite Ht at 1.
  replace (((w1 ++ d1) ++ t) ++ rest) with (w1 ++ d1 ++ t ++ rest)
    by now rewrite !app_assoc_s.
  rewrite (skip_ws_all_ws w1) by exact Hw1.
  destruct (skip_ws_starts_value d1 (t ++ rest) Hsv)
    as (ch & r & Hskip & _ & _ & Hch).
  rewrite Hskip. apply N.eqb_neq in Hch. rewrite Hch.
  rewrite (parse_members_commas (parse_value f) kvs ((w1 ++ d1) :: pieces));
    [reflexivity | exact HF | | exact Hw | exact Hlen | exact Hnd].
  inversion HF; discriminate.
Qed.

End DecodePieces.

(** What is read for the keys of a map, in the order of a walk, is the
    same document as the map. *)
Lemma same_document_of_keys (m kvs : list (string * value))
    (keys : list string) :
  Permutation keys (map fst m) -> NoDup keys ->
  Forall2 (fun k kv => fst kv = k /\
                       exists x, lookup k m = Some x /\
                                 same_document x (snd kv)) keys kvs ->
  map fst kvs = keys /\ same_document (Object m) (Object kvs).
Proof.
  intros Hperm Hnd HF.
  assert (Hkeys : map fst kvs = keys).
  { clear -HF. induction HF as [|k kv keys kvs [Hk _] _ IH]; [reflexivity|].
    cbn [map]. now rewrite Hk, IH. }
  split; [exact Hkeys|]. apply same_object.
  - rewrite Hkeys. now symmetry.
  - intros k x Hx.
    assert (Hk : In k keys).
    { apply (Permutation_in k (Permutation_sym Hperm)).
      apply in_map_iff. exists (k, x). split; [reflexivity|].
      now apply lookup_In. }
    destruct (Forall2_In_ex _ _ _ k HF Hk) as ([k' y] & Hin & Hfst & x0 & Hx0 & Hs).
    cbn [fst snd] in *. subst k'.
    rewrite Hx in Hx0. injection Hx0 as <-.
    exists y. split; [|exact Hs].
    apply lookup_distinct; [now rewrite Hkeys | exact Hin].
Qed.

Lemma padded_oneline (d : string) (ds : list string) :
  Forall2 padded (d :: ds) (d :: map (fun x => " " ++ x) ds).
Proof.
  constructor; [now exists ""|].
  induction ds as [|x ds IH]; simpl; constructor; [now exists " " | exact IH].
Qed.

Lemma padded_block (items : list string) :
  Forall2 padded items (map (fun i => nl ++ i) items).
Proof.
  induction items as [|x items IH]; simpl; constructor;
    [now exists nl | exact IH].
Qed.

Section Written.

Context {D : Decoder}.

(** The decoder on the text of an array whose elements it reads. *)
Lemma parse_written_array (a vs : list value) (items pieces : list string)
    (w rest : string) (f : nat) :
  Forall2 (element_written a) vs items ->
  Forall2 padded items pieces ->
  vs <> [] ->
  all_ws w = true ->
  (forall x, In x a -> (steps x <= f)%nat) ->
  (List.length vs <= f)%nat ->
  ends_number rest ->
  parse_value (S f) (String "[" (commas pieces (w ++ "]") ++ rest)) =
  Some (Array vs, rest).
Proof.
  intros HF HP Hne Hw Hsteps Hlen Hrest.
  assert (HR : Forall2 (reads (parse_value f)) vs pieces).
  { clear Hne Hlen. revert pieces HP.
    induction HF as [|x' i vs items (x & w1 & d & Hx & -> & Hw1 & _ & Hp) _ IH];
      intros pieces HP; inversion HP as [|? p ? ps (w0 & Hw0 & ->) HP']; subst;
      constructor; [|now apply IH].
    rewrite <- app_assoc_s. apply reads_of_parse.
    - intros R HR. apply Hp; [now apply Hsteps | exact HR].
    - now apply all_ws_app. }
  destruct HF as [|x' i vs items (x & w1 & d & Hx & -> & Hw1 & Hsv & Hp) HF];
    [congruence|].
  inversion HP as [|? p ? ps (w0 & Hw0 & ->) HP']; subst.
  rewrite <- app_assoc_s in *.
  apply parse_array_of_pieces; auto. now apply all_ws_app.
Qed.

(** The decoder on the text of an object whose entries it reads. *)
Lemma parse_written_object (m kvs : list (string * value))
    (items pieces : list string) (w rest : string) (f : nat) :
  Forall2 (member_written m) kvs items ->
  Forall2 padded items pieces ->
  kvs <> [] ->
  all_ws w = true ->
  (forall k x, In (k, x) m -> (steps x <= f)%nat) ->
  (List.length kvs <= f)%nat ->
  NoDup (map fst kvs) ->
  ends_number rest ->
  parse_value (S f) (String "{" (commas pieces (w ++ "}") ++ rest)) =
  Some (Object kvs, rest).
Proof.
  intros HF HP Hne Hw Hsteps Hlen Hnd Hrest.
  assert (HR : Forall2 (member_reads (parse_value f)) kvs pieces).
  { clear Hne Hlen Hnd. revert pieces HP.
    induction HF
      as [|kv i kvs items
            (x & w1 & q & body & d & Hx & -> & Hw1 & Hq & Hscan & Hun & Hp) _ IH];
      intros pieces HP; inversion HP as [|? p ? ps (w0 & Hw0 & ->) HP']; subst;
      constructor; [|now apply IH].
    exists (w0 ++ w1), q, body, d.
    split; [now rewrite app_assoc_s|].
    split; [now apply all_ws_app|].
    repeat split; auto.
    apply (reads_of_parse f (snd kv) d); [|reflexivity].
    intros R HR. apply Hp; [exact (Hsteps _ _ Hx) | exact HR]. }
  destruct HF
    as [|kv i kvs items
          (x & w1 & q & body & d & Hx & -> & Hw1 & Hq & Hscan & Hun & Hp) HF];
    [congruence|].
  inversion HP as [|? p ? ps (w0 & Hw0 & ->) HP']; subst.
  rewrite <- app_assoc_s in *.
  apply parse_object_of_pieces; auto.
  - now apply all_ws_app.
  - simpl. unfold is_ws. rewrite Hq. repeat split; discriminate.
Qed.

End Written.

Section ReadBackAny.

Context {E : Env} {D : Decoder}.

Hypothesis range_block_perm : forall l, Permutation (range_block l) l.
Hypothesis range_oneline_perm : forall l, Permutation (range_oneline l) l.

Lemma keys_of_NoDup (range : list string -> list string)
    (m : list (string * value)) :
  (forall l, Permutation (range l) l) ->
  maps_ok (Object m) = true -> NoDup (keys_of range m).
Proof.
  intros Hr Hm. cbn [maps_ok] in Hm. apply andb_prop in Hm as [Hd _].
  apply (Permutation_NoDup (Permutation_sym (keys_of_perm range m Hr))).
  now apply distinct_NoDup.
Qed.

Lemma steps_of_elements (a : list value) (f : nat) :
  (steps (Array a) <= S f)%nat ->
  (forall x, In x a -> (steps x <= f)%nat) /\ (List.length a <= f)%nat.
Proof.
  cbn [steps]. intros H. split; [|lia].
  intros x Hx. pose proof (steps_Array _ _ Hx). lia.
Qed.

Lemma steps_of_entries (m : list (string * value)) (f : nat) :
  (steps (Object m) <= S f)%nat ->
  (forall k x, In (k, x) m -> (steps x <= f)%nat) /\ (List.length m <= f)%nat.
Proof.
  cbn [steps]. intros H. split; [|lia].
  intros k x Hx. pose proof (steps_Object _ _ _ Hx). lia.
Qed.

(** The decoder reads the one-line form of a value back as the same
    document. *)
Lemma parse_formatOneLine_any (v : value) :
  tokens_round_trip v = true -> maps_ok v = true ->
  forall c,
  formatOneLine v = Ok c ->
  exists v',
    same_document v v' /\
    forall fuel rest, (steps v <= fuel)%nat -> ends_number rest ->
                      parse_value fuel (c ++ rest) = Some (v', rest).
Proof.
  induction v as [ | b | f | s | a IHa | m IHm | ty ] using value_induction;
    intros Ht Hm c Hc;
    try (eexists; split; [now apply same_scalar|];
         intros fuel rest Hfuel Hrest;
         destruct fuel as [|fuel]; [simpl in Hfuel; lia|];
         now apply parse_oneline_scalar).
  - (* arrays *)
    cbn [formatOneLine] in Hc. rewrite formatArrayOneLine_eq in Hc.
    apply bind_Ok in Hc as (ds & Hds & Hc). apply Ok_inj in Hc. subst c.
    assert (Hall : Forall2
              (fun x d => exists x',
                 same_document x x' /\ element_written a x' d) a ds).
    { apply (Forall2_In_l _ _ _ _ (mapM_Forall2 _ _ _ Hds)).
      intros x d Hx Hd. rewrite Forall_forall in IHa.
      pose proof (tokens_Array _ _ Ht Hx) as Htx.
      destruct (IHa x Hx Htx (maps_ok_Array _ _ Hm Hx) d Hd) as (x' & Hs & Hp).
      exists x'. split; [exact Hs|]. exists x, "", d.
      repeat split; auto.
      exact (formatOneLine_starts_value x d Htx Hd). }
    apply Forall2_split_ex in Hall as (vs & HP & HQ).
    exists (Array vs). split; [now apply same_array|].
    intros fuel rest Hfuel Hrest.
    destruct fuel as [|f]; [simpl in Hfuel; lia|].
    destruct (steps_of_elements a f Hfuel) as [Hsteps Hlen].
    pose proof (Forall2_length HP) as Hlen'.
    destruct ds as [|d ds'].
    { inversion HQ; subst. reflexivity. }
    change (("[" ++ Join (d :: ds') ", " ++ "]") ++ rest)
      with (String "[" ((Join (d :: ds') ", " ++ "]") ++ rest)).
    rewrite Join_commas_oneline.
    apply (parse_written_array a vs (d :: ds') _ "" rest f HQ
             (padded_oneline d ds')); auto; [|lia].
    inversion HQ; discriminate.
  - (* objects *)
    cbn [formatOneLine] in Hc. rewrite formatObjectOneLine_eq in Hc.
    apply bind_Ok in Hc as (ds & Hds & Hc). apply Ok_inj in Hc. subst c.
    pose proof (keys_of_NoDup range_oneline m range_oneline_perm Hm) as Hnd.
    pose proof (keys_of_perm range_oneline m range_oneline_perm) as Hperm.
    pose proof (keys_of_length range_oneline m range_oneline_perm) as Hklen.
    assert (Hall : Forall2
              (fun k p => exists kv,
                 (fst kv = k /\
                  exists x, lookup k m = Some x /\ same_document x (snd kv)) /\
                 member_written m kv p)
              (keys_of range_oneline m) ds).
    { apply (Forall2_In_l _ _ _ _ (mapM_Forall2 _ _ _ Hds)).
      intros k p Hk Hp.
      destruct (key_of_keys range_oneline m k range_oneline_perm Hk) as [x Hx].
      pose proof (lookup_In k m x Hx) as Hkx.
      destruct (tokens_Object m k x Ht Hkx) as [Hsk Htx].
      unfold oneline_entry, entry_or_null in Hp.
      rewrite lookup_each_entry, Hx in Hp. simpl in Hp.
      apply bind_Ok in Hp as (d & Hd & Hp). apply Ok_inj in Hp. subst p.
      rewrite Forall_forall in IHm.
      destruct (IHm (k, x) Hkx Htx (maps_ok_Object m k x Hm Hkx) d Hd)
        as (x' & Hs & Hpx).
      apply string_round_trip_inv in Hsk as (q & body & Hq1 & Hq & Hscan & Hun).
      exists (k, x'). cbn [fst snd].
      split; [split; [reflexivity | now exists x]|].
      rewrite Hq1. exists x, "", q, body, d. cbn [fst snd].
      repeat split; auto. }
    apply Forall2_split_ex in Hall as (kvs & HP & HQ).
    destruct (same_document_of_keys m kvs _ Hperm Hnd HP) as [Hkeys Hsame].
    exists (Object kvs). split; [exact Hsame|].
    intros fuel rest Hfuel Hrest.
    destruct fuel as [|f]; [simpl in Hfuel; lia|].
    destruct (steps_of_entries m f Hfuel) as [Hsteps Hlen].
    pose proof (Forall2_length HP) as Hlen'.
    destruct ds as [|p ps].
    { inversion HQ; subst. reflexivity. }
    change (("{" ++ Join (p :: ps) ", " ++ "}") ++ rest)
      with (String "{" ((Join (p :: ps) ", " ++ "}") ++ rest)).
    rewrite Join_commas_oneline.
    apply (parse_written_object m kvs (p :: ps) _ "" rest f HQ
             (padded_oneline p ps)); auto.
    + inversion HQ; discriminate.
    + lia.
    + now rewrite Hkeys.
Qed.

(** The decoder reads what [formatIndent] writes back as the same
    document. *)
Lemma parse_formatIndent_any (v : value) (width : Z) :
  tokens_round_trip v = true -> maps_ok v = true ->
  forall level additional out,
  formatIndent v width level additional = Ok out ->
  exists v',
    same_document v v' /\
    forall fuel rest, (steps v <= fuel)%nat -> ends_number rest ->
                      parse_value fuel (out ++ rest) = Some (v', rest).
Proof.
  induction v as [ | b | f | s | a IHa | m IHm | ty ] using value_induction;
    intros Ht Hm level additional out H;
    try (rewrite formatIndent_scalar in H by (auto; reflexivity);
         now apply (parse_formatOneLine_any _ Ht Hm)).
  - (* arrays *)
    rewrite formatIndent_compound in H by reflexivity.
    apply bind_Ok in H as (c & Hc & H).
    destruct (fits width level additional c).
    { apply Ok_inj in H. subst out.
      now apply (parse_formatOneLine_any _ Ht Hm). }
    cbn [block_form] in H. rewrite formatArray_eq in H.
    apply bind_Ok in H as (items & Hitems & H).
    apply bind_Ok in H as (last & Hlast & H). apply Ok_inj in H. subst out.
    unfold closing in Hlast. apply bind_Ok in Hlast as (sp0 & Hsp0 & Hlast).
    apply Ok_inj in Hlast. subst last.
    apply Repeat_space_inv in Hsp0.
    assert (Hall : Forall2
              (fun x i => exists x',
                 same_document x x' /\ element_written a x' i) a items).
    { apply (Forall2_In_l _ _ _ _ (mapM_Forall2 _ _ _ Hitems)).
      intros x i Hx Hi. unfold array_item in Hi.
      apply bind_Ok in Hi as (d & Hd & Hi).
      apply bind_Ok in Hi as (sp1 & Hsp1 & Hi). apply Ok_inj in Hi. subst i.
      apply Repeat_space_inv in Hsp1.
      pose proof (tokens_Array _ _ Ht Hx) as Htx.
      rewrite Forall_forall in IHa.
      destruct (IHa x Hx Htx (maps_ok_Array _ _ Hm Hx) _ _ d Hd)
        as (x' & Hs & Hp).
      exists x'. split; [exact Hs|]. exists x, sp1, d.
      repeat split; auto.
      - subst sp1. apply all_ws_spaces.
      - exact (formatIndent_starts_value range_block_perm _ _ _ _ _ Htx Hd). }
    apply Forall2_split_ex in Hall as (vs & HP & HQ).
    exists (Array vs). split; [now apply same_array|].
    intros fuel rest Hfuel Hrest.
    destruct fuel as [|f]; [simpl in Hfuel; lia|].
    destruct (steps_of_elements a f Hfuel) as [Hsteps Hlen].
    pose proof (Forall2_length HP) as Hlen'.
    destruct items as [|i1 items'].
    + (* the empty array *)
      inversion HQ; subst.
      cbn [with_commas app]. rewrite Join_cons2. cbn [Join String.concat].
      rewrite !app_assoc_s. cbn [String.append].
      rewrite parse_value_array.
      rewrite (skip_ws_all_ws nl), (skip_ws_all_ws (spaces _))
        by first [reflexivity | apply all_ws_spaces].
      reflexivity.
    + rewrite Join_block_commas.
      change (("[" ++ commas (map (fun i => nl ++ i) (i1 :: items'))
                        (nl ++ sp0 ++ "]")) ++ rest)
        with (String "["
                (commas (map (fun i => nl ++ i) (i1 :: items'))
                        (nl ++ sp0 ++ "]") ++ rest)).
      rewrite <- (app_assoc_s nl sp0 "]").
      apply (parse_written_array a vs (i1 :: items') _ (nl ++ sp0) rest f HQ
               (padded_block (i1 :: items'))); auto; [| |lia].
      * inversion HQ; discriminate.
      * subst sp0. apply all_ws_app; [reflexivity | apply all_ws_spaces].
  - (* objects *)
    rewrite formatIndent_compound in H by reflexivity.
    apply bind_Ok in H as (c & Hc & H).
    destruct (fits width level additional c).
    { apply Ok_inj in H. subst out.
      now apply (parse_formatOneLine_any _ Ht Hm). }
    cbn [block_form] in H.
    rewrite formatObject_eq in H by now apply keys_of_length.
    apply bind_Ok in H as (items & Hitems & H).
    apply bind_Ok in H as (last & Hlast & H). apply Ok_inj in H. subst out.
    unfold closing in Hlast. apply bind_Ok in Hlast as (sp0 & Hsp0 & Hlast).
    apply Ok_inj in Hlast. subst last.
    apply Repeat_space_inv in Hsp0.
    pose proof (keys_of_NoDup range_block m range_block_perm Hm) as Hnd.
    pose proof (keys_of_perm range_block m range_block_perm) as Hperm.
    pose proof (keys_of_length range_block m range_block_perm) as Hklen.
    assert (Hall : Forall2
              (fun k i => exists kv,
                 (fst kv = k /\
                  exists x, lookup k m = Some x /\ same_document x (snd kv)) /\
                 member_written m kv i)
              (keys_of range_block m) items).
    { apply (Forall2_In_l _ _ _ _ (mapM_Forall2 _ _ _ Hitems)).
      intros k i Hk Hi.
      destruct (key_of_keys range_block m k range_block_perm Hk) as [x Hx].
      pose proof (lookup_In k m x Hx) as Hkx.
      destruct (tokens_Object m k x Ht Hkx) as [Hsk Htx].
      unfold object_item, entry_or_null, block_vals in Hi.
      rewrite lookup_each_entry, Hx in Hi. simpl in Hi.
      apply bind_Ok in Hi as (d & Hd & Hi).
      apply bind_Ok in Hi as (sp1 & Hsp1 & Hi). apply Ok_inj in Hi. subst i.
      apply Repeat_space_inv in Hsp1.
      rewrite Forall_forall in IHm.
      destruct (IHm (k, x) Hkx Htx (maps_ok_Object m k x Hm Hkx) _ _ d Hd)
        as (x' & Hs & Hpx).
      apply string_round_trip_inv in Hsk as (q & body & Hq1 & Hq & Hscan & Hun).
      exists (k, x'). cbn [fst snd].
      split; [split; [reflexivity | now exists x]|].
      rewrite Hq1. exists x, sp1, q, body, d. cbn [fst snd].
      repeat split; auto. subst sp1. apply all_ws_spaces. }
    apply Forall2_split_ex in Hall as (kvs & HP & HQ).
    destruct (same_document_of_keys m kvs _ Hperm Hnd HP) as [Hkeys Hsame].
    exists (Object kvs). split; [exact Hsame|].
    intros fuel rest Hfuel Hrest.
    destruct fuel as [|f]; [simpl in Hfuel; lia|].
    destruct (steps_of_entries m f Hfuel) as [Hsteps Hlen].
    pose proof (Forall2_length HP) as Hlen'.
    destruct items as [|i1 items'].
    + (* the empty object *)
      inversion HQ; subst.
      cbn [with_commas app]. rewrite Join_cons2. cbn [Join String.concat].
      rewrite !app_assoc_s. cbn [String.append].
      rewrite parse_value_object.
      rewrite (skip_ws_all_ws nl), (skip_ws_all_ws (spaces _))
        by first [reflexivity | apply all_ws_spaces].
      reflexivity.
    + rewrite Join_block_commas.
      change (("{" ++ commas (map (fun i => nl ++ i) (i1 :: items'))
                        (nl ++ sp0 ++ "}")) ++ rest)
        with (String "{"
                (commas (map (fun i => nl ++ i) (i1 :: items'))
                        (nl ++ sp0 ++ "}") ++ rest)).
      rewrite <- (app_assoc_s nl sp0 "}").
      apply (parse_written_object m kvs (i1 :: items') _ (nl ++ sp0) rest f HQ
               (padded_block (i1 :: items'))); auto.
      * inversion HQ; discriminate.
      * subst sp0. apply all_ws_app; [reflexivity | apply all_ws_spaces].
      * lia.
      * now rewrite Hkeys.
Qed.

(** X18.  The structural round trip, whatever the flags and the order in
    which the run walks the maps.  For a document with distinct keys
    whose strings and numbers are read back as they are written, the
    decoder reads from the text that [formatIndent] writes the same
    document: the same scalars, the elements of every array in their
    order, the keys of every object with their values. *)
Theorem decode_formatIndent_same_document (v : value) (width : Z)
    (out : string) :
  tokens_round_trip v = true -> maps_ok v = true ->
  formatIndent v width 0 0 = Ok out ->
  exists v',
    same_document v v' /\
    forall fuel, (steps v <= fuel)%nat -> decode fuel out = Some v'.
Proof.
  intros Ht Hm H.
  destruct (parse_formatIndent_any v width Ht Hm 0 0 out H) as (v' & Hs & Hp).
  exists v'. split; [exact Hs|].
  intros fuel Hfuel. unfold decode.
  pose proof (Hp fuel "" Hfuel I) as Hp'.
  rewrite app_empty_r in Hp'. now rewrite Hp'.
Qed.

End ReadBackAny.

Lemma decode_formatIndent_same_document_witness :
  let q := GoLib.dquote in
  let v := Object [("k", Array [Str "a"; Null; num 5 0]); ("b", num 7 0)] in
  let out := "{" ++ nl ++ "  " ++ q ++ "b" ++ q ++ ": 7," ++ nl ++
             "  " ++ q ++ "k" ++ q ++ ": [" ++ nl ++
             "    " ++ q ++ "a" ++ q ++ "," ++ nl ++
             "    null," ++ nl ++ "    5" ++ nl ++ "  ]" ++ nl ++ "}" in
  formatIndent (E := reversed_env) v 10 0 0 = Ok out /\
  exists v',
    same_document v v' /\
    forall fuel, (steps v <= fuel)%nat ->
                 decode (D := go_decoder) fuel out = Some v'.
Proof.
  intros q v out.
  assert (H : formatIndent (E := reversed_env) v 10 0 0 = Ok out)
    by (vm_compute; reflexivity).
  split; [exact H|].
  apply (decode_formatIndent_same_document (E := reversed_env)
           (D := go_decoder)
           ltac:(intros l; symmetry; apply Permutation_rev)
           ltac:(intros l; symmetry; apply Permutation_rev) v 10 out);
    [vm_compute; reflexivity | vm_compute; reflexivity | exact H].
Defined.

(** ** Further properties: [encodeJSON] returns *)

Section Progress.

Context {E : Env}.
Variable K : Sink.

Lemma write_loop_returns (d : string) :
  len d < 2 ^ 63 ->
  (forall s0,
     (1 <= fst (fst (sink_write K s0 d)) <= String.length d)%nat \/
     snd (fst (sink_write K s0 d)) <> None) ->
  forall fuel r s out,
  r <= len d -> (Z.to_nat r <= fuel)%nat ->
  exists res s' out', write_loop K fuel d r s out = Some (res, s', out').
Proof.
  intros Hlen Hprog.
  induction fuel as [|fuel IH]; intros r s out Hr Hfuel; cbn [write_loop];
    destruct (Z.gtb_spec r 0) as [Hpos|Hneg]; try lia; eauto.
  pose proof (Hprog s) as Hs.
  destruct (sink_write K s d) as [[n err] s1]. cbn [fst snd] in Hs.
  destruct err as [msg|]; [eauto|].
  destruct Hs as [Hn|Hn]; [|congruence].
  assert (Hsub : GoInt.sub r (Z.of_nat n) = r - Z.of_nat n).
  { apply wrap_id. unfold GoInt.in_range, len in *. lia. }
  rewrite Hsub. apply IH; lia.
Qed.

(** X19.  With a sink that makes progress, every write taking at least
    one byte, and no more than offered, or returning an error,
    [encodeJSON] returns after [len d] calls of [Write] at most. *)
Theorem encodeJSON_returns (v : value) (width : Z) (d : string)
    (fuel : nat) (s : sink_state K) :
  formatIndent v width 0 0 = Ok d ->
  len d < 2 ^ 63 ->
  (forall s0,
     (1 <= fst (fst (sink_write K s0 d)) <= String.length d)%nat \/
     snd (fst (sink_write K s0 d)) <> None) ->
  (String.length d <= fuel)%nat ->
  exists res s' out, encodeJSON K fuel v width s = Some (res, s', out).
Proof.
  intros Hd Hlen Hprog Hfuel. unfold encodeJSON. rewrite Hd.
  apply write_loop_returns; try assumption; unfold len; lia.
Qed.

End Progress.

Lemma encodeJSON_returns_witness :
  exists res s' out,
    encodeJSON (E := default_env) (chunk_sink 1) 6
      (Array [num 1 0; num 2 0]) 80 tt = Some (res, s', out).
Proof.
  apply (encodeJSON_returns (E := default_env) (chunk_sink 1)
           (Array [num 1 0; num 2 0]) 80 "[1, 2]" 6 tt);
    try (vm_compute; reflexivity).
  intros []. left. vm_compute. lia.
Defined.

(** ** Further properties: one line at a larger width, in another run *)







Section WiderRuns.

Variable E : Env.
Variables rb ro : list string -> list string.

Hypothesis range_oneline_perm : forall l, Permutation (range_oneline l) l.
Hypothesis ro_perm : forall l, Permutation (ro l) l.



End WiderRuns.

